(** * A shallow embedding of the browser-control library

    Three source files are embedded:
    - [transport/observe/observer.go]: the publish/subscribe registry
      (module [Observe]);
    - [browser.go]: target orchestration of [BrowserContext]
      (module [Control]);
    - the element-handle file (package [witness]): the tree of remote
      object references, staleness tracking and input choreography
      (module [Witness]).

    Go values are modelled as the code has them: a [(value, error)] return
    pair is a pair of options when the code itself tests the value against
    [nil], pointers into the element tree are indices into an arena, and
    every call that leaves the process is appended to a trace and answered
    by an oracle that sees the trace so far. *)

From Stdlib Require Import ZArith Lia.
From stdpp Require Import base list strings.

Local Open Scope string_scope.
Local Open Scope list_scope.
Local Open Scope nat_scope.

(** ** Go errors

    The sentinel errors of both packages.  [err == ErrX] in Go compares the
    identity of the sentinel; [ErrOther] stands for every error value that
    is none of the sentinels (protocol errors, exception details, ...). *)

Inductive error : Type :=
  | ErrStaleElementReference
  | ErrNoSuchElement
  | ErrElementInvisible
  | ErrElementMissClick
  | ErrElementNotFocusable
  | ErrCannotFindContext
  | ErrSessionClosed
  | ErrInvalidElementFrame
  | ErrInvalidElementSelect
  | ErrInvalidElementOption
  | ErrInvalidString
  | ErrDetachedFromTarget
  | ErrDeadlineExceeded
  | ErrOther (msg : string).

#[global] Instance error_eq_dec : EqDecision error.
Proof. solve_decision. Defined.

(** [err == sentinel] on a possibly-nil error. *)
Definition err_is (err : option error) (sentinel : error) : bool :=
  match err with
  | Some e => bool_decide (e = sentinel)
  | None => false
  end.

(** * observer.go *)

Module Observe.

Record Value : Type := { Method : string; Params : list Z }.

Section Bus.

(** The world the notification callbacks act on. *)
Context {W : Type}.

(** interface Observer: [ID()], [Event()] and the callback [Notify]. *)
Record Observer : Type := {
  ID : string;
  Event : string;
  Notify_cb : Value → W → W;
}.

(** struct Observable; the mutex is held for the whole of every method,
    so each method is one atomic state transition. *)
Record Observable : Type := { observers : list Observer }.

Definition New : Observable := {| observers := [] |}.

(** The guard of the loop body of [Notify].  The last conjunct of the
    source, [e.Notify != nil], is a method value taken from a non-nil
    interface and therefore always true. *)
Definition notified (event : string) (e : Observer) : bool :=
  (bool_decide (Event e = "*")
   || bool_decide (event = "")
   || bool_decide (Event e = event))
  && true.

Definition Notify (event : string) (val : Value) (o : Observable) (w : W) : W :=
  fold_left
    (λ w e, if notified event e then Notify_cb e val w else w)
    (observers o) w.

Definition Register (val : Observer) (o : Observable) : Observable :=
  {| observers := observers o ++ [val] |}.

(** Index of the first entry with the identity [id], as the [range]
    loop of [Unregister] finds it. *)
Fixpoint first_index (id : string) (l : list Observer) : option nat :=
  match l with
  | [] => None
  | e :: l' =>
      if bool_decide (ID e = id) then Some 0
      else S <$> first_index id l'
  end.

Definition Unregister (val : Observer) (o : Observable) : Observable :=
  match first_index (ID val) (observers o) with
  | Some n =>
      let tail := length (observers o) - 1 in
      match observers o !! tail with
      | Some last_e =>
          {| observers := take tail (<[n := last_e]> (observers o)) |}
      | None => o
      end
  | None => o
  end.

(** A history of registrations and removals. *)
Inductive op : Type :=
  | OpRegister (val : Observer)
  | OpUnregister (val : Observer).

Definition step (o : Observable) (a : op) : Observable :=
  match a with
  | OpRegister v => Register v o
  | OpUnregister v => Unregister v o
  end.

Definition run (ops : list op) (o : Observable) : Observable :=
  fold_left step ops o.

(** The observers a notification reaches, in the order of the slice. *)
Definition receivers (event : string) (o : Observable) : list Observer :=
  filter (λ e, notified event e = true) (observers o).

Definition deliver (val : Value) (l : list Observer) (w : W) : W :=
  fold_left (λ w e, Notify_cb e val w) l w.

(** Registration order as the specification words it: [Register]
    appends, [Unregister] takes the first entry with that identity out
    and keeps the others in place. *)
Fixpoint remove_first (id : string) (l : list Observer) : list Observer :=
  match l with
  | [] => []
  | e :: l' =>
      if bool_decide (ID e = id) then l' else e :: remove_first id l'
  end.

Definition registration_step (l : list Observer) (a : op) : list Observer :=
  match a with
  | OpRegister v => l ++ [v]
  | OpUnregister v => remove_first (ID v) l
  end.

Definition registration_order (ops : list op) : list Observer :=
  fold_left registration_step ops [].

(** A removal hits one of the last two entries of the slice [l], or
    finds no entry; a registration is no removal. *)
Definition near_end (l : list Observer) (a : op) : bool :=
  match a with
  | OpRegister _ => true
  | OpUnregister v =>
      if first_index (ID v) l is Some n
      then bool_decide (length l ≤ n + 2) else true
  end.

(** Every removal of the history, run from the registry [o], hits one of
    the last two entries of the slice it finds (or nothing at all). *)
Fixpoint removes_near_end (ops : list op) (o : Observable) : bool :=
  match ops with
  | [] => true
  | a :: ops' => near_end (observers o) a && removes_near_end ops' (step o a)
  end.

(** No registration of the history, run from [o], brings in an identity
    that is registered at that moment. *)
Definition fresh (l : list Observer) (a : op) : bool :=
  match a with
  | OpRegister v => bool_decide (first_index (ID v) l = None)
  | OpUnregister _ => true
  end.

Fixpoint registers_fresh (ops : list op) (o : Observable) : bool :=
  match ops with
  | [] => true
  | a :: ops' => fresh (observers o) a && registers_fresh ops' (step o a)
  end.

End Bus.

Arguments Observer : clear implicits.
Arguments Observable : clear implicits.
Arguments op : clear implicits.

End Observe.

(** * browser.go *)

Module Control.

Definition TargetID := string.
Definition SessionID := string.

(** Every call that leaves [BrowserContext], in the order it is issued.
    [scope] is the session a protocol call is addressed to; the browser
    itself is the empty scope of [BrowserContext.Call]. *)
Inductive call : Type :=
  | BrowserCrash
  | ClientClose
  | ClientRegister (id : SessionID) (tid : TargetID)
  | GoLifecycle (id : SessionID)
  | TargetSetDiscoverTargets (scope : SessionID) (discover : bool)
  | TargetAttachToTarget (id : TargetID) (flatten : bool)
  | TargetCreateTarget (url : string)
  | TargetActivateTarget (id : TargetID)
  | TargetCloseTarget (id : TargetID)
  | TargetGetTargets
  | PageEnable (scope : SessionID)
  | RuntimeEnable (scope : SessionID)
  | RuntimeAddBinding (scope : SessionID) (name : string)
  | PageSetLifecycleEventsEnabled (scope : SessionID) (enabled : bool)
  | NetworkEnable (scope : SessionID) (maxPostDataSize : Z).

#[global] Instance call_eq_dec : EqDecision call.
Proof. solve_decision. Defined.

Record TargetInfo : Type := { info_id : TargetID; info_url : string }.

(** The transport and the browser behind it: each reply is a function of
    the calls issued so far and of the call being answered. *)
Record Client : Type := {
  reply : list call → call → option error;
  created : list call → string → TargetID;
  attached : list call → TargetID → SessionID;
  targets : list call → list TargetInfo;
}.

(** struct Session, as far as [runSession] fills it in from its
    arguments; the other fields are fresh channels, maps and locks. *)
Record Session : Type := { guid : Z; id : SessionID; tid : TargetID }.

Section Browser.

Context (client : Client).
(** Constants of the package that are declared in other files. *)
Context (Blank : string) (bindClick : string).

Definition B (A : Type) : Type := list call → A * list call.

Definition ret {A} (a : A) : B A := λ t, (a, t).
Definition bind {A C} (m : B A) (f : A → B C) : B C :=
  λ t, let '(a, t') := m t in f a t'.

(** Issue a call and wait for the error of its reply. *)
Definition send (c : call) : B (option error) :=
  λ t, (reply client t c, t ++ [c]).

Definition Crash : B (option error) := send BrowserCrash.
Definition Close : B (option error) := send ClientClose.

Definition SetDiscoverTargets (discover : bool) : B (option error) :=
  send (TargetSetDiscoverTargets "" discover).

Definition runSession (targetID : TargetID) (sessionID : SessionID)
  : B (option Session * option error) :=
  let session := {| guid := 0; id := sessionID; tid := targetID |} in
  bind (send (GoLifecycle sessionID)) (λ _,
  bind (send (ClientRegister sessionID targetID)) (λ _,
  bind (send (PageEnable sessionID)) (λ err,
  if err is Some _ then ret (None, err) else
  bind (send (RuntimeEnable sessionID)) (λ err,
  if err is Some _ then ret (None, err) else
  bind (send (RuntimeAddBinding sessionID bindClick)) (λ err,
  if err is Some _ then ret (None, err) else
  bind (send (PageSetLifecycleEventsEnabled sessionID true)) (λ err,
  if err is Some _ then ret (None, err) else
  bind (send (TargetSetDiscoverTargets sessionID true)) (λ err,
  if err is Some _ then ret (None, err) else
  bind (send (NetworkEnable sessionID (2 * 1024))) (λ err,
  if err is Some _ then ret (None, err) else
  ret (Some session, None))))))))).

Definition AttachPageTarget (id : TargetID)
  : B (option Session * option error) :=
  bind (λ t, (attached client t id, t)) (λ val_SessionId,
  bind (send (TargetAttachToTarget id true)) (λ err,
  if err is Some _ then ret (None, err) else
  runSession id val_SessionId)).

Definition CreatePageTarget (url : string)
  : B (option Session * option error) :=
  let url := if bool_decide (url = "") then Blank else url in
  bind (λ t, (created client t url, t)) (λ r_TargetId,
  bind (send (TargetCreateTarget url)) (λ err,
  if err is Some _ then ret (None, err) else
  AttachPageTarget r_TargetId)).

Definition ActivateTarget (id : TargetID) : B (option error) :=
  send (TargetActivateTarget id).

Definition CloseTarget (id : TargetID) : B (option error) :=
  bind (send (TargetCloseTarget id)) (λ err,
  (* Target.detachedFromTarget event may come before the response of
     CloseTarget call *)
  if err_is err ErrDetachedFromTarget then ret None else ret err).

Definition GetTargets : B (list TargetInfo * option error) :=
  bind (λ t, (targets client t, t)) (λ val_TargetInfos,
  bind (send TargetGetTargets) (λ err,
  if err is Some _ then ret ([], err) else
  ret (val_TargetInfos, None))).

(** The calls of [runSession], in the order of the source: the dispatch
    task, the registration with the client, and the six enabling calls. *)
Definition enabling (targetID : TargetID) (sessionID : SessionID) : list call :=
  [ GoLifecycle sessionID;
    ClientRegister sessionID targetID;
    PageEnable sessionID;
    RuntimeEnable sessionID;
    RuntimeAddBinding sessionID bindClick;
    PageSetLifecycleEventsEnabled sessionID true;
    TargetSetDiscoverTargets sessionID true;
    NetworkEnable sessionID 2048 ].

(** The calls a method adds to the ones issued before it. *)
Definition issued {A} (m : B A) (t : list call) : list call :=
  drop (length t) (m t).2.

(** The calls that return an error value to the caller: every protocol
    call.  Starting the dispatch task and registering the session with
    the client return nothing. *)
Definition answered (c : call) : bool :=
  match c with
  | GoLifecycle _ | ClientRegister _ _ => false
  | _ => true
  end.

(** Every call of [l], issued in this order after the calls [t], that
    returns an error value returned nil. *)
Definition all_succeeded (t l : list call) : Prop :=
  ∀ (i : nat) c, l !! i = Some c → answered c = true →
    reply client (t ++ take i l) c = None.

(** How a method that is to produce a session ends, started after the
    calls [t]: it returns a session exactly when it returns no error; the
    session is then [session], the calls issued are [calls] and all of
    them succeeded; an error it returns is the reply to the last call it
    issued, the calls issued are then [calls] up to that one, and all
    calls before it succeeded. *)
Definition starts (m : B (option Session * option error)) (t : list call)
    (session : Session) (calls : list call) : Prop :=
  let r := (m t).1 in
  let sent := issued m t in
  (r.2 = None ↔ is_Some r.1)
  ∧ (r.2 = None →
       r.1 = Some session ∧ sent = calls ∧ all_succeeded t sent)
  ∧ (∀ e, r.2 = Some e →
       ∃ before c,
         sent = before ++ [c]
         ∧ sent `prefix_of` calls
         ∧ all_succeeded t before
         ∧ answered c = true
         ∧ reply client (t ++ before) c = Some e).

(** The create-target URLs among a list of calls. *)
Definition created_urls (t : list call) : list string :=
  omap (λ c, if c is TargetCreateTarget u then Some u else None) t.

End Browser.

End Control.

(** * The element-handle file (package witness) *)

Module Witness.

(** ** Values of package devtool *)

(** A float64 is carried as its IEEE-754 bit pattern; the arithmetic on
    it is supplied by the environment. *)
Record float64 : Type := { bits : Z }.

(** The literal [-1]. *)
Definition minus_one : float64 := {| bits := 0xBFF0000000000000 |}.

(** An [interface{}] holding a remote value. *)
Inductive value : Type :=
  | VNil
  | VBool (b : bool)
  | VString (s : string)
  | VOther (repr : string).

Record RemoteObject : Type := {
  Type_ : string;
  Subtype : string;
  Description : string;
  ObjectID : string;
  Value : value;
}.

Record PropertyDescriptor : Type := {
  Enumerable : bool;
  prop_Value : option RemoteObject;
}.

Record Point : Type := { X : float64; Y : float64 }.
Definition Quad : Type := list Point.
Record Rect : Type := {
  rect_X : float64; rect_Y : float64; Width : float64; Height : float64;
}.

Record Node : Type := { NodeName : string; FrameID : string }.
Record EventListener : Type := { listener_Type : string }.
(** A reply of [blockingSend], not yet decoded. *)
Record Message : Type := { raw : string }.

(** The JavaScript snippets of package atom. *)
Inductive atom : Type :=
  | Query | QueryAll | ScrollIntoView | PreventMissClick | IsClickHit
  | IsVisible_ | ClearInput | DispatchEvents | GetInnerText | SetAttr_
  | GetAttr_ | GetComputedStyle_ | GetSelected_ | GetSelectedText
  | SelectHasOptions | Select_ | CheckBox | IsChecked_.

(** A function declaration handed to [callFunctionOn]: an atom, or the
    caller's own source text (method [Call]). *)
Inductive fndecl : Type :=
  | FnAtom (a : atom)
  | FnSource (src : string).

(** An argument of a remote call or an entry of a parameter [Map]. *)
Inductive arg : Type :=
  | AString (s : string)
  | AStrings (l : list string)
  | ABool (b : bool)
  | AInt (n : Z)
  | AOther (repr : string).

Inductive LogLevel : Type := LevelFatal.

Inductive MouseEventType : Type :=
  | dispatchMouseEventMoved
  | dispatchMouseEventPressed
  | dispatchMouseEventReleased.

(** ** The session seen from the element

    Everything an element asks of its session, in the order it is asked.
    The session itself is another file; its replies are functions of
    the requests issued so far. *)
Inductive event : Type :=
  | EvEvaluate (expression : string) (contextID : Z) (async : bool)
  | EvCallFunctionOn (objectID : string) (fn : fndecl) (args : list arg)
  | EvReleaseObject (objectID : string)
  | EvGetProperties (objectID : string)
  | EvGetContentQuads (backendNodeID : Z) (objectID : string)
      (viewportCorrection : bool)
  | EvBlockingSend (method : string) (params : list (string * arg))
  | EvDispatchMouseEvent (x y : float64) (type : MouseEventType)
      (button : string)
  | EvMouseMove (x y : float64)
  | EvInsertText (text : string)
  | EvSendKeys (key : list Z)
  | EvCreateIsolatedWorld (frameID : string)
  | EvPrintf (level : LogLevel) (format : string)
  | EvSleep (milliseconds : Z).

Record Env : Type := {
  (* package devtool *)
  RemoteObject_Bool : RemoteObject → bool;
  Quad_Middle : Quad → float64 * float64;
  float_sub : float64 → float64 → float64;
  Unmarshal_DescribeNode : Message → option Node * option error;
  Unmarshal_EventListeners : Message → list EventListener * option error;
  (* the session *)
  getContextID : list event → Z;
  reply_err : list event → event → option error;
  reply_object : list event → event → option RemoteObject;
  reply_properties : list event → event → list PropertyDescriptor;
  reply_quad : list event → event → Quad;
  reply_message : list event → event → Message;
  (* number of attempts the retry loop fits before its deadline *)
  Ticker_attempts : nat;
}.

(** ** The element tree

    A [*element] is an index into the arena of all elements allocated so
    far; [nil] is [None]. *)
Abbreviation ptr := nat (only parsing).

Record element : Type := {
  ID : string;
  description : string;
  parent : option ptr;
  childs : list ptr;
  detached : Z;
}.

Definition set_ID (e : element) (id : string) : element :=
  {| ID := id; description := description e; parent := parent e;
     childs := childs e; detached := detached e |}.
Definition set_childs (e : element) (cs : list ptr) : element :=
  {| ID := ID e; description := description e; parent := parent e;
     childs := cs; detached := detached e |}.
Definition set_detached (e : element) (d : Z) : element :=
  {| ID := ID e; description := description e; parent := parent e;
     childs := childs e; detached := d |}.

Record State : Type := { heap : list element; trace : list event }.

Inductive panic : Type :=
  | NilDereference
  | IndexOutOfRange
  | TypeAssertion
  | PanicError (e : error).

(** How a call ends: it returns, it panics, or the model ran out of the
    fuel given to a recursion. *)
Inductive Outcome (A : Type) : Type :=
  | Normal (a : A) (s : State)
  | Panicked (p : panic) (s : State)
  | OutOfFuel.
Arguments Normal {A}.
Arguments Panicked {A}.
Arguments OutOfFuel {A}.

Definition M (A : Type) : Type := State → Outcome A.

Definition ret {A} (a : A) : M A := λ s, Normal a s.
Definition bind {A C} (m : M A) (k : A → M C) : M C :=
  λ s, match m s with
       | Normal a s' => k a s'
       | Panicked p s' => Panicked p s'
       | OutOfFuel => OutOfFuel
       end.
Definition throw {A} (p : panic) : M A := λ s, Panicked p s.

Declare Scope go_scope.
Delimit Scope go_scope with go.
Notation "'let*' p := m 'in' k" := (bind m (λ p, k))
  (at level 10, p pattern, m at level 100, k at level 200) : go_scope.
Notation "m ;;; k" := (bind m (λ _, k))
  (at level 100, k at level 200, right associativity) : go_scope.
Local Open Scope go_scope.

Fixpoint for_each {A} (body : A → M unit) (l : list A) : M unit :=
  match l with
  | [] => ret tt
  | a :: l' => body a ;;; for_each body l'
  end.

(** Reading and writing through a pointer. *)
Definition load (p : ptr) : M element :=
  λ s, match heap s !! p with
       | Some e => Normal e s
       | None => Panicked NilDereference s
       end.
Definition store (p : ptr) (e : element) : M unit :=
  λ s, Normal tt {| heap := <[p := e]> (heap s); trace := trace s |}.
Definition alloc (e : element) : M ptr :=
  λ s, Normal (length (heap s))
         {| heap := heap s ++ [e]; trace := trace s |}.

(** [r.f] on a [*RemoteObject]. *)
Definition deref {A} (r : option A) : M A :=
  match r with
  | Some x => ret x
  | None => throw NilDereference
  end.

(** [strings.ReplaceAll(selector, `"`, `\"`)]: the pattern is the single
    character 34, the replacement is a backslash (92) followed by it. *)
Definition dquote : Ascii.ascii := Ascii.ascii_of_nat 34.
Definition backslash : Ascii.ascii := Ascii.ascii_of_nat 92.

Fixpoint escape_quotes (s : string) : string :=
  match s with
  | EmptyString => EmptyString
  | String c s' =>
      if bool_decide (c = dquote)
      then String backslash (String dquote (escape_quotes s'))
      else String c (escape_quotes s')
  end.

(** *** Shape of the element tree *)

(** Every child was allocated after its parent: [newElement] appends the
    new element to the arena before it links it into [parent.childs]. *)
Definition children_after (h : list element) : Prop :=
  ∀ p e c, h !! p = Some e → c ∈ childs e → p < c < length h.

(** [q] is [p] or lies below it. *)
Inductive descendant (h : list element) : ptr → ptr → Prop :=
  | descendant_self p : descendant h p p
  | descendant_child p e c q :
      h !! p = Some e → c ∈ childs e → descendant h c q → descendant h p q.

(** The [detached] flag of [q] is set. *)
Definition flagged (h : list element) (q : ptr) : Prop :=
  ∃ e, h !! q = Some e ∧ detached e = 1%Z.

(** [h'] is [h] with the flag set on some of its elements and nothing
    else changed. *)
Definition flags_raised (h h' : list element) : Prop :=
  Forall2 (λ e e', e' = e ∨ e' = set_detached e 1) h h'.

(** What one call of [detach] on [p] does to the state [s]. *)
Definition detaches (m : M unit) (p : ptr) (s : State) : Prop :=
  ∃ s', m s = Normal tt s'
      ∧ trace s' = trace s
      ∧ flags_raised (heap s) (heap s')
      ∧ (∀ q, descendant (heap s) p q → flagged (heap s') q)
      ∧ (∀ q, ¬ descendant (heap s) p q → heap s' !! q = heap s !! q).

(** The requests a call adds to the trace, whether it returns or panics,
    and how many of them re-resolve the document root. *)
Definition final_trace {A} (o : Outcome A) : list event :=
  match o with
  | Normal _ s' | Panicked _ s' => trace s'
  | OutOfFuel => []
  end.

Definition issued {A} (m : M A) (s : State) : list event :=
  drop (length (trace s)) (final_trace (m s)).

Definition is_reresolution (ev : event) : bool :=
  if ev is EvEvaluate expression _ _
  then bool_decide (expression = "document") else false.

Definition reresolutions (t : list event) : nat :=
  length (filter (λ ev, is_reresolution ev = true) t).

Section Element.

Context (env : Env).

(** *** Calls into the session *)

Definition emit (ev : event) : M unit :=
  λ s, Normal tt {| heap := heap s; trace := trace s ++ [ev] |}.

(** Issue [ev]; the reply is read off the trace before [ev]. *)
Definition request {A} (answer : Env → list event → event → A)
    (ev : event) : M (A * option error) :=
  λ s, Normal (answer env (trace s) ev, reply_err env (trace s) ev)
         {| heap := heap s; trace := trace s ++ [ev] |}.

Definition no_answer (_ : Env) (_ : list event) (_ : event) : unit := tt.

Definition session_getContextID : M Z :=
  λ s, Normal (getContextID env (trace s)) s.

Definition evaluate (expression : string) (contextID : Z) (async : bool)
  : M (option RemoteObject * option error) :=
  request reply_object (EvEvaluate expression contextID async).

Definition callFunctionOn (objectID : string) (fn : fndecl)
    (args : list arg) : M (option RemoteObject * option error) :=
  request reply_object (EvCallFunctionOn objectID fn args).

Definition releaseObject (objectID : string) : M (option error) :=
  let* (_, err) := request no_answer (EvReleaseObject objectID) in
  ret err.

Definition getProperties (objectID : string)
  : M (list PropertyDescriptor * option error) :=
  request reply_properties (EvGetProperties objectID).

Definition getContentQuads (backendNodeID : Z) (objectID : string)
    (viewportCorrection : bool) : M (Quad * option error) :=
  request reply_quad
    (EvGetContentQuads backendNodeID objectID viewportCorrection).

Definition blockingSend (method : string) (params : list (string * arg))
  : M (Message * option error) :=
  request reply_message (EvBlockingSend method params).

Definition dispatchMouseEvent (x y : float64) (type : MouseEventType)
    (button : string) : M (option error) :=
  let* (_, err) := request no_answer (EvDispatchMouseEvent x y type button) in
  ret err.

Definition MouseMove (x y : float64) : M (option error) :=
  let* (_, err) := request no_answer (EvMouseMove x y) in ret err.

Definition insertText (text : string) : M (option error) :=
  let* (_, err) := request no_answer (EvInsertText text) in ret err.

Definition SendKeys (key : list Z) : M (option error) :=
  let* (_, err) := request no_answer (EvSendKeys key) in ret err.

Definition createIsolatedWorld (frameID : string) : M (option error) :=
  let* (_, err) := request no_answer (EvCreateIsolatedWorld frameID) in
  ret err.

Definition Logging_Printf (level : LogLevel) (format : string) : M unit :=
  emit (EvPrintf level format).

Definition time_Sleep (milliseconds : Z) : M unit :=
  emit (EvSleep milliseconds).

(** Method [Bool] of [*RemoteObject] reads the fields of its receiver:
    on a nil receiver it is a nil dereference. *)
Definition Bool (r : option RemoteObject) : M bool :=
  let* r := deref r in ret (RemoteObject_Bool env r).

(** Modelled from the spec: [Session.Ticker], the retry loop, is declared
    in another file.  It attempts [call] until an attempt succeeds or
    the deadline passes; the deadline is the number of attempts that fit
    before it, and its expiry is the deadline-exceeded error. *)
Fixpoint Ticker {A} (attempts : nat) (call : M (option A * option error))
  : M (option A * option error) :=
  match attempts with
  | O => ret (None, Some ErrDeadlineExceeded)
  | S n =>
      let* (r, err) := call in
      if err is Some _ then Ticker n call else ret (r, None)
  end.

(** [n] attempts in a row, from the state [s], end in an error and leave
    the state [s']. *)
Inductive fails_for {A} (call : M (option A * option error))
  : nat → State → State → Prop :=
  | fails_for_O s : fails_for call 0 s s
  | fails_for_S n s r err s1 s2 :
      call s = Normal (r, Some err) s1 →
      fails_for call n s1 s2 →
      fails_for call (S n) s s2.

(** *** The methods of [*element] *)

Definition newElement (parent : option ptr) (ID : string)
    (description : string) : M ptr :=
  let* e :=
    alloc {| ID := ID; description := description; parent := parent;
             childs := []; detached := 0%Z |} in
  match parent with
  | Some q =>
      let* pe := load q in
      store q (set_childs pe (childs pe ++ [e])) ;;;
      ret e
  | None => ret e
  end.

Fixpoint detach_rec (fuel : nat) (e : ptr) : M unit :=
  match fuel with
  | O => λ _, OutOfFuel
  | S fuel' =>
      let* v := load e in
      store e (set_detached v 1%Z) ;;;
      let* v := load e in
      for_each (detach_rec fuel') (childs v)
  end.

(** A child is allocated after its parent, so the depth of a tree is
    bounded by the size of the arena. *)
Definition detach (e : ptr) : M unit :=
  λ s, detach_rec (length (heap s)) e s.

Definition isDetached (e : ptr) : M bool :=
  let* v := load e in
  ret (bool_decide (detached v = 1%Z)).

Definition renew (e : ptr) : M (option error) :=
  let* d := isDetached e in
  if negb d then ret None else
  let* v := load e in
  if parent v is None then
    (* request a new document *)
    let* ctx := session_getContextID in
    let* (new, err) := evaluate "document" ctx false in
    if err is Some _ then ret (Some ErrStaleElementReference) else
    let* new := deref new in
    let* v := load e in
    store e (set_ID v (ObjectID new)) ;;;
    let* v := load e in
    store e (set_detached v 0%Z) ;;;
    ret None
  else
    Logging_Printf LevelFatal "todo: renew element is not implemented yet" ;;;
    ret None.

(** States and requests the re-validation passes through. *)

(** The request that re-resolves the document root in the state [s]. *)
Definition document_request (s : State) : event :=
  EvEvaluate "document" (getContextID env (trace s)) false.

Definition todo_log : event :=
  EvPrintf LevelFatal "todo: renew element is not implemented yet".

Definition after_request (s : State) (ev : event) : State :=
  {| heap := heap s; trace := trace s ++ [ev] |}.

(** The root with a fresh identifier and a cleared flag. *)
Definition healed (s : State) (p : ptr) (e : element) (new : RemoteObject)
  : State :=
  {| heap := <[p := set_detached (set_ID e (ObjectID new)) 0]> (heap s);
     trace := trace s ++ [document_request s] |}.

Definition call (e : ptr) (functionDeclaration : fndecl) (args : list arg)
  : M (option RemoteObject * option error) :=
  let* err := renew e in
  if err is Some _ then ret (None, err) else
  let* v := load e in
  callFunctionOn (ID v) functionDeclaration args.

Definition Release (e : ptr) : M (option error) :=
  let* v := load e in
  let* err := releaseObject (ID v) in
  (* deferred *)
  detach e ;;;
  ret err.

Definition findElement (e : ptr) (selector : string)
  : M (option ptr * option error) :=
  let* err := renew e in
  if err is Some _ then ret (None, err) else
  let selector := escape_quotes selector in
  let* (element, err) := call e (FnAtom Query) [AString selector] in
  if err is Some _ then ret (None, err) else
  let* element := deref element in
  if bool_decide (Subtype element = "null")
  then ret (None, Some ErrNoSuchElement) else
  let* new := newElement (Some e) (ObjectID element) (Description element) in
  ret (Some new, None).

Definition Seek (e : ptr) (selector : string)
  : M (option ptr * option error) :=
  findElement e selector.

(** The [range] loop of [findElements]. *)
Fixpoint findElements_loop (e : ptr) (descriptor : list PropertyDescriptor)
    (els : list ptr) : M (list ptr) :=
  match descriptor with
  | [] => ret els
  | d :: rest =>
      if negb (Enumerable d) then findElements_loop e rest els else
      let* v := deref (prop_Value d) in
      let* new := newElement (Some e) (ObjectID v) (Description v) in
      findElements_loop e rest (els ++ [new])
  end.

Definition findElements (e : ptr) (selector : string)
  : M (list ptr * option error) :=
  let* err := renew e in
  if err is Some _ then ret ([], err) else
  let selector := escape_quotes selector in
  let* (ro, err) := call e (FnAtom QueryAll) [AString selector] in
  if err is Some _ then ret ([], err) else
  let* empty :=
    (if ro is None then ret true
     else let* r := deref ro in
          ret (bool_decide (Description r = "NodeList(0)"))) in
  if (empty : bool) then
    let* r := deref ro in
    releaseObject (ObjectID r) ;;;
    ret ([], Some ErrNoSuchElement)
  else
  let* r := deref ro in
  let* (descriptor, err) := getProperties (ObjectID r) in
  let* els := findElements_loop e descriptor [] in
  ret (els, None).

Definition SeekAll (e : ptr) (selector : string) : M (list ptr) :=
  let* (v, err) := findElements e selector in
  if err is Some _ then ret [] else ret v.

Definition getNode (e : ptr) : M (option Node * option error) :=
  let* v := load e in
  let* (msg, err) :=
    blockingSend "DOM.describeNode"
      [("objectId", AString (ID v)); ("depth", AInt 1)] in
  if err is Some _ then ret (None, err) else
  let '(describeNode_Node, err) := Unmarshal_DescribeNode env msg in
  if err is Some _ then ret (None, err) else
  ret (describeNode_Node, None).

Definition Focus (e : ptr) : M (option error) :=
  let* v := load e in
  let* (_, err) := blockingSend "DOM.focus" [("objectId", AString (ID v))] in
  ret err.

Definition Call (e : ptr) (functionDeclaration : string) (args : list arg)
  : M (value * option error) :=
  let* u := load e in
  let* (v, err) := callFunctionOn (ID u) (FnSource functionDeclaration) args in
  if err is Some _ then ret (VNil, err) else
  let* v := deref v in
  ret (Value v, None).

Definition Upload (e : ptr) (files : list string) : M (option error) :=
  let* v := load e in
  let* (_, err) :=
    blockingSend "DOM.setFileInputFiles"
      [("files", AStrings files); ("objectId", AString (ID v))] in
  ret err.

Definition clickablePoint (e : ptr)
  : M (float64 * float64 * option error) :=
  let* v := load e in
  let* (r, err) := getContentQuads 0 (ID v) true in
  if err is Some _ then ret (minus_one, minus_one, err) else
  let '(x, y) := Quad_Middle env r in
  ret (x, y, None).

Definition Click (e : ptr) : M (option error) :=
  let* (_, err) := call e (FnAtom ScrollIntoView) [] in
  if err is Some _ then ret err else
  let* (x, y, err) := clickablePoint e in
  if err is Some _ then ret err else
  let* (_, err) := call e (FnAtom PreventMissClick) [] in
  if err is Some _ then ret err else
  dispatchMouseEvent x y dispatchMouseEventMoved "none" ;;;
  dispatchMouseEvent x y dispatchMouseEventPressed "left" ;;;
  dispatchMouseEvent x y dispatchMouseEventReleased "left" ;;;
  let* (hit, err) := call e (FnAtom IsClickHit) [] in
  (* in case when click is initiate navigation which destroyed context
     of element (ErrCannotFindContext) or click may closes a popup
     (ErrSessionClosed) *)
  let* landed := (if err is None then Bool hit else ret false) in
  if landed || err_is err ErrCannotFindContext || err_is err ErrSessionClosed
  then ret None
  else ret (Some ErrElementMissClick).


Definition SwitchToFrame (e : ptr) : M (option error) :=
  let* (node, err) := getNode e in
  if err is Some _ then ret err else
  let* node := deref node in
  if negb (bool_decide ("IFRAME" = NodeName node))
  then ret (Some ErrInvalidElementFrame) else
  createIsolatedWorld (FrameID node).

Definition IsVisible (e : ptr) : M (bool * option error) :=
  let* (_, err) := clickablePoint e in
  if err is Some _ then
    if err_is err ErrElementInvisible then ret (false, None)
    else ret (false, err)
  else
  let* (vis, err) := call e (FnAtom IsVisible_) [] in
  let* hidden :=
    (if err is Some _ then ret true
     else let* b := Bool vis in ret (negb b)) in
  if (hidden : bool) then ret (false, None) else ret (true, None).

Definition Hover (e : ptr) : M (option error) :=
  let* (_, err) := call e (FnAtom ScrollIntoView) [] in
  if err is Some _ then ret err else
  let* (x, y, err) := clickablePoint e in
  if err is Some _ then ret err else
  let* err := MouseMove x y in
  if err is Some _ then ret err else
  ret None.

Definition Clear (e : ptr) : M (option error) :=
  let* err := Focus e in
  if err is Some _ then ret err else
  let* (_, err) := call e (FnAtom ClearInput) [] in
  ret err.

(** [key] is the variadic [...rune]: [None] is the nil slice of a call
    without trailing keys. *)
Definition Type' (e : ptr) (text : string) (key : option (list Z))
  : M (option error) :=
  let* (enable, err) := call e (FnAtom IsVisible_) [] in
  let* refused :=
    (if err is Some _ then ret true
     else let* b := Bool enable in ret (negb b)) in
  if (refused : bool) then ret (Some ErrElementNotFocusable) else
  let* err := Clear e in
  if err is Some _ then ret err else
  time_Sleep 200 ;;;
  let* (_, err) := call e (FnAtom DispatchEvents) [AStrings ["keydown"]] in
  if err is Some _ then ret err else
  (* insert text, not typing *)
  let* err := insertText text in
  if err is Some _ then ret err else
  let* (_, err) :=
    call e (FnAtom DispatchEvents)
      [AStrings ["keypress"; "input"; "keyup"; "change"]] in
  if err is Some _ then ret err else
  (* send keyboard key after some pause *)
  if key is Some k then
    time_Sleep 200 ;;;
    SendKeys k
  else ret None.

Definition string_ (e : ptr) (functionDeclaration : fndecl)
    (args : list arg) : M (string * option error) :=
  let* (res, err) := call e functionDeclaration args in
  if err is Some _ then ret ("", err) else
  let* res := deref res in
  if negb (bool_decide (Type_ res = "string"))
  then ret ("", Some ErrInvalidString) else
  if Value res is VString s then ret (s, None) else throw TypeAssertion.

Definition GetText (e : ptr) : M (string * option error) :=
  string_ e (FnAtom GetInnerText) [].

Definition SetAttr (e : ptr) (attr value : string) : M (option error) :=
  let* (_, err) := call e (FnAtom SetAttr_) [AString attr; AString value] in
  ret err.

Definition GetAttr (e : ptr) (attr : string) : M (string * option error) :=
  string_ e (FnAtom GetAttr_) [AString attr].

Definition index (q : Quad) (i : nat) : M Point :=
  match q !! i with
  | Some p => ret p
  | None => throw IndexOutOfRange
  end.

Definition GetRectangle (e : ptr) : M (option Rect * option error) :=
  let* v := load e in
  let* (q, err) := getContentQuads 0 (ID v) false in
  if err is Some _ then ret (None, err) else
  let* q0 := index q 0 in
  let* q1 := index q 1 in
  let* q3 := index q 3 in
  ret (Some {| rect_X := X q0;
               rect_Y := Y q0;
               Width := float_sub env (X q1) (X q0);
               Height := float_sub env (Y q3) (Y q0) |}, None).

Definition GetComputedStyle (e : ptr) (style : string)
  : M (string * option error) :=
  string_ e (FnAtom GetComputedStyle_) [AString style].

Fixpoint GetSelected_loop (descriptor : list PropertyDescriptor)
    (options : list string) : M (list string) :=
  match descriptor with
  | [] => ret options
  | d :: rest =>
      if negb (Enumerable d) then GetSelected_loop rest options else
      let* v := deref (prop_Value d) in
      if Value v is VString s
      then GetSelected_loop rest (options ++ [s])
      else throw TypeAssertion
  end.

Definition GetSelected (e : ptr) (selectedText : bool)
  : M (list string * option error) :=
  let a := if selectedText then GetSelectedText else GetSelected_ in
  let* (ro, err) := call e (FnAtom a) [] in
  if err is Some _ then ret ([], err) else
  let* ro := deref ro in
  let* (descriptor, err) := getProperties (ObjectID ro) in
  if err is Some _ then ret ([], err) else
  let* options := GetSelected_loop descriptor [] in
  ret (options, None).

Definition Select (e : ptr) (values : list string) : M (option error) :=
  let* (node, err) := getNode e in
  if err is Some _ then ret err else
  let* node := deref node in
  if negb (bool_decide ("SELECT" = NodeName node))
  then ret (Some ErrInvalidElementSelect) else
  let* (has, err) := call e (FnAtom SelectHasOptions) [AStrings values] in
  let* b := Bool has in
  if negb b then ret (Some ErrInvalidElementOption) else
  let* (_, err) := call e (FnAtom Select_) [AStrings values] in
  ret err.

Definition Checkbox (e : ptr) (check : bool) : M (option error) :=
  let* (_, err) := call e (FnAtom CheckBox) [ABool check] in
  if err is Some _ then ret err else
  time_Sleep 250 ;;;
  let* (_, err) :=
    call e (FnAtom DispatchEvents) [AStrings ["click"; "change"]] in
  if err is Some _ then ret err else
  ret None.

Definition IsChecked (e : ptr) : M (bool * option error) :=
  let* (checked, err) := call e (FnAtom IsChecked_) [] in
  let* b := Bool checked in
  ret (b, err).

Definition GetEventListeners (e : ptr) : M (list string * option error) :=
  let* v := load e in
  let* (msg, err) :=
    blockingSend "DOMDebugger.getEventListeners"
      [("objectId", AString (ID v)); ("depth", AInt 1);
       ("pierce", ABool true)] in
  if err is Some _ then ret ([], err) else
  let '(events_Listeners, err) := Unmarshal_EventListeners env msg in
  if err is Some _ then ret ([], err) else
  ret (listener_Type <$> events_Listeners, None).

(** The function literal [Expect] hands to the retry loop. *)
Definition Expect_attempt (e : ptr) (selector : string) (visible : bool)
  : M (option ptr * option error) :=
  let* (new, err) := Seek e selector in
  if err is Some _ then ret (None, err) else
  if visible then
    let* new' := deref new in
    let* (v, err) := IsVisible new' in
    if err is Some _ then ret (None, err) else
    if negb v then ret (None, Some ErrElementInvisible) else
    ret (new, None)
  else ret (new, None).

(** Expect searching selector (visible) with implicity wait timeout *)
Definition Expect (e : ptr) (selector : string) (visible : bool) : M ptr :=
  let* (el, err) :=
    Ticker (Ticker_attempts env) (Expect_attempt e selector visible) in
  if err is Some err' then throw (PanicError err') else
  if el is Some new then ret new else throw TypeAssertion.

(** One attempt of [Expect], from the state [s] to the state [s'], that
    does not succeed: the [Seek] returns an error, or, when visibility is
    asked for, the visibility check of the element found returns an error
    or says that it is not visible. *)
Inductive attempt_fails (e : ptr) (selector : string) (visible : bool)
  : State → State → Prop :=
  | seek_fails s r err s' :
      Seek e selector s = Normal (r, Some err) s' →
      attempt_fails e selector visible s s'
  | check_fails s new s1 b err s' :
      visible = true →
      Seek e selector s = Normal (Some new, None) s1 →
      IsVisible new s1 = Normal (b, Some err) s' →
      attempt_fails e selector visible s s'
  | not_visible s new s1 s' :
      visible = true →
      Seek e selector s = Normal (Some new, None) s1 →
      IsVisible new s1 = Normal (false, None) s' →
      attempt_fails e selector visible s s'.

(** An attempt that succeeds with the element [new]: the [Seek] resolves
    [new] and, when visibility is asked for, [new] is found visible. *)
Definition attempt_succeeds (e : ptr) (selector : string) (visible : bool)
    (new : ptr) (s s' : State) : Prop :=
  ∃ s1, Seek e selector s = Normal (Some new, None) s1
      ∧ if visible then IsVisible new s1 = Normal (true, None) s'
        else s' = s1.

(** [n] attempts in a row that do not succeed. *)
Inductive retried (e : ptr) (selector : string) (visible : bool)
  : nat → State → State → Prop :=
  | retried_O s : retried e selector visible 0 s s
  | retried_S n s s1 s2 :
      attempt_fails e selector visible s s1 →
      retried e selector visible n s1 s2 →
      retried e selector visible (S n) s s2.

(** *** interface Element

    One constructor per method of the interface, with its arguments, and
    one shape of result per signature. *)

Inductive operation : Type :=
  | DoSeek (selector : string)
  | DoSeekAll (selector : string)
  | DoExpect (selector : string) (visible : bool)
  | DoClick
  | DoHover
  | DoType (text : string) (key : option (list Z))
  | DoUpload (files : list string)
  | DoClear
  | DoSelect (values : list string)
  | DoCheckbox (check : bool)
  | DoSetAttr (attr value : string)
  | DoCall (functionDeclaration : string) (args : list arg)
  | DoFocus
  | DoSwitchToFrame
  | DoIsVisible
  | DoGetText
  | DoGetAttr (attr : string)
  | DoGetRectangle
  | DoGetComputedStyle (style : string)
  | DoGetSelected (selectedText : bool)
  | DoIsChecked
  | DoGetEventListeners
  | DoRelease.

Inductive result : Type :=
  | RError (err : option error)
  | RElement (el : option ptr) (err : option error)
  | RElements (els : list ptr)
  | RHandle (el : ptr)
  | RBool (b : bool) (err : option error)
  | RString (s : string) (err : option error)
  | RStrings (l : list string) (err : option error)
  | RRect (r : option Rect) (err : option error)
  | RValue (v : value) (err : option error).

Definition perform (o : operation) (e : ptr) : M result :=
  match o with
  | DoSeek selector => let* (el, err) := Seek e selector in ret (RElement el err)
  | DoSeekAll selector => let* els := SeekAll e selector in ret (RElements els)
  | DoExpect selector visible =>
      let* el := Expect e selector visible in ret (RHandle el)
  | DoClick => let* err := Click e in ret (RError err)
  | DoHover => let* err := Hover e in ret (RError err)
  | DoType text key => let* err := Type' e text key in ret (RError err)
  | DoUpload files => let* err := Upload e files in ret (RError err)
  | DoClear => let* err := Clear e in ret (RError err)
  | DoSelect values => let* err := Select e values in ret (RError err)
  | DoCheckbox check => let* err := Checkbox e check in ret (RError err)
  | DoSetAttr attr value => let* err := SetAttr e attr value in ret (RError err)
  | DoCall fn args => let* (v, err) := Call e fn args in ret (RValue v err)
  | DoFocus => let* err := Focus e in ret (RError err)
  | DoSwitchToFrame => let* err := SwitchToFrame e in ret (RError err)
  | DoIsVisible => let* (b, err) := IsVisible e in ret (RBool b err)
  | DoGetText => let* (s, err) := GetText e in ret (RString s err)
  | DoGetAttr attr => let* (s, err) := GetAttr e attr in ret (RString s err)
  | DoGetRectangle => let* (r, err) := GetRectangle e in ret (RRect r err)
  | DoGetComputedStyle style =>
      let* (s, err) := GetComputedStyle e style in ret (RString s err)
  | DoGetSelected selectedText =>
      let* (l, err) := GetSelected e selectedText in ret (RStrings l err)
  | DoIsChecked => let* (b, err) := IsChecked e in ret (RBool b err)
  | DoGetEventListeners =>
      let* (l, err) := GetEventListeners e in ret (RStrings l err)
  | DoRelease => let* err := Release e in ret (RError err)
  end.

End Element.

(** *** Taking the two click races out of the session

    [demote] turns the two errors that [Click] tolerates into ordinary
    errors and leaves every other error alone; [demote_env] does so in
    every reply of a session. *)

Definition demote (e : error) : error :=
  match e with
  | ErrCannotFindContext => ErrOther "Cannot find context with specified id"
  | ErrSessionClosed => ErrOther "session closed"
  | _ => e
  end.

Definition on_err {A} (r : A * option error) : A * option error :=
  (r.1, demote <$> r.2).

Definition demote_env (env : Env) : Env :=
  {| RemoteObject_Bool := RemoteObject_Bool env;
     Quad_Middle := Quad_Middle env;
     float_sub := float_sub env;
     Unmarshal_DescribeNode := λ msg, on_err (Unmarshal_DescribeNode env msg);
     Unmarshal_EventListeners := λ msg, on_err (Unmarshal_EventListeners env msg);
     getContextID := getContextID env;
     reply_err := λ t ev, demote <$> reply_err env t ev;
     reply_object := reply_object env;
     reply_properties := reply_properties env;
     reply_quad := reply_quad env;
     reply_message := reply_message env;
     Ticker_attempts := Ticker_attempts env |}.


Definition demote_panic (x : panic) : panic :=
  match x with
  | PanicError e => PanicError (demote e)
  | _ => x
  end.

Definition map_outcome {A} (f : A → A) (o : Outcome A) : Outcome A :=
  match o with
  | Normal a s => Normal (f a) s
  | Panicked x s => Panicked (demote_panic x) s
  | OutOfFuel => OutOfFuel
  end.

(** [m'] does what [m] does, up to [f] on the value returned and
    [demote] on an error it panics with. *)
Definition sim {A} (f : A → A) (m' m : M A) : Prop :=
  ∀ s, m' s = map_outcome f (m s).

(** The element [newElement] allocates for the remote object [r] found
    through the handle [p]. *)
Definition found (p : ptr) (r : RemoteObject) : element :=
  {| ID := ObjectID r; description := Description r; parent := Some p;
     childs := []; detached := 0 |}.

(** The arena [h] after that element was allocated and linked in as the
    last child of [p], whose element is [e]. *)
Definition adopted (h : list element) (p : ptr) (e : element)
    (r : RemoteObject) : list element :=
  <[p := set_childs e (childs e ++ [length h])]> (h ++ [found p r]).

(** The same step without naming the element of [p]. *)
Definition adopt (p : ptr) (h : list element) (r : RemoteObject)
  : list element :=
  alter (λ pe, set_childs pe (childs pe ++ [length h])) p (h ++ [found p r]).

(** The remote objects of the enumerable descriptors, in order; [None]
    when an enumerable descriptor has no value. *)
Fixpoint enumerated (descriptor : list PropertyDescriptor)
  : option (list RemoteObject) :=
  match descriptor with
  | [] => Some []
  | d :: rest =>
      if negb (Enumerable d) then enumerated rest else
      match prop_Value d, enumerated rest with
      | Some r, Some rs => Some (r :: rs)
      | _, _ => None
      end
  end.

#[global] Instance arg_eq_dec : EqDecision arg.
Proof. solve_decision. Defined.

#[global] Instance operation_eq_dec : EqDecision operation.
Proof. solve_decision. Defined.

#[global] Instance element_eq_dec : EqDecision element.
Proof. solve_decision. Defined.

(** *** Invariants of the element tree *)

(** Parent pointers and child lists agree: whatever is listed as a child
    of [q] names [q] as its parent, and the other way round. *)
Definition linked (h : list element) : Prop :=
  (∀ q pe c, h !! q = Some pe → c ∈ childs pe →
             ∃ e, h !! c = Some e ∧ parent e = Some q)
  ∧ (∀ c e q, h !! c = Some e → parent e = Some q →
              ∃ pe, h !! q = Some pe ∧ c ∈ childs pe).

(** What may have happened to the elements of [h] on the way to [h']:
    none is gone; parent and description are as they were; child lists
    have only grown at the end; an element with a parent has kept its
    object identifier, and its detached flag if that was set. *)
Definition evolved (h h' : list element) : Prop :=
  length h ≤ length h'
  ∧ ∀ q e, h !! q = Some e →
      ∃ e', h' !! q = Some e'
          ∧ parent e' = parent e
          ∧ description e' = description e
          ∧ childs e `prefix_of` childs e'
          ∧ (is_Some (parent e) →
               ID e' = ID e ∧ (detached e = 1%Z → detached e' = 1%Z)).

(** A well-formed tree that the tree [h0] has evolved into. *)
Definition grown_from (h0 h : list element) : Prop :=
  children_after h ∧ linked h ∧ evolved h0 h.

Definition tree_grown_from (h0 : list element) (s : State) : Prop :=
  grown_from h0 (heap s).

(** [m] ends, by returning or by panicking, and keeps the property [I] of
    the state. *)
Definition keeps {A} (I : State → Prop) (m : M A) : Prop :=
  ∀ s, I s →
    match m s with
    | Normal _ s' | Panicked _ s' => I s'
    | OutOfFuel => False
    end.

(** No document root is detached. *)
Definition roots_attached (h : list element) : Prop :=
  ∀ q e, h !! q = Some e → parent e = None → detached e ≠ 1%Z.

(** Since the requests [t0], nothing was sent that re-resolves the
    document, and no document root is detached. *)
Definition calm (t0 : list event) (s : State) : Prop :=
  roots_attached (heap s)
  ∧ ∃ l, trace s = t0 ++ l ∧ reresolutions l = 0.

(** Whatever [m] returns satisfies [Q]. *)
Definition returns {A} (m : M A) (Q : A → Prop) : Prop :=
  ∀ s a s', m s = Normal a s' → Q a.

(** The methods whose source does not call [renew], directly or through
    [call], before it uses the handle's identifier. *)
Definition skips_revalidation (o : operation) : bool :=
  match o with
  | DoCall _ _ | DoFocus | DoUpload _ | DoSwitchToFrame | DoGetRectangle
  | DoGetEventListeners => true
  | _ => false
  end.

(** Number of double quotes in a selector. *)
Fixpoint count_quotes (s : string) : nat :=
  match s with
  | EmptyString => 0
  | String c s' => (if bool_decide (c = dquote) then 1 else 0) + count_quotes s'
  end.

(** A result that comes with an error carries the zero value of its
    type. *)
Definition zero_with_error {A} (zero : A) (r : A * option error) : Prop :=
  is_Some r.2 → r.1 = zero.

Definition zero_on_error (r : result) : Prop :=
  match r with
  | RElement el err => zero_with_error None (el, err)
  | RBool b err => zero_with_error false (b, err)
  | RString s err => zero_with_error "" (s, err)
  | RStrings l err => zero_with_error [] (l, err)
  | RRect r err => zero_with_error None (r, err)
  | RValue v err => zero_with_error VNil (v, err)
  | RError _ | RElements _ | RHandle _ => True
  end.

End Witness.

(** * Concrete environments and histories *)

(** Observers that write their identity into a log, for concrete runs. *)
Definition logging_observer (id filter : string)
  : Observe.Observer (list string) :=
  {| Observe.ID := id; Observe.Event := filter;
     Observe.Notify_cb := λ _ log, log ++ [id] |}.

Definition ping : Observe.Value :=
  {| Observe.Method := "Page.loadEventFired"; Observe.Params := [] |}.

Definition swap_history : list (Observe.op (list string)) :=
  [ Observe.OpRegister (logging_observer "a" "*");
    Observe.OpRegister (logging_observer "b" "*");
    Observe.OpRegister (logging_observer "c" "*");
    Observe.OpUnregister (logging_observer "a" "*") ].

(** The second-to-last observer leaves: the last one moves into its
    place, and another one joins. *)
Definition near_end_history : list (Observe.op (list string)) :=
  [ Observe.OpRegister (logging_observer "a" "*");
    Observe.OpRegister (logging_observer "b" "Page.loadEventFired");
    Observe.OpRegister (logging_observer "c" "Page.loadEventFired");
    Observe.OpUnregister (logging_observer "b" "Page.loadEventFired");
    Observe.OpRegister (logging_observer "d" "*") ].

(** A browser whose target is already gone when the close call arrives,
    and that refuses nothing else. *)
Definition racing_client : Control.Client :=
  {| Control.reply := λ _ c,
       if c is Control.TargetCloseTarget _ then Some ErrDetachedFromTarget
       else None;
     Control.created := λ _ _, "target-1";
     Control.attached := λ _ _, "session-1";
     Control.targets := λ _, [] |}.

(** A session that answers every request with [nil, nil], an empty
    property list and an empty quad. *)
Definition silent_env : Witness.Env :=
  {| Witness.RemoteObject_Bool := λ r,
       if Witness.Value r is Witness.VBool b then b else false;
     Witness.Quad_Middle := λ _, (Witness.minus_one, Witness.minus_one);
     Witness.float_sub := λ a _, a;
     Witness.Unmarshal_DescribeNode := λ _, (None, None);
     Witness.Unmarshal_EventListeners := λ _, ([], None);
     Witness.getContextID := λ _, 1%Z;
     Witness.reply_err := λ _ _, None;
     Witness.reply_object := λ _ _, None;
     Witness.reply_properties := λ _ _, [];
     Witness.reply_quad := λ _ _, [];
     Witness.reply_message := λ _ _, {| Witness.raw := "{}" |};
     Witness.Ticker_attempts := 3 |}.

(** [env] with other replies to the requests. *)
Definition answering (env : Witness.Env)
    (err : list Witness.event → Witness.event → option error)
    (object : list Witness.event → Witness.event → option Witness.RemoteObject)
  : Witness.Env :=
  {| Witness.RemoteObject_Bool := Witness.RemoteObject_Bool env;
     Witness.Quad_Middle := Witness.Quad_Middle env;
     Witness.float_sub := Witness.float_sub env;
     Witness.Unmarshal_DescribeNode := Witness.Unmarshal_DescribeNode env;
     Witness.Unmarshal_EventListeners := Witness.Unmarshal_EventListeners env;
     Witness.getContextID := Witness.getContextID env;
     Witness.reply_err := err;
     Witness.reply_object := object;
     Witness.reply_properties := Witness.reply_properties env;
     Witness.reply_quad := Witness.reply_quad env;
     Witness.reply_message := Witness.reply_message env;
     Witness.Ticker_attempts := Witness.Ticker_attempts env |}.

Definition remote_node (id : string) : Witness.RemoteObject :=
  {| Witness.Type_ := "object"; Witness.Subtype := "node";
     Witness.Description := "div"; Witness.ObjectID := id;
     Witness.Value := Witness.VNil |}.

Definition remote_bool (b : bool) : Witness.RemoteObject :=
  {| Witness.Type_ := "boolean"; Witness.Subtype := "";
     Witness.Description := ""; Witness.ObjectID := "";
     Witness.Value := Witness.VBool b |}.

(** The document root, a form found in it and a button found in the
    form; [flag] is the detached flag of all three. *)
Definition page_heap (flag : Z) : list Witness.element :=
  [ {| Witness.ID := "doc-1"; Witness.description := "#document";
       Witness.parent := None; Witness.childs := [1];
       Witness.detached := flag |};
    {| Witness.ID := "form-1"; Witness.description := "form";
       Witness.parent := Some 0; Witness.childs := [2];
       Witness.detached := flag |};
    {| Witness.ID := "button-1"; Witness.description := "button";
       Witness.parent := Some 1; Witness.childs := [];
       Witness.detached := flag |} ].

Definition page (flag : Z) : Witness.State :=
  {| Witness.heap := page_heap flag; Witness.trace := [] |}.

(** The session is closed: every request fails. *)
Definition closed_env : Witness.Env :=
  answering silent_env (λ _ _, Some ErrSessionClosed) (λ _ _, None).

(** After a navigation: the document is re-resolved to a new object and
    every remote function reports [true]. *)
Definition navigated_env : Witness.Env :=
  answering silent_env (λ _ _, None)
    (λ _ ev, if ev is Witness.EvEvaluate _ _ _
             then Some (remote_node "doc-2") else Some (remote_bool true)).

(** [env] whose node descriptions all decode to [node]. *)
Definition describing (env : Witness.Env) (node : Witness.Node) : Witness.Env :=
  {| Witness.RemoteObject_Bool := Witness.RemoteObject_Bool env;
     Witness.Quad_Middle := Witness.Quad_Middle env;
     Witness.float_sub := Witness.float_sub env;
     Witness.Unmarshal_DescribeNode := λ _, (Some node, None);
     Witness.Unmarshal_EventListeners := Witness.Unmarshal_EventListeners env;
     Witness.getContextID := Witness.getContextID env;
     Witness.reply_err := Witness.reply_err env;
     Witness.reply_object := Witness.reply_object env;
     Witness.reply_properties := Witness.reply_properties env;
     Witness.reply_quad := Witness.reply_quad env;
     Witness.reply_message := Witness.reply_message env;
     Witness.Ticker_attempts := Witness.Ticker_attempts env |}.

(** The page is gone for good: the document cannot be re-resolved, every
    other request is answered, and node descriptions say SELECT. *)
Definition unresolvable_env : Witness.Env :=
  describing
    (answering silent_env
       (λ _ ev, if ev is Witness.EvEvaluate _ _ _
                then Some (ErrOther "Cannot find context with specified id")
                else None)
       (λ _ _, Some (remote_bool true)))
    {| Witness.NodeName := "SELECT"; Witness.FrameID := "" |}.

(** The states in which waiting for a visible form at the document root
    ends: with the session closed, after the last attempt; after a
    navigation, after the first. *)
Definition given_up : Witness.State :=
  Eval vm_compute in
    match Witness.Expect closed_env 0 "form" true (page 0) with
    | Witness.Panicked _ s => s
    | _ => page 0
    end.

Definition form_visible : Witness.State :=
  Eval vm_compute in
    match Witness.Expect navigated_env 0 "form" true (page 0) with
    | Witness.Normal _ s => s
    | _ => page 0
    end.




(** Every query finds the same input element. *)
Definition finding_env : Witness.Env :=
  answering silent_env (λ _ _, None) (λ _ _, Some (remote_node "input-1")).

(** The page after the form handle has found that input. *)
Definition page_with_input : Witness.State :=
  {| Witness.heap :=
       Witness.adopted (page_heap 0) 1
         {| Witness.ID := "form-1"; Witness.description := "form";
            Witness.parent := Some 0; Witness.childs := [2];
            Witness.detached := 0 |}
         (remote_node "input-1");
     Witness.trace :=
       [Witness.EvCallFunctionOn "form-1" (Witness.FnAtom Witness.Query)
          [Witness.AString "input"]] |}.

Definition node_list (n : string) : Witness.RemoteObject :=
  {| Witness.Type_ := "object"; Witness.Subtype := "";
     Witness.Description := "NodeList(" ++ n ++ ")";
     Witness.ObjectID := "list-1"; Witness.Value := Witness.VNil |}.

(** Every query-all finds two inputs; the list object also has its
    [length], which is not enumerable. *)
Definition listing_env : Witness.Env :=
  {| Witness.RemoteObject_Bool := Witness.RemoteObject_Bool silent_env;
     Witness.Quad_Middle := Witness.Quad_Middle silent_env;
     Witness.float_sub := Witness.float_sub silent_env;
     Witness.Unmarshal_DescribeNode := Witness.Unmarshal_DescribeNode silent_env;
     Witness.Unmarshal_EventListeners :=
       Witness.Unmarshal_EventListeners silent_env;
     Witness.getContextID := Witness.getContextID silent_env;
     Witness.reply_err := λ _ _, None;
     Witness.reply_object := λ _ _, Some (node_list "2");
     Witness.reply_properties := λ _ _,
       [ {| Witness.Enumerable := true;
            Witness.prop_Value := Some (remote_node "input-1") |};
         {| Witness.Enumerable := false;
            Witness.prop_Value := Some (remote_bool false) |};
         {| Witness.Enumerable := true;
            Witness.prop_Value := Some (remote_node "input-2") |} ];
     Witness.reply_quad := λ _ _, [];
     Witness.reply_message := Witness.reply_message silent_env;
     Witness.Ticker_attempts := 3 |}.

(** Every query-all finds nothing. *)
Definition empty_list_env : Witness.Env :=
  answering silent_env (λ _ _, None) (λ _ _, Some (node_list "0")).

(** Every node is a DIV. *)
Definition div_env : Witness.Env :=
  describing silent_env {| Witness.NodeName := "DIV"; Witness.FrameID := "" |}.

(** * Facts about observer.go *)

Section ObserveFacts.

Import Observe.
Context {W : Type}.

Implicit Types (o : Observable W) (e val : Observer W) (l : list (Observer W)).

Lemma notified_spec (event : string) e :
  notified event e = true ↔ Event e = "*" ∨ event = "" ∨ Event e = event.
Proof.
  unfold notified. rewrite andb_true_r, !orb_true_iff, !bool_decide_eq_true.
  tauto.
Qed.

Lemma Notify_deliver (event : string) (v : Value) o (w : W) :
  Notify event v o w = deliver v (receivers event o) w.
Proof.
  unfold Notify, deliver, receivers. destruct o as [l]; simpl.
  revert w. induction l as [|e l IH]; intros w; simpl; [done|].
  rewrite filter_cons. destruct (notified event e) eqn:Hn.
  - rewrite decide_True by done. simpl. apply IH.
  - rewrite decide_False by (by intros ?). apply IH.
Qed.

Lemma first_index_lt (id : string) l (n : nat) :
  first_index id l = Some n → n < length l.
Proof.
  revert n. induction l as [|e l IH]; intros n; simpl; [done|].
  case_bool_decide.
  - intros [= <-]. lia.
  - destruct (first_index id l) as [m|]; simpl; [|done].
    intros [= <-]. specialize (IH m eq_refl). lia.
Qed.

Lemma remove_first_take_drop (id : string) l (n : nat) :
  first_index id l = Some n → remove_first id l = take n l ++ drop (S n) l.
Proof.
  revert n. induction l as [|e l IH]; intros n; simpl; [done|].
  case_bool_decide.
  - by intros [= <-].
  - destruct (first_index id l) as [m|]; simpl; [|done].
    intros [= <-]. simpl. f_equal. by apply IH.
Qed.

Lemma remove_first_absent (id : string) l :
  first_index id l = None → remove_first id l = l.
Proof.
  induction l as [|e l IH]; simpl; [done|].
  case_bool_decide; [done|].
  destruct (first_index id l); simpl; [done|].
  intros _. f_equal. by apply IH.
Qed.

Lemma first_index_None (id : string) l :
  first_index id l = None ↔ ∀ e, e ∈ l → ID e ≠ id.
Proof.
  induction l as [|x l IH]; simpl.
  - split; [|done]. intros _ e He. by apply elem_of_nil in He.
  - case_bool_decide as Hx.
    + split; [done|]. intros H. destruct (H x); [left|done].
    + destruct (first_index id l) as [n|]; simpl.
      * split; [done|]. intros H.
        assert (Hnone : @None nat = None) by done.
        destruct IH as [_ IH]. discriminate IH.
        intros e He. apply H. by right.
      * split; [|done]. intros _ e He.
        apply elem_of_cons in He as [->|He]; [done|].
        by apply IH.
Qed.

Lemma first_index_Some (id : string) l (n : nat) :
  first_index id l = Some n →
  ∃ x, l !! n = Some x ∧ ID x = id ∧ ∀ m y, m < n → l !! m = Some y → ID y ≠ id.
Proof.
  revert n. induction l as [|x l IH]; intros n; simpl; [done|].
  case_bool_decide as Hx.
  - intros [= <-]. exists x. split; [done|]. split; [done|]. intros; lia.
  - destruct (first_index id l) as [k|]; simpl; [|done].
    intros [= <-]. destruct (IH k eq_refl) as (y & Hy & Hid & Hbefore).
    exists y. split; [done|]. split; [done|].
    intros [|m] z Hm Hz; simpl in Hz; [by simplify_eq|].
    apply (Hbefore m z); [lia|done].
Qed.

(** What [Unregister] leaves when it finds the identity at index [n]. *)
Lemma Unregister_found val l (n : nat) :
  first_index (ID val) l = Some n →
  ∃ last_e, l !! (length l - 1) = Some last_e
    ∧ observers (Unregister val {| observers := l |})
      = take (length l - 1) (<[n := last_e]> l).
Proof.
  intros Hn. pose proof (first_index_lt _ _ _ Hn) as Hlt.
  unfold Unregister; simpl. rewrite Hn.
  destruct (l !! (length l - 1)) as [last_e|] eqn:Hlast.
  - by exists last_e.
  - apply lookup_ge_None in Hlast. lia.
Qed.

(** The swap with the last entry leaves the order of the others alone
    when the removed entry is the last one or the one before it. *)
Lemma Unregister_near_end val l (n : nat) :
  first_index (ID val) l = Some n → length l ≤ n + 2 →
  observers (Unregister val {| observers := l |}) = remove_first (ID val) l.
Proof.
  intros Hn Hnear. pose proof (first_index_lt _ _ _ Hn) as Hlt.
  destruct (Unregister_found val l n Hn) as (last_e & Hlast & ->).
  rewrite (remove_first_take_drop _ _ _ Hn).
  apply list_eq. intros i.
  destruct (decide (i < n)) as [Hi|Hi].
  - rewrite lookup_take_lt by lia. rewrite list_lookup_insert_ne by lia.
    rewrite lookup_app_l by (rewrite length_take; lia).
    by rewrite lookup_take_lt by lia.
  - rewrite lookup_app_r by (rewrite length_take; lia).
    rewrite length_take, lookup_drop.
    replace (S n + (i - n `min` length l)) with (S i) by lia.
    destruct (decide (i = n ∧ n + 2 = length l)) as [[-> Hn2]|Hne].
    + rewrite lookup_take_lt by lia. rewrite list_lookup_insert_eq by lia.
      rewrite <- Hlast. f_equal. lia.
    + rewrite lookup_take_ge by lia. symmetry. apply lookup_ge_None. lia.
Qed.

(** With unique identities, a removal further from the end puts the last
    entry ahead of the entries that were between the two. *)
Lemma Unregister_far_from_end val l (n : nat) :
  NoDup (ID <$> l) → first_index (ID val) l = Some n → n + 2 < length l →
  observers (Unregister val {| observers := l |}) ≠ remove_first (ID val) l.
Proof.
  intros Hnd Hn Hfar Heq.
  destruct (Unregister_found val l n Hn) as (last_e & Hlast & Hcode).
  rewrite Hcode, (remove_first_take_drop _ _ _ Hn) in Heq.
  apply (f_equal (λ k, k !! n)) in Heq.
  rewrite lookup_take_lt in Heq by lia.
  rewrite list_lookup_insert_eq in Heq by lia.
  rewrite lookup_app_r in Heq by (rewrite length_take; lia).
  rewrite length_take, lookup_drop in Heq.
  replace (S n + (n - n `min` length l)) with (S n) in Heq by lia.
  assert (H1 : (ID <$> l) !! (S n) = Some (ID last_e))
    by (by rewrite list_lookup_fmap, <- Heq).
  assert (H2 : (ID <$> l) !! (length l - 1) = Some (ID last_e))
    by (by rewrite list_lookup_fmap, Hlast).
  pose proof (NoDup_lookup _ _ _ _ Hnd H1 H2). lia.
Qed.

(** One operation of a history keeps the slice in registration order if
    it is no removal far from the end; with unique identities, only then. *)
Lemma step_near_end o (a : op W) :
  near_end (observers o) a = true →
  observers (step o a) = registration_step (observers o) a.
Proof.
  destruct o as [l], a as [v|v]; simpl; [done|].
  destruct (first_index (ID v) l) as [n|] eqn:Hn.
  - rewrite bool_decide_eq_true. intros Hnear.
    by apply (Unregister_near_end v l n).
  - intros _. rewrite (remove_first_absent _ _ Hn).
    unfold Unregister; simpl. by rewrite Hn.
Qed.

Lemma near_end_step o (a : op W) :
  NoDup (ID <$> observers o) →
  observers (step o a) = registration_step (observers o) a →
  near_end (observers o) a = true.
Proof.
  destruct o as [l], a as [v|v]; simpl; [done|].
  intros Hnd Heq. destruct (first_index (ID v) l) as [n|] eqn:Hn; [|done].
  apply bool_decide_eq_true. destruct (decide (length l ≤ n + 2)); [done|].
  destruct (Unregister_far_from_end v l n Hnd Hn); [lia|done].
Qed.

Lemma remove_first_sublist (id : string) l : remove_first id l `sublist_of` l.
Proof.
  induction l as [|e l IH]; simpl; [done|].
  case_bool_decide; [by apply sublist_cons|by apply sublist_skip].
Qed.

Lemma registration_step_NoDup l (a : op W) :
  NoDup (ID <$> l) → fresh l a = true →
  NoDup (ID <$> registration_step l a).
Proof.
  intros Hnd. destruct a as [v|v]; simpl.
  - rewrite bool_decide_eq_true, first_index_None. intros Hfresh.
    rewrite fmap_app. apply NoDup_app. split; [done|]. split.
    + intros id Hid Hv. apply list_elem_of_singleton in Hv as ->.
      apply list_elem_of_fmap in Hid as (e & Heq & He).
      by apply (Hfresh e He).
    + apply NoDup_singleton.
  - intros _. apply (sublist_NoDup _ (ID <$> l)); [done|].
    apply fmap_sublist, remove_first_sublist.
Qed.

Lemma run_registration_order (ops : list (op W)) o :
  removes_near_end ops o = true →
  observers (run ops o) = fold_left registration_step ops (observers o).
Proof.
  revert o. induction ops as [|a ops IH]; intros o; simpl; [done|].
  rewrite andb_true_iff. intros [Hnear Hrest].
  rewrite <- (step_near_end o a Hnear). by apply IH.
Qed.

Lemma removes_near_end_exact (ops : list (op W)) o :
  NoDup (ID <$> observers o) → registers_fresh ops o = true →
  (∀ ops', ops' `prefix_of` ops →
     observers (run ops' o) = fold_left registration_step ops' (observers o)) →
  removes_near_end ops o = true.
Proof.
  revert o. induction ops as [|a ops IH]; intros o Hnd; simpl; [done|].
  rewrite andb_true_iff. intros [Hfresh Hrest] Hkept.
  assert (Hstep : observers (step o a) = registration_step (observers o) a).
  { apply (Hkept [a]). by exists ops. }
  rewrite (near_end_step o a Hnd Hstep). simpl.
  apply IH; [|done|].
  - rewrite Hstep. by apply registration_step_NoDup.
  - intros ops' [rest ->]. rewrite Hstep.
    apply (Hkept (a :: ops')). by exists rest.
Qed.

(** C3. For every registered observer with filter [Event e] and every
    [Notify] with event name [event] and value [v]: the call runs, in the
    order of the slice, the callbacks of exactly the receivers, and a
    registered observer is a receiver if and only if its filter is ["*"],
    or the event name is empty, or its filter equals the event name. *)
Theorem C3_delivery_filter (event : string) (v : Value) o (w : W) :
  Notify event v o w = deliver v (receivers event o) w
  ∧ ∀ e, e ∈ observers o →
      (e ∈ receivers event o ↔
       Event e = "*" ∨ event = "" ∨ Event e = event).
Proof.
  split; [apply Notify_deliver|].
  intros e He. unfold receivers. rewrite list_elem_of_filter, notified_spec.
  tauto.
Qed.

(** C6, amended. For every sequence of Register and Unregister operations
    in which each Unregister removes the last or the second-to-last entry
    of the slice (or finds no entry), a subsequent [Notify] delivers to
    the matching observers, within the call, in registration order.  When
    no identity is registered twice at a time, these are exactly the
    sequences that leave the slice in registration order after every
    operation. *)
Theorem C6_registration_order_when_removed_near_end (ops : list (op W)) :
  (removes_near_end ops New = true →
     ∀ (event : string) (v : Value) (w : W),
       Notify event v (run ops New) w
       = deliver v
           (filter (λ e, notified event e = true) (registration_order ops)) w)
  ∧ (registers_fresh ops New = true →
       (∀ ops', ops' `prefix_of` ops →
          observers (run ops' New) = registration_order ops') →
       removes_near_end ops New = true).
Proof.
  split.
  - intros H event v w. rewrite Notify_deliver.
    unfold receivers, registration_order.
    by rewrite (run_registration_order ops New H).
  - intros Hfresh Hkept.
    apply removes_near_end_exact; [apply NoDup_nil_2|done|done].
Qed.

End ObserveFacts.

(** After registering a, b, c and unregistering a, the slice is [c; b]:
    c is notified before b although b was registered first. *)
Lemma C6_counterexample :
  ¬ (∀ (ops : list (Observe.op (list string))) (event : string)
       (v : Observe.Value) (w : list string),
       Observe.Notify event v (Observe.run ops Observe.New) w
       = Observe.deliver v
           (filter (λ e, Observe.notified event e = true)
              (Observe.registration_order ops)) w).
Proof.
  intros H. specialize (H swap_history "" ping []).
  vm_compute in H. discriminate H.
Qed.

(** Registering a, b, c, removing b (the second-to-last entry, into whose
    place c moves) and registering d: a, c and d are notified in that
    order, and the slice is in registration order after each of the five
    operations. *)
Lemma C6_witness :
  (Observe.removes_near_end near_end_history Observe.New = true
   ∧ Observe.Notify "Page.loadEventFired" ping
       (Observe.run near_end_history Observe.New) []
     = Observe.deliver ping
         (filter (λ e, Observe.notified "Page.loadEventFired" e = true)
            (Observe.registration_order near_end_history)) []
   ∧ Observe.Notify "Page.loadEventFired" ping
       (Observe.run near_end_history Observe.New) []
     = ["a"; "c"; "d"])
  ∧ (Observe.registers_fresh near_end_history Observe.New = true
     ∧ (∀ ops', ops' `prefix_of` near_end_history →
          Observe.observers (Observe.run ops' Observe.New)
          = Observe.registration_order ops')
     ∧ Observe.removes_near_end near_end_history Observe.New = true).
Proof.
  split.
  - split; [reflexivity|]. split; [|reflexivity].
    apply (proj1 (C6_registration_order_when_removed_near_end near_end_history)).
    reflexivity.
  - assert (Hkept : ∀ ops', ops' `prefix_of` near_end_history →
              Observe.observers (Observe.run ops' Observe.New)
              = Observe.registration_order ops').
    { intros ops' Hpre. unfold near_end_history in Hpre.
      repeat (destruct ops' as [|? ops']; [reflexivity|];
              pose proof (prefix_cons_inv_1 _ _ _ _ Hpre) as ->;
              apply prefix_cons_inv_2 in Hpre).
      apply prefix_nil_inv in Hpre as ->. reflexivity. }
    split; [reflexivity|]. split; [exact Hkept|].
    apply (proj2 (C6_registration_order_when_removed_near_end near_end_history));
      [reflexivity|exact Hkept].
Defined.

(** ** Registering and removing observers *)

Section ObserveMore.

Import Observe.
Context {W : Type}.

Implicit Types (o : Observable W) (e val : Observer W) (l : list (Observer W)).

(** The slice after the swap with the last entry holds what the slice
    without the removed entry holds. *)
Lemma swap_remove_Permutation l (n : nat) (x last_e : Observer W) :
  l !! n = Some x → l !! (length l - 1) = Some last_e →
  take (length l - 1) (<[n := last_e]> l) ≡ₚ take n l ++ drop (S n) l.
Proof.
  intros Hn Hlast. pose proof (lookup_lt_Some _ _ _ Hn) as Hlt.
  destruct (decide (n = length l - 1)) as [->|Hne].
  - rewrite list_insert_id by done. rewrite drop_ge by lia.
    by rewrite app_nil_r.
  - rewrite <- (take_drop_middle l n x Hn) at 2.
    rewrite <- (take_drop_middle l n x Hn) in Hlast.
    assert (Hlen : length (take n l) = n) by (rewrite length_take; lia).
    rewrite insert_app_r_alt by lia. rewrite Hlen, Nat.sub_diag. simpl.
    rewrite take_app_ge by lia. rewrite Hlen.
    apply Permutation_app_head.
    set (d := drop (S n) l) in *.
    assert (Hd : length l = n + S (length d)).
    { rewrite <- (take_drop_middle l n x Hn) at 1.
      rewrite length_app, Hlen. simpl. by subst d. }
    rewrite length_app in Hlast. simpl in Hlast. rewrite Hlen in Hlast.
    rewrite lookup_app_r in Hlast by lia. rewrite Hlen in Hlast.
    replace (n + S (length d) - 1 - n) with (S (length d - 1)) in Hlast by lia.
    simpl in Hlast.
    replace (length l - 1 - n) with (S (length d - 1)) by lia. simpl.
    destruct (decide (length d = 0)) as [Hz|Hnz]; [lia|].
    assert (Hsplit : d = take (length d - 1) d ++ [last_e]).
    { rewrite <- (take_drop (length d - 1) d) at 1. f_equal.
      apply list_eq. intros [|i].
      - rewrite lookup_drop. rewrite Nat.add_0_r. by rewrite Hlast.
      - rewrite lookup_drop. simpl. apply lookup_ge_None_2. lia. }
    transitivity (take (length d - 1) d ++ [last_e]);
      [apply Permutation_cons_append|by rewrite <- Hsplit].
Qed.

(** X1. [Unregister] of an identity that no registered observer carries
    changes nothing. *)
Theorem Unregister_absent val o :
  (∀ e, e ∈ observers o → ID e ≠ ID val) → Unregister val o = o.
Proof.
  intros H. unfold Unregister.
  by rewrite (proj2 (first_index_None _ _) H).
Qed.

(** X2. When some registered observer carries the identity, [Unregister]
    takes out exactly one entry, the first with that identity: the slice
    it leaves holds, in some order, what the slice held without that
    entry, and is one shorter. *)
Theorem Unregister_removes_first val o e :
  e ∈ observers o → ID e = ID val →
  observers (Unregister val o) ≡ₚ remove_first (ID val) (observers o)
  ∧ S (length (observers (Unregister val o))) = length (observers o).
Proof.
  intros He Hid. destruct o as [l]; simpl in *.
  destruct (first_index (ID val) l) as [n|] eqn:Hn.
  2:{ destruct (proj1 (first_index_None _ _) Hn e He). done. }
  destruct (first_index_Some _ _ _ Hn) as (x & Hx & _ & _).
  pose proof (lookup_lt_Some _ _ _ Hx) as Hlt.
  destruct (lookup_lt_is_Some_2 l (length l - 1)) as [last_e Hlast]; [lia|].
  unfold Unregister; simpl. rewrite Hn, Hlast. simpl.
  rewrite (remove_first_take_drop _ _ _ Hn). split.
  - by eapply swap_remove_Permutation.
  - rewrite length_take, length_insert. lia.
Qed.

(** X3. When the registered observers carry pairwise distinct identities,
    [Unregister] leaves exactly the observers with another identity: the
    one removed is gone and every other one is still registered. *)
Theorem Unregister_distinct val o e :
  NoDup (ID <$> observers o) →
  e ∈ observers (Unregister val o) ↔ e ∈ observers o ∧ ID e ≠ ID val.
Proof.
  intros Hnd. destruct o as [l]; simpl in *.
  destruct (first_index (ID val) l) as [n|] eqn:Hn.
  2:{ pose proof (proj1 (first_index_None _ _) Hn) as Hnone.
      unfold Unregister; simpl. rewrite Hn. split; [|by intros [? _]].
      intros He. split; [done|]. by apply Hnone. }
  destruct (first_index_Some _ _ _ Hn) as (x & Hx & Hid & _).
  assert (Hin : x ∈ l) by (by eapply list_elem_of_lookup_2).
  destruct (Unregister_removes_first val {| observers := l |} x Hin Hid)
    as [Hperm _]. simpl in Hperm.
  rewrite Hperm, (remove_first_take_drop _ _ _ Hn).
  rewrite <- (take_drop_middle l n x Hx) in Hnd.
  rewrite fmap_app, fmap_cons in Hnd.
  apply NoDup_app in Hnd as (_ & Hleft & Hright).
  apply NoDup_cons in Hright as [Hright _].
  assert (Hl : e ∈ l ↔ e ∈ take n l ∨ e = x ∨ e ∈ drop (S n) l).
  { rewrite <- (take_drop_middle l n x Hx) at 1.
    by rewrite elem_of_app, elem_of_cons. }
  rewrite Hl, elem_of_app. split.
  - intros [He|He].
    + split; [by left|]. intros Heq. apply (Hleft (ID e)).
      * apply list_elem_of_fmap. by exists e.
      * rewrite Heq, <- Hid. left.
    + split; [by right; right|]. intros Heq. apply Hright.
      rewrite Hid, <- Heq. apply list_elem_of_fmap. by exists e.
  - intros [[He|[->|He]] Hne]; [by left|done|by right].
Qed.

Lemma first_index_app_last (id : string) l val :
  first_index id l = None → ID val = id →
  first_index id (l ++ [val]) = Some (length l).
Proof.
  intros Hnone Hid. induction l as [|x l IH]; simpl in *.
  - by rewrite bool_decide_eq_true_2.
  - case_bool_decide; [done|].
    destruct (first_index id l); [done|]. by rewrite IH.
Qed.

(** X4. Registering an observer whose identity is not yet registered and
    unregistering it again gives back the registry as it was. *)
Theorem Unregister_Register val o :
  (∀ e, e ∈ observers o → ID e ≠ ID val) →
  Unregister val (Register val o) = o.
Proof.
  intros H. destruct o as [l]. unfold Unregister, Register; simpl in *.
  rewrite (first_index_app_last _ _ _ (proj2 (first_index_None _ _) H) eq_refl).
  rewrite length_app. simpl.
  replace (length l + 1 - 1) with (length l) by lia.
  rewrite lookup_app_r by lia. rewrite Nat.sub_diag. simpl.
  rewrite insert_app_r_alt by lia. rewrite Nat.sub_diag. simpl.
  by rewrite take_app_length.
Qed.

(** X5. A newly registered observer is notified after all the observers
    registered before it, and the others are notified as without it;
    registering the same observer again makes it be called once more. *)
Theorem Notify_Register (event : string) (v : Value) val o (w : W) :
  Notify event v (Register val o) w
  = let w' := Notify event v o w in
    if notified event val then Notify_cb val v w' else w'.
Proof. unfold Notify, Register. simpl. by rewrite fold_left_app. Qed.

End ObserveMore.

Lemma Unregister_removes_first_witness :
  logging_observer "b" "*" ∈ Observe.observers (Observe.run swap_history Observe.New)
  ∧ S (length (Observe.observers
         (Observe.Unregister (logging_observer "b" "")
            (Observe.run swap_history Observe.New))))
    = length (Observe.observers (Observe.run swap_history Observe.New)).
Proof.
  assert (Hin : logging_observer "b" "*"
                ∈ Observe.observers (Observe.run swap_history Observe.New))
    by (right; left).
  split; [exact Hin|].
  apply (Unregister_removes_first (logging_observer "b" "")
           (Observe.run swap_history Observe.New) _ Hin eq_refl).
Defined.

Lemma Unregister_absent_witness :
  Observe.Unregister (logging_observer "z" "*")
    (Observe.run swap_history Observe.New)
  = Observe.run swap_history Observe.New.
Proof.
  apply (Unregister_absent (logging_observer "z" "*")
           (Observe.run swap_history Observe.New)).
  intros e He. vm_compute in He.
  repeat (apply elem_of_cons in He as [->|He]; [discriminate|]).
  by apply elem_of_nil in He.
Defined.

Lemma Unregister_distinct_witness :
  NoDup (Observe.ID <$> Observe.observers (Observe.run swap_history Observe.New))
  ∧ (logging_observer "c" "*"
     ∈ Observe.observers
         (Observe.Unregister (logging_observer "b" "*")
            (Observe.run swap_history Observe.New))).
Proof.
  assert (Hnd : NoDup (Observe.ID <$> Observe.observers
                         (Observe.run swap_history Observe.New))).
  { vm_compute. repeat constructor.
    - intros H. repeat (apply elem_of_cons in H as [H|H]; [discriminate|]).
      by apply elem_of_nil in H.
    - intros H. by apply elem_of_nil in H. }
  split; [exact Hnd|].
  apply (Unregister_distinct (logging_observer "b" "*")
           (Observe.run swap_history Observe.New) _ Hnd).
  split; [left|discriminate].
Defined.

Lemma Unregister_Register_witness :
  Observe.Unregister (logging_observer "z" "*")
    (Observe.Register (logging_observer "z" "*")
       (Observe.run swap_history Observe.New))
  = Observe.run swap_history Observe.New.
Proof.
  apply (Unregister_Register (logging_observer "z" "*")
           (Observe.run swap_history Observe.New)).
  intros e He. vm_compute in He.
  repeat (apply elem_of_cons in He as [->|He]; [discriminate|]).
  by apply elem_of_nil in He.
Defined.

(** * Facts about browser.go *)

Section ControlFacts.

Import Control.
Context (client : Client) (Blank bindClick : string).

Implicit Types (t : list call) (url : string) (id : TargetID).

Lemma issued_app {A} (m : B A) t (l : list call) :
  (m t).2 = t ++ l → issued m t = l.
Proof. unfold issued. intros ->. by rewrite drop_app_length. Qed.

Lemma runSession_calls id (sid : SessionID) t :
  ∃ l, (runSession client bindClick id sid t).2 = t ++ l ∧ created_urls l = [].
Proof.
  unfold runSession, bind, send, ret; simpl.
  repeat match goal with
  | |- context [reply client ?tr ?c] =>
      destruct (reply client tr c); simpl
  end;
  rewrite <- ?app_assoc; simpl; eexists; (split; [reflexivity|reflexivity]).
Qed.

Lemma AttachPageTarget_calls id t :
  ∃ l, (AttachPageTarget client bindClick id t).2
       = t ++ TargetAttachToTarget id true :: l
     ∧ created_urls l = [].
Proof.
  unfold AttachPageTarget, bind, send, ret; simpl.
  destruct (reply client t (TargetAttachToTarget id true)); simpl.
  - by exists [].
  - destruct (runSession_calls id (attached client t id)
                (t ++ [TargetAttachToTarget id true])) as (l & -> & Hl).
    exists l. by rewrite <- app_assoc.
Qed.

(** C5. For every target identifier, [CloseTarget] issues the close call
    once and returns success both when that call succeeds and when it
    fails with the detached-from-target error; every other error of the
    close call is returned unchanged. *)
Theorem C5_CloseTarget_swallows_detached id t :
  let err := reply client t (TargetCloseTarget id) in
  (CloseTarget client id t).2 = t ++ [TargetCloseTarget id]
  ∧ (err = None → (CloseTarget client id t).1 = None)
  ∧ (err = Some ErrDetachedFromTarget → (CloseTarget client id t).1 = None)
  ∧ (∀ e, err = Some e → e ≠ ErrDetachedFromTarget →
       (CloseTarget client id t).1 = Some e).
Proof.
  unfold CloseTarget, bind, send, ret; simpl.
  destruct (reply client t (TargetCloseTarget id)) as [e|]; simpl.
  - split; [by case_bool_decide|]. split; [done|]. split.
    + intros [= ->]. by rewrite bool_decide_eq_true_2.
    + intros e' [= <-] Hne. by rewrite bool_decide_eq_false_2.
  - repeat split; done.
Qed.

(** C8. For every call [CreatePageTarget url], with the blank-page
    constant non-empty: exactly one create-target call is issued; for the
    empty [url] it carries the blank-page URL and not the empty string,
    for any other [url] it carries [url] unchanged; when that call
    succeeds the method goes on as [AttachPageTarget] of the new target,
    whose first call attaches to it (flattened); when it fails its error
    is returned and nothing else is issued. *)
Theorem C8_CreatePageTarget_url url t :
  Blank ≠ "" →
  let sent := if bool_decide (url = "") then Blank else url in
  let new := created client t sent in
  let after := t ++ [TargetCreateTarget sent] in
  created_urls (issued (CreatePageTarget client Blank bindClick url) t) = [sent]
  ∧ sent ≠ ""
  ∧ (url ≠ "" → sent = url)
  ∧ (reply client t (TargetCreateTarget sent) = None →
       CreatePageTarget client Blank bindClick url t
       = AttachPageTarget client bindClick new after
       ∧ ∃ l, (CreatePageTarget client Blank bindClick url t).2
              = after ++ TargetAttachToTarget new true :: l)
  ∧ (∀ e, reply client t (TargetCreateTarget sent) = Some e →
       CreatePageTarget client Blank bindClick url t = (None, Some e, after)).
Proof.
  intros HBlank sent new after.
  assert (Hsent : sent ≠ "").
  { subst sent. by case_bool_decide. }
  assert (Hcalls : ∃ l, (CreatePageTarget client Blank bindClick url t).2
                        = t ++ TargetCreateTarget sent :: l
                      ∧ created_urls l = []).
  { unfold CreatePageTarget, bind, send, ret; simpl. fold sent.
    destruct (reply client t (TargetCreateTarget sent)); simpl.
    - by exists [].
    - destruct (AttachPageTarget_calls (created client t sent)
                  (t ++ [TargetCreateTarget sent])) as (l & -> & Hl).
      eexists. rewrite <- app_assoc. simpl. split; [reflexivity|].
      simpl. exact Hl. }
  split; [|split; [done|split; [|split]]].
  - destruct Hcalls as (l & Hl & Hnone).
    rewrite (issued_app _ _ _ Hl).
    change (created_urls (TargetCreateTarget sent :: l))
      with (sent :: created_urls l).
    by rewrite Hnone.
  - intros Hurl. subst sent. by rewrite bool_decide_eq_false_2.
  - intros Hok. split.
    + unfold CreatePageTarget, bind, send, ret; simpl. fold sent.
      by rewrite Hok.
    + unfold CreatePageTarget, bind, send, ret; simpl. fold sent.
      rewrite Hok.
      destruct (AttachPageTarget_calls (created client t sent)
                  (t ++ [TargetCreateTarget sent])) as (l & Hl & _).
      by exists l.
  - intros e He.
    unfold CreatePageTarget, bind, send, ret; simpl. fold sent.
    by rewrite He.
Qed.

End ControlFacts.

Lemma C5_witness :
  Control.reply racing_client [] (Control.TargetCloseTarget "target-1")
  = Some ErrDetachedFromTarget
  ∧ (Control.CloseTarget racing_client "target-1" []).1 = None.
Proof.
  split; [reflexivity|].
  apply (C5_CloseTarget_swallows_detached racing_client "target-1" []).
  reflexivity.
Defined.

Lemma C8_witness :
  "about:blank" ≠ ""
  ∧ Control.created_urls
      (Control.issued (Control.CreatePageTarget racing_client "about:blank" "click" "") [])
    = ["about:blank"].
Proof.
  split; [discriminate|].
  apply (C8_CreatePageTarget_url racing_client "about:blank" "click" "" []).
  discriminate.
Defined.

(** ** Starting a session *)

Section ControlMore.

Import Control.
Context (client : Client) (Blank bindClick : string).

Implicit Types (t : list call) (url : string) (id : TargetID) (sid : SessionID).

(** [runSession] walks down its list of calls and stops at the first
    enabling call that fails. *)
Lemma runSession_steps id sid t :
  ∃ n, 3 ≤ n ≤ 8
     ∧ (runSession client bindClick id sid t).2
       = t ++ take n (enabling bindClick id sid)
     ∧ all_succeeded client t (take (n - 1) (enabling bindClick id sid))
     ∧ ((n = 8
         ∧ reply client (t ++ take 7 (enabling bindClick id sid))
             (NetworkEnable sid 2048) = None
         ∧ (runSession client bindClick id sid t).1
           = (Some {| guid := 0; Control.id := sid; tid := id |}, None))
        ∨ (∃ c e, enabling bindClick id sid !! (n - 1) = Some c
             ∧ answered c = true
             ∧ reply client (t ++ take (n - 1) (enabling bindClick id sid)) c
               = Some e
             ∧ (runSession client bindClick id sid t).1 = (None, Some e))).
Proof.
  unfold runSession, bind, send, ret, all_succeeded; simpl.
  destruct (reply client _ (PageEnable sid)) as [e|] eqn:H1; simpl;
    [exists 3|
  destruct (reply client _ (RuntimeEnable sid)) as [e|] eqn:H2; simpl;
    [exists 4|
  destruct (reply client _ (RuntimeAddBinding sid bindClick)) as [e|] eqn:H3;
    simpl; [exists 5|
  destruct (reply client _ (PageSetLifecycleEventsEnabled sid true))
    as [e|] eqn:H4; simpl; [exists 6|
  destruct (reply client _ (TargetSetDiscoverTargets sid true))
    as [e|] eqn:H5; simpl; [exists 7|
  destruct (reply client _ (NetworkEnable sid (2 * 1024)))
    as [e|] eqn:H6; simpl; exists 8]]]]];
  rewrite <- ?app_assoc in *; simpl in *;
  (split; [lia|]); (split; [done|]);
  (split;
   [intros i c Hi Hc;
    do 8 (try (destruct i as [|i]; simpl in Hi; simplify_eq; try done));
    by rewrite ?app_nil_r|]);
  first [by left | right; eexists _, e; done].
Qed.

(** X6. [runSession] starts the dispatch task and registers the session
    with the client before it enables anything, then issues the enabling
    calls in their fixed order and stops at the first one that fails:
    every call before the last one it issued succeeded.  It returns a
    session exactly when it returns no error; it then has issued the whole
    list, ending with the network domain enabled with a post body limit of
    2048 bytes, and every call succeeded.  An error it returns is the
    reply to the last call it issued. *)
Theorem runSession_enabling id sid t :
  let r := (runSession client bindClick id sid t).1 in
  let sent := issued (runSession client bindClick id sid) t in
  sent `prefix_of` enabling bindClick id sid
  ∧ [GoLifecycle sid; ClientRegister sid id; PageEnable sid] `prefix_of` sent
  ∧ (r.2 = None ↔ is_Some r.1)
  ∧ (r.2 = None →
       r.1 = Some {| guid := 0; Control.id := sid; tid := id |}
       ∧ sent = enabling bindClick id sid
       ∧ all_succeeded client t sent)
  ∧ (∀ e, r.2 = Some e →
       ∃ before c,
         sent = before ++ [c]
         ∧ all_succeeded client t before
         ∧ answered c = true
         ∧ reply client (t ++ before) c = Some e).
Proof.
  intros r sent.
  destruct (runSession_steps id sid t) as (n & Hn & Htrace & Hbefore & Hres).
  assert (Hsent : sent = take n (enabling bindClick id sid))
    by (by apply issued_app).
  rewrite Hsent. subst r. split; [apply prefix_take|]. split.
  { exists (drop 3 (take n (enabling bindClick id sid))).
    rewrite <- (take_drop 3 (take n _)) at 1. f_equal.
    rewrite take_take. by replace (3 `min` n) with 3 by lia. }
  destruct Hres as [(-> & Hlast & ->)|(c & e & Hc & Hans & Hreply & ->)]; simpl.
  - split; [by split; [eexists|]|]. split; [|by intros e [=]].
    intros _. split; [done|]. split; [done|].
    intros i c Hi Hc. destruct (decide (i = 7)) as [->|Hne].
    + simpl in Hi. by simplify_eq.
    + pose proof (lookup_lt_Some _ _ _ Hi) as Hlt. simpl in Hlt.
      specialize (Hbefore i c).
      rewrite lookup_take_lt in Hbefore by lia.
      rewrite take_take in Hbefore.
      replace (i `min` (8 - 1)) with i in Hbefore by lia.
      by apply Hbefore.
  - split; [split; [done|by intros [? [=]]]|]. split; [done|].
    intros e' [= <-]. exists (take (n - 1) (enabling bindClick id sid)), c.
    split; [|done].
    replace n with (S (n - 1)) at 1 by lia. by apply take_S_r.
Qed.

Lemma runSession_starts id sid t :
  starts client (runSession client bindClick id sid) t
    {| guid := 0; Control.id := sid; tid := id |}
    (enabling bindClick id sid).
Proof.
  destruct (runSession_enabling id sid t) as (Hpre & _ & H1 & H2 & H3).
  unfold starts. split; [exact H1|]. split; [exact H2|].
  intros e He. destruct (H3 e He) as (before & c & Hsent & Hrest).
  exists before, c. split; [done|]. split; [exact Hpre|done].
Qed.

Lemma all_succeeded_cons (c : call) t (l : list call) :
  (answered c = true → reply client t c = None) →
  all_succeeded client (t ++ [c]) l →
  all_succeeded client t (c :: l).
Proof.
  intros Hc Hl [|i] c' Hi Hans; simpl in *.
  - simplify_eq. rewrite app_nil_r. by apply Hc.
  - replace (t ++ c :: take i l) with ((t ++ [c]) ++ take i l)
      by (by rewrite <- app_assoc).
    by apply Hl.
Qed.

(** One more call in front: when it fails the method returns its error,
    otherwise the method goes on as [m']. *)
Lemma starts_after (m m' : B (option Session * option error)) (c : call) t
    (session : Session) (calls : list call) :
  answered c = true →
  m t = (if reply client t c is Some e then (None, Some e, t ++ [c])
         else m' (t ++ [c])) →
  (∃ l, (m' (t ++ [c])).2 = (t ++ [c]) ++ l) →
  starts client m' (t ++ [c]) session calls →
  starts client m t session (c :: calls).
Proof.
  intros Hans Hm [l Hl] (H1 & H2 & H3). unfold starts, issued in *.
  rewrite Hm. destruct (reply client t c) as [e|] eqn:Hc; simpl.
  - rewrite drop_app_length. split; [split; [done|by intros [? [=]]]|].
    split; [done|]. intros e' [= <-]. exists [], c.
    split; [done|]. split; [by apply prefix_cons, prefix_nil|].
    split; [by intros [|?] ? ?|]. split; [done|]. by rewrite app_nil_r.
  - rewrite Hl in *. rewrite <- app_assoc. rewrite !drop_app_length in *.
    simpl. split; [done|]. split.
    + intros Hnone. destruct (H2 Hnone) as (-> & -> & Hall).
      split; [done|]. split; [done|]. by apply all_succeeded_cons.
    + intros e He.
      destruct (H3 e He) as (before & c' & -> & Hpre & Hall & Hans' & Hreply).
      exists (c :: before), c'. split; [done|].
      split; [by apply prefix_cons|].
      split; [by apply all_succeeded_cons|]. split; [done|].
      by rewrite <- Hreply, <- app_assoc.
Qed.

Lemma AttachPageTarget_starts id t :
  let sid := attached client t id in
  starts client (AttachPageTarget client bindClick id) t
    {| guid := 0; Control.id := sid; tid := id |}
    (TargetAttachToTarget id true :: enabling bindClick id sid).
Proof.
  intros sid.
  apply (starts_after _ (runSession client bindClick id sid)); [done|..].
  - unfold AttachPageTarget, bind, send, ret. simpl.
    by destruct (reply client t (TargetAttachToTarget id true)).
  - destruct (runSession_steps id sid (t ++ [TargetAttachToTarget id true]))
      as (n & _ & Htrace & _). eauto.
  - apply runSession_starts.
Qed.

(** X7. [CreatePageTarget] returns a session exactly when it returns no
    error.  It has then issued, in this order, the create call, the
    flattened attach to the target the browser created, and the whole
    enabling sequence of [runSession] for the session the browser
    assigned, every one of which succeeded; the session it returns carries
    these two identifiers.  An error it returns is the reply to the last
    call it issued; the calls issued are then this sequence up to that
    call, and every call before it succeeded: nothing is sent after a
    failure. *)
Theorem CreatePageTarget_starts url t :
  let sent := if bool_decide (url = "") then Blank else url in
  let new := created client t sent in
  let sid := attached client (t ++ [TargetCreateTarget sent]) new in
  let calls :=
    TargetCreateTarget sent
      :: TargetAttachToTarget new true :: enabling bindClick new sid in
  let m := CreatePageTarget client Blank bindClick url in
  ((m t).1.2 = None ↔ is_Some (m t).1.1)
  ∧ ((m t).1.2 = None →
       (m t).1.1 = Some {| guid := 0; Control.id := sid; tid := new |}
       ∧ issued m t = calls
       ∧ all_succeeded client t calls)
  ∧ (∀ e, (m t).1.2 = Some e →
       ∃ before c,
         issued m t = before ++ [c]
         ∧ before ++ [c] `prefix_of` calls
         ∧ all_succeeded client t before
         ∧ answered c = true
         ∧ reply client (t ++ before) c = Some e).
Proof.
  intros sent new sid calls m.
  assert (H : starts client m t
                {| guid := 0; Control.id := sid; tid := new |} calls).
  { apply (starts_after _ (AttachPageTarget client bindClick new)); [done|..].
    - unfold m, CreatePageTarget, bind, send, ret. simpl. fold sent new.
      by destruct (reply client t (TargetCreateTarget sent)).
    - destruct (AttachPageTarget_calls client bindClick new
                  (t ++ [TargetCreateTarget sent])) as (l & Hl & _). eauto.
    - apply AttachPageTarget_starts. }
  destruct H as (H1 & H2 & H3). split; [exact H1|]. split.
  - intros Hnone. destruct (H2 Hnone) as (Hs & Hsent & Hall).
    split; [done|]. split; [done|]. by rewrite <- Hsent.
  - intros e He. destruct (H3 e He) as (before & c & Hsent & Hpre & Hrest).
    exists before, c. split; [done|]. split; [|done]. by rewrite <- Hsent.
Qed.

End ControlMore.

(** * Facts about the element file *)

(** ** Running the monad *)

Section WitnessRun.

Import Witness.
Local Open Scope go_scope.

Lemma bind_normal {A C} (m : M A) (k : A → M C) s a s' :
  m s = Normal a s' → bind m k s = k a s'.
Proof. unfold bind. by intros ->. Qed.

Lemma bind_panicked {A C} (m : M A) (k : A → M C) s p s' :
  m s = Panicked p s' → bind m k s = Panicked p s'.
Proof. unfold bind. by intros ->. Qed.

Lemma load_normal p s e : heap s !! p = Some e → load p s = Normal e s.
Proof. unfold load. by intros ->. Qed.

(** ** Raising flags keeps the tree *)

Implicit Types (h : list element) (p q c : ptr) (e : element).

Lemma flags_raised_refl h : flags_raised h h.
Proof. apply Forall2_same_length_lookup. split; [done|]. intros; simplify_eq; auto. Qed.

Lemma set_detached_twice e : set_detached (set_detached e 1) 1 = set_detached e 1.
Proof. done. Qed.

Lemma flags_raised_trans h1 h2 h3 :
  flags_raised h1 h2 → flags_raised h2 h3 → flags_raised h1 h3.
Proof.
  unfold flags_raised. intros H12 H23.
  eapply Forall2_trans; [|exact H12|exact H23].
  simpl. intros e1 e2 e3 [->| ->] [->| ->]; auto.
Qed.

Lemma flags_raised_length h h' : flags_raised h h' → length h' = length h.
Proof. intros H. symmetry. by eapply Forall2_length. Qed.

Lemma flags_raised_lookup h h' q e :
  flags_raised h h' → h !! q = Some e →
  ∃ e', h' !! q = Some e' ∧ (e' = e ∨ e' = set_detached e 1).
Proof.
  intros H Hq. destruct (Forall2_lookup_l _ _ _ _ _ H Hq) as (e' & ? & ?).
  eauto.
Qed.

Lemma flags_raised_lookup_r h h' q e' :
  flags_raised h h' → h' !! q = Some e' →
  ∃ e, h !! q = Some e ∧ (e' = e ∨ e' = set_detached e 1).
Proof.
  intros H Hq. destruct (Forall2_lookup_r _ _ _ _ _ H Hq) as (e & ? & ?).
  eauto.
Qed.

Lemma flags_raised_insert h p e :
  h !! p = Some e → flags_raised h (<[p := set_detached e 1]> h).
Proof.
  intros Hp. apply Forall2_same_length_lookup. split.
  - by rewrite length_insert.
  - intros i x y Hx Hy. destruct (decide (i = p)) as [->|Hne].
    + rewrite list_lookup_insert_eq in Hy by (by eapply lookup_lt_Some).
      right. congruence.
    + rewrite list_lookup_insert_ne in Hy by done. left. congruence.
Qed.

Lemma flags_raised_children_after h h' :
  flags_raised h h' → children_after h → children_after h'.
Proof.
  intros H Hwf p e' c Hp Hc.
  destruct (flags_raised_lookup_r _ _ _ _ H Hp) as (e & He & Hee).
  rewrite (flags_raised_length _ _ H).
  apply (Hwf p e c He). by destruct Hee as [->| ->].
Qed.

Lemma flags_raised_descendant h h' p q :
  flags_raised h h' → descendant h p q → descendant h' p q.
Proof.
  intros H. induction 1 as [p|p e c q Hp Hc _ IH]; [constructor|].
  destruct (flags_raised_lookup _ _ _ _ H Hp) as (e' & He' & Hee).
  eapply descendant_child; [exact He'| |exact IH].
  by destruct Hee as [->| ->].
Qed.

Lemma flags_raised_flagged h h' q :
  flags_raised h h' → flagged h q → flagged h' q.
Proof.
  intros H (e & Hq & Hd).
  destruct (flags_raised_lookup _ _ _ _ H Hq) as (e' & He' & Hee).
  exists e'. split; [done|]. by destruct Hee as [->| ->].
Qed.

Lemma flags_raised_descendant_inv h h' p q :
  flags_raised h h' → descendant h' p q → descendant h p q.
Proof.
  intros H. induction 1 as [p|p e' c q Hp Hc _ IH]; [constructor|].
  destruct (flags_raised_lookup_r _ _ _ _ H Hp) as (e & He & Hee).
  eapply descendant_child; [exact He| |exact IH].
  by destruct Hee as [->| ->].
Qed.

(** ** [detach] reaches the whole subtree *)

Lemma for_each_detaches (f : ptr → M unit) (n : nat) (cs : list ptr) :
  (∀ c s, c ∈ cs → children_after (heap s) → length (heap s) = n →
          detaches (f c) c s) →
  ∀ s, children_after (heap s) → length (heap s) = n →
  ∃ s', for_each f cs s = Normal tt s'
      ∧ trace s' = trace s
      ∧ flags_raised (heap s) (heap s')
      ∧ (∀ c q, c ∈ cs → descendant (heap s) c q → flagged (heap s') q)
      ∧ (∀ q, (∀ c, c ∈ cs → ¬ descendant (heap s) c q) →
              heap s' !! q = heap s !! q).
Proof.
  induction cs as [|c cs IH]; intros Hf s Hwf Hn; simpl.
  - exists s. split; [done|]. split; [done|]. split; [apply flags_raised_refl|].
    split; [|done]. intros c q Hc. by apply not_elem_of_nil in Hc.
  - destruct (Hf c s) as (s1 & Hrun & Htr1 & Hfl1 & Hdesc1 & Hrest1);
      [left|done|done|].
    assert (Hwf1 : children_after (heap s1))
      by (by eapply flags_raised_children_after).
    assert (Hn1 : length (heap s1) = n)
      by (by rewrite (flags_raised_length _ _ Hfl1)).
    destruct (IH (λ c' s' Hc', Hf c' s' (list_elem_of_further _ _ _ Hc'))
                s1 Hwf1 Hn1)
      as (s2 & Hrun2 & Htr2 & Hfl2 & Hdesc2 & Hrest2).
    exists s2. split; [by rewrite (bind_normal _ _ _ _ _ Hrun)|].
    split; [congruence|].
    split; [by eapply flags_raised_trans|]. split.
    + intros c' q Hc' Hq. apply elem_of_cons in Hc' as [->|Hc'].
      * eapply flags_raised_flagged; [exact Hfl2|]. by apply Hdesc1.
      * apply (Hdesc2 c' q Hc'). by eapply flags_raised_descendant.
    + intros q Hq. rewrite Hrest2, Hrest1; [done| |].
      * apply Hq. left.
      * intros c' Hc' Hd. apply (Hq c'); [by right|].
        by eapply flags_raised_descendant_inv.
Qed.

Section Detach.

Context (env : Env).

Lemma detach_rec_detaches (fuel : nat) p s :
  children_after (heap s) → p < length (heap s) →
  length (heap s) - p ≤ fuel →
  detaches (detach_rec fuel p) p s.
Proof.
  revert p s. induction fuel as [|fuel IH]; intros p s Hwf Hp Hfuel; [lia|].
  destruct (lookup_lt_is_Some_2 _ _ Hp) as [e He].
  set (s1 := {| heap := <[p := set_detached e 1]> (heap s); trace := trace s |}).
  assert (Hfl1 : flags_raised (heap s) (heap s1))
    by (by apply flags_raised_insert).
  assert (He1 : heap s1 !! p = Some (set_detached e 1)).
  { simpl. by rewrite list_lookup_insert_eq. }
  destruct (for_each_detaches (detach_rec fuel) (length (heap s)) (childs e))
    with (s := s1) as (s2 & Hrun & Htr & Hfl2 & Hdesc & Hrest).
  - intros c s' Hc Hwf' Hn. apply IH; [done| |].
    + rewrite Hn. by apply (Hwf p e c).
    + rewrite Hn. pose proof (Hwf p e c He Hc). lia.
  - by eapply flags_raised_children_after.
  - by rewrite (flags_raised_length _ _ Hfl1).
  - exists s2. split; [|split; [done|split; [by eapply flags_raised_trans|split]]].
    + simpl. rewrite (bind_normal _ _ _ _ _ (load_normal _ _ _ He)).
      unfold bind at 1. unfold store at 1. fold s1.
      by rewrite (bind_normal _ _ _ _ _ (load_normal _ _ _ He1)).
    + intros q Hq. inversion Hq as [|? e' c ? Hp' Hc Hcq]; subst.
      * eapply flags_raised_flagged; [exact Hfl2|]. by eexists.
      * apply (Hdesc c q).
        -- congruence.
        -- by eapply flags_raised_descendant.
    + intros q Hq. rewrite Hrest.
      * simpl. rewrite list_lookup_insert_ne; [done|].
        intros ->. apply Hq. constructor.
      * intros c Hc Hd. apply Hq.
        eapply descendant_child; [exact He|exact Hc|].
        by eapply flags_raised_descendant_inv.
Qed.

Lemma detach_detaches p s :
  children_after (heap s) → p < length (heap s) → detaches (detach p) p s.
Proof.
  intros Hwf Hp. unfold detach.
  destruct (detach_rec_detaches (length (heap s)) p s Hwf Hp) as (s' & H);
    [lia|].
  by exists s'.
Qed.

End Detach.

End WitnessRun.

Section Fuel.

Import Witness.
Local Open Scope go_scope.

Implicit Types (p : ptr) (s : State).

Lemma for_each_more_fuel (f g : ptr → M unit) (cs : list ptr) s :
  (∀ c s', f c s' ≠ OutOfFuel → g c s' = f c s') →
  for_each f cs s ≠ OutOfFuel → for_each g cs s = for_each f cs s.
Proof.
  intros Hfg. revert s. induction cs as [|c cs IH]; intros s; simpl; [done|].
  unfold bind. intros Hrun.
  rewrite Hfg by (intros Hout; by rewrite Hout in Hrun).
  destruct (f c s) as [[] s1|x s1|]; [|done|done].
  by apply IH.
Qed.

(** A run of [detach] that did not run out of fuel is the same with more
    fuel: the result does not depend on the fuel it was given. *)
Lemma detach_rec_more_fuel (fuel : nat) p s :
  detach_rec fuel p s ≠ OutOfFuel →
  detach_rec (S fuel) p s = detach_rec fuel p s.
Proof.
  revert p s. induction fuel as [|fuel IH]; intros p s; [done|].
  change (detach_rec (S (S fuel)) p s)
    with ((let* v := load p in
           store p (set_detached v 1) ;;;
           let* v := load p in
           for_each (detach_rec (S fuel)) (childs v)) s).
  change (detach_rec (S fuel) p s)
    with ((let* v := load p in
           store p (set_detached v 1) ;;;
           let* v := load p in
           for_each (detach_rec fuel) (childs v)) s).
  unfold bind, load, store.
  destruct (heap s !! p) as [e|]; [|done]. simpl.
  destruct (<[p:=set_detached e 1]> (heap s) !! p) as [e'|]; [|done].
  intros Hrun. apply for_each_more_fuel; [|done].
  intros c s' Hc. by apply IH.
Qed.

End Fuel.

Section TreeFacts.

Import Witness.
Context (env : Env).

Implicit Types (h : list element) (p q c : ptr) (e : element) (s : State).

(** [newElement] keeps children behind their parents. *)
Lemma newElement_children_after (par : option ptr) (id descr : string) s :
  children_after (heap s) →
  (∀ q, par = Some q → q < length (heap s)) →
  ∃ s', newElement par id descr s = Normal (length (heap s)) s'
      ∧ trace s' = trace s
      ∧ children_after (heap s')
      ∧ length (heap s') = S (length (heap s)).
Proof.
  intros Hwf Hpar. unfold newElement, bind, alloc, load, store, ret; simpl.
  set (new := {| ID := id; description := descr; parent := par;
                 childs := []; detached := 0 |}).
  assert (Hwf1 : children_after (heap s ++ [new])).
  { intros p e c Hp Hc. rewrite length_app; simpl.
    apply lookup_app_Some in Hp as [Hp|[_ Hp]].
    - pose proof (Hwf p e c Hp Hc). lia.
    - apply list_lookup_singleton_Some in Hp as [_ <-].
      simpl in Hc. by apply elem_of_nil in Hc. }
  destruct par as [q|]; simpl.
  - specialize (Hpar q eq_refl).
    destruct (lookup_lt_is_Some_2 _ _ Hpar) as [pe Hpe].
    rewrite lookup_app_l, Hpe by done. simpl.
    eexists. split; [reflexivity|]. simpl. split; [done|]. split.
    + intros p e c Hp Hc. rewrite length_insert, length_app; simpl.
      destruct (decide (p = q)) as [->|Hne].
      * rewrite list_lookup_insert_eq in Hp
          by (rewrite length_app; simpl; lia).
        simplify_eq. simpl in Hc. apply elem_of_app in Hc as [Hc|Hc].
        -- pose proof (Hwf q pe c Hpe Hc). lia.
        -- apply list_elem_of_singleton in Hc as ->. lia.
      * rewrite list_lookup_insert_ne in Hp by done.
        pose proof (Hwf1 p e c Hp Hc) as H. rewrite length_app in H.
        simpl in H. lia.
    + rewrite length_insert, length_app. simpl. lia.
  - eexists. split; [reflexivity|]. simpl. split; [done|]. split; [done|].
    rewrite length_app. simpl. lia.
Qed.

(** C10. For every handle of a tree built by [newElement], [Release]
    issues the remote release and returns exactly the error of that call,
    whatever it is; in the state it leaves behind the handle and every
    descendant carry the detached flag, no element changed except for
    that flag, and the elements outside the subtree are untouched. *)
Theorem C10_Release_detaches_subtree p e s :
  children_after (heap s) → heap s !! p = Some e →
  ∃ s', Release env p s
        = Normal (reply_err env (trace s) (EvReleaseObject (ID e))) s'
      ∧ trace s' = trace s ++ [EvReleaseObject (ID e)]
      ∧ flags_raised (heap s) (heap s')
      ∧ (∀ q, descendant (heap s) p q → flagged (heap s') q)
      ∧ (∀ q, ¬ descendant (heap s) p q → heap s' !! q = heap s !! q).
Proof.
  intros Hwf He.
  set (s1 := {| heap := heap s;
                trace := trace s ++ [EvReleaseObject (ID e)] |}).
  destruct (detach_detaches p s1) as (s' & Hrun & Htr & Hfl & Hdesc & Hrest).
  - done.
  - simpl. by eapply lookup_lt_Some.
  - exists s'. split; [|done].
    unfold Release. rewrite (bind_normal _ _ _ _ _ (load_normal _ _ _ He)).
    unfold releaseObject, request, bind, ret at 1; simpl. fold s1.
    by rewrite Hrun.
Qed.

End TreeFacts.

Lemma page_heap_children_after (flag : Z) :
  Witness.children_after (page_heap flag).
Proof.
  intros p e c Hp Hc.
  destruct p as [|[|[|p]]]; simpl in Hp; simplify_eq; simpl in Hc;
    repeat (apply elem_of_cons in Hc as [->|Hc]);
    try (by apply elem_of_nil in Hc); simpl; lia.
Qed.

Lemma C10_witness :
  Witness.children_after (Witness.heap (page 0))
  ∧ ∃ s', Witness.Release closed_env 1 (page 0)
          = Witness.Normal (Some ErrSessionClosed) s'
        ∧ Witness.flagged (Witness.heap s') 1
        ∧ Witness.flagged (Witness.heap s') 2
        ∧ Witness.heap s' !! 0 = Witness.heap (page 0) !! 0.
Proof.
  split; [apply page_heap_children_after|].
  destruct (C10_Release_detaches_subtree closed_env 1 _ (page 0)
              (page_heap_children_after 0) eq_refl)
    as (s' & Hrun & _ & _ & Hdesc & Hrest).
  exists s'. split; [exact Hrun|]. split; [|split].
  - apply Hdesc. constructor.
  - apply Hdesc. eapply Witness.descendant_child; [reflexivity| |constructor].
    left.
  - apply Hrest. intros Hd. inversion Hd as [|? e c ? He Hc Hcq]; subst.
    simpl in He. injection He as <-. simpl in Hc.
    apply elem_of_cons in Hc as [->|Hc]; [|by apply elem_of_nil in Hc].
    inversion Hcq as [|? e2 c2 ? He2 Hc2 _]; subst.
    simpl in He2. injection He2 as <-. by apply elem_of_nil in Hc2.
Defined.

(** ** Re-validation of a handle before a remote call *)

Section RenewFacts.

Import Witness.
Context (env : Env).

Implicit Types (h : list element) (p q : ptr) (e : element) (s : State).

Lemma renew_attached p e s :
  heap s !! p = Some e → detached e ≠ 1%Z → renew env p s = Normal None s.
Proof.
  intros He Hd. unfold renew, isDetached, bind, load, ret. rewrite He.
  simpl. by rewrite bool_decide_eq_false_2.
Qed.

Lemma renew_detached_child p e q s :
  heap s !! p = Some e → detached e = 1%Z → parent e = Some q →
  renew env p s = Normal None (after_request s todo_log).
Proof.
  intros He Hd Hpar.
  unfold renew, isDetached, Logging_Printf, emit, bind, load, ret.
  rewrite He. simpl. rewrite bool_decide_eq_true_2 by done. simpl.
  rewrite He, Hpar. done.
Qed.

Lemma renew_detached_root_failed p e s (err : error) :
  heap s !! p = Some e → detached e = 1%Z → parent e = None →
  reply_err env (trace s) (document_request env s) = Some err →
  renew env p s
  = Normal (Some ErrStaleElementReference) (after_request s (document_request env s)).
Proof.
  intros He Hd Hpar Herr.
  unfold renew, isDetached, session_getContextID, evaluate, request, bind,
    load, ret.
  rewrite He. simpl. rewrite bool_decide_eq_true_2 by done. simpl.
  rewrite He, Hpar. unfold document_request in Herr. by rewrite Herr.
Qed.

Lemma renew_detached_root_healed p e s (new : RemoteObject) :
  heap s !! p = Some e → detached e = 1%Z → parent e = None →
  reply_err env (trace s) (document_request env s) = None →
  reply_object env (trace s) (document_request env s) = Some new →
  renew env p s = Normal None (healed env s p e new).
Proof.
  intros He Hd Hpar Herr Hobj.
  pose proof (lookup_lt_Some _ _ _ He) as Hlt.
  unfold renew, isDetached, session_getContextID, evaluate, request, deref,
    store, bind, load, ret.
  rewrite He. simpl. rewrite bool_decide_eq_true_2 by done. simpl.
  rewrite He, Hpar. unfold document_request in Herr, Hobj.
  rewrite Herr, Hobj. simpl. rewrite He. simpl.
  rewrite list_lookup_insert_eq by done. simpl.
  rewrite list_insert_insert_eq. done.
Qed.


Lemma call_attached p e s (fn : fndecl) (args : list arg) :
  heap s !! p = Some e → detached e ≠ 1%Z →
  call env p fn args s = callFunctionOn env (ID e) fn args s.
Proof.
  intros He Hd. unfold call.
  rewrite (bind_normal _ _ _ _ _ (renew_attached _ _ _ He Hd)).
  by rewrite (bind_normal _ _ _ _ _ (load_normal _ _ _ He)).
Qed.

(** C1, as the code has it. For a handle that is marked detached and has
    a parent, the re-validation writes a fatal-level log line and reports
    no error: the handle is left as it is (no auto-heal), and the remote
    function call goes out on the stale object identifier; the result is
    whatever the session answers, not the stale-reference error. *)
Theorem C1_detached_child_call_proceeds p e q s (fn : fndecl) (args : list arg) :
  heap s !! p = Some e → detached e = 1%Z → parent e = Some q →
  renew env p s = Normal None (after_request s todo_log)
  ∧ call env p fn args s
    = callFunctionOn env (ID e) fn args (after_request s todo_log).
Proof.
  intros He Hd Hpar. split; [by eapply renew_detached_child|].
  unfold call.
  rewrite (bind_normal _ _ _ _ _ (renew_detached_child _ _ _ _ He Hd Hpar)).
  by rewrite (bind_normal _ _ _ _ _ (load_normal _ (after_request s todo_log) _ He)).
Qed.

End RenewFacts.

Section RootFacts.

Import Witness.
Context (env : Env).

Implicit Types (p : ptr) (e : element) (s : State).




End RootFacts.

Lemma C1_witness :
  Witness.heap (page 1) !! 2
  = Some {| Witness.ID := "button-1"; Witness.description := "button";
            Witness.parent := Some 1; Witness.childs := [];
            Witness.detached := 1 |}
  ∧ Witness.call navigated_env 2 (Witness.FnAtom Witness.ScrollIntoView) [] (page 1)
    = Witness.callFunctionOn navigated_env "button-1"
        (Witness.FnAtom Witness.ScrollIntoView) []
        (Witness.after_request (page 1) Witness.todo_log).
Proof.
  split; [reflexivity|].
  apply (C1_detached_child_call_proceeds navigated_env 2 _ 1 (page 1)
           (Witness.FnAtom Witness.ScrollIntoView) []
           eq_refl eq_refl eq_refl).
Defined.



(** ** Waiting for an element, and results that are nil *)

Section ExpectFacts.

Import Witness.
Context (env : Env).

Implicit Types (p : ptr) (s : State).

Lemma Ticker_deadline {A} (call : M (option A * option error)) (n : nat) s s' :
  fails_for call n s s' →
  Ticker n call s = Normal (None, Some ErrDeadlineExceeded) s'.
Proof.
  induction 1 as [s|n s r err s1 s2 Hcall _ IH]; simpl; [done|].
  by rewrite (bind_normal _ _ _ _ _ Hcall).
Qed.

Lemma Ticker_success {A} (call : M (option A * option error)) (k n : nat)
    s s1 s2 (r : option A) :
  fails_for call k s s1 → call s1 = Normal (r, None) s2 → k < n →
  Ticker n call s = Normal (r, None) s2.
Proof.
  intros Hfail. revert n.
  induction Hfail as [s|k s r' err s1 s1' Hcall _ IH]; intros n Hok Hlt.
  - destruct n as [|n]; [lia|]. simpl.
    by rewrite (bind_normal _ _ _ _ _ Hok).
  - destruct n as [|n]; [lia|]. simpl.
    rewrite (bind_normal _ _ _ _ _ Hcall). apply IH; [done|lia].
Qed.

(** What the retry loop returns with a result was the result of an
    attempt that came after fewer failed ones than fit the deadline. *)
Lemma Ticker_returned {A} (call : M (option A * option error)) (n : nat)
    s s2 (r : option A) :
  Ticker n call s = Normal (r, None) s2 →
  ∃ (k : nat) s1, k < n ∧ fails_for call k s s1 ∧ call s1 = Normal (r, None) s2.
Proof.
  revert s. induction n as [|n IH]; intros s; simpl; [done|].
  unfold bind. destruct (call s) as [[r' [err|]] s1| |] eqn:Hcall; try done.
  - intros H. destruct (IH _ H) as (k & s1' & Hk & Hfail & Hok).
    exists (S k), s1'. split; [lia|]. split; [|done].
    by eapply fails_for_S.
  - intros [= <- <-]. exists 0, s. split; [lia|]. split; [constructor|done].
Qed.

(** The function literal of [Expect] fails exactly as [attempt_fails]
    says and succeeds exactly as [attempt_succeeds] says. *)
Lemma Expect_attempt_fails p (selector : string) (visible : bool) s s' :
  attempt_fails env p selector visible s s' →
  ∃ err, Expect_attempt env p selector visible s = Normal (None, Some err) s'.
Proof.
  unfold Expect_attempt.
  intros [s0 r err s0' Hseek|s0 new s1 b err s0' -> Hseek Hvis
         |s0 new s1 s0' -> Hseek Hvis];
    rewrite (bind_normal _ _ _ _ _ Hseek); simpl.
  - by exists err.
  - unfold bind at 1. simpl. rewrite (bind_normal _ _ _ _ _ Hvis). by exists err.
  - unfold bind at 1. simpl. rewrite (bind_normal _ _ _ _ _ Hvis).
    by exists ErrElementInvisible.
Qed.

Lemma Expect_attempt_succeeds p (selector : string) (visible : bool)
    (new : ptr) s s' :
  attempt_succeeds env p selector visible new s s' →
  Expect_attempt env p selector visible s = Normal (Some new, None) s'.
Proof.
  unfold Expect_attempt. intros (s1 & Hseek & Hvis).
  rewrite (bind_normal _ _ _ _ _ Hseek); simpl.
  destruct visible; [|by subst].
  unfold bind at 1. simpl. by rewrite (bind_normal _ _ _ _ _ Hvis).
Qed.

Lemma Expect_attempt_failed p (selector : string) (visible : bool)
    s s' r err :
  Expect_attempt env p selector visible s = Normal (r, Some err) s' →
  attempt_fails env p selector visible s s'.
Proof.
  unfold Expect_attempt, bind.
  destruct (Seek env p selector s) as [[new [e|]] s1| |] eqn:Hseek; try done.
  - intros [= <- <- <-]. by eapply seek_fails.
  - destruct visible; [|done].
    destruct new as [new|]; simpl; [|done].
    destruct (IsVisible env new s1) as [[b [e|]] s2| |] eqn:Hvis; try done.
    + intros [= <- <- <-]. by eapply check_fails.
    + destruct b; simpl; [done|].
      intros [= <- <- <-]. by eapply not_visible.
Qed.

Lemma Expect_attempt_succeeded p (selector : string) (visible : bool)
    s s' (new : ptr) :
  Expect_attempt env p selector visible s = Normal (Some new, None) s' →
  attempt_succeeds env p selector visible new s s'.
Proof.
  unfold Expect_attempt, attempt_succeeds, bind.
  destruct (Seek env p selector s) as [[el [e|]] s1| |] eqn:Hseek; try done.
  destruct visible.
  - destruct el as [el|]; simpl; [|done].
    destruct (IsVisible env el s1) as [[b [e|]] s2| |] eqn:Hvis; try done.
    destruct b; simpl; [|done].
    intros [= <- <-]. by exists s1.
  - intros [= <- <-]. by exists s1.
Qed.

Lemma retried_fails_for p (selector : string) (visible : bool) (n : nat) s s' :
  retried env p selector visible n s s' ↔
  fails_for (Expect_attempt env p selector visible) n s s'.
Proof.
  split.
  - induction 1 as [s|n s s1 s2 Hfail _ IH]; [constructor|].
    destruct (Expect_attempt_fails _ _ _ _ _ Hfail) as [err Herr].
    by eapply fails_for_S.
  - induction 1 as [s|n s r err s1 s2 Hcall _ IH]; [constructor|].
    eapply retried_S; [|done]. by eapply Expect_attempt_failed.
Qed.

(** C7. An attempt of [Expect] is a [Seek] and, if asked for, the
    visibility check of the element found.  When none of the attempts the
    retry loop makes before its deadline succeeds, [Expect] does not
    return: it panics with the error of the expired deadline.  When an
    attempt succeeds, after any number of failed ones that still fits the
    deadline, [Expect] returns the element that attempt resolved; and
    [Expect] returns in no other case, and no other element. *)
Theorem C7_Expect_panics_on_deadline p (selector : string) (visible : bool) s :
  (∀ s', retried env p selector visible (Ticker_attempts env) s s' →
     Expect env p selector visible s
     = Panicked (PanicError ErrDeadlineExceeded) s')
  ∧ (∀ (k : nat) s1 s2 (new : ptr),
       k < Ticker_attempts env →
       retried env p selector visible k s s1 →
       attempt_succeeds env p selector visible new s1 s2 →
       Expect env p selector visible s = Normal new s2)
  ∧ (∀ (new : ptr) s2,
       Expect env p selector visible s = Normal new s2 →
       ∃ (k : nat) s1,
         k < Ticker_attempts env
         ∧ retried env p selector visible k s s1
         ∧ attempt_succeeds env p selector visible new s1 s2).
Proof.
  split; [|split].
  - intros s' Hfail%retried_fails_for. unfold Expect.
    by rewrite (bind_normal _ _ _ _ _ (Ticker_deadline _ _ _ _ Hfail)).
  - intros k s1 s2 new Hk Hfail%retried_fails_for Hok%Expect_attempt_succeeds.
    unfold Expect.
    by rewrite (bind_normal _ _ _ _ _
                  (Ticker_success _ _ _ _ _ _ _ Hfail Hok Hk)).
  - intros new s2. unfold Expect, bind.
    destruct (Ticker _ _ s) as [[el [err|]] s'| |] eqn:Hloop; try done.
    destruct el as [el|]; [|done]. intros [= <- <-].
    destruct (Ticker_returned _ _ _ _ _ Hloop) as (k & s1 & Hk & Hfail & Hok).
    exists k, s1. split; [done|]. split; [by apply retried_fails_for|].
    by apply Expect_attempt_succeeded.
Qed.

End ExpectFacts.

(** With the session closed every [Seek] fails and the third attempt is
    the last; after a navigation the first [Seek] resolves an element that
    is found visible. *)
Lemma C7_witness :
  (Witness.retried closed_env 0 "form" true 3 (page 0) given_up
   ∧ Witness.Expect closed_env 0 "form" true (page 0)
     = Witness.Panicked (Witness.PanicError ErrDeadlineExceeded) given_up)
  ∧ (Witness.attempt_succeeds navigated_env 0 "form" true 3 (page 0) form_visible
     ∧ Witness.Expect navigated_env 0 "form" true (page 0)
       = Witness.Normal 3 form_visible)
  ∧ (∃ (k : nat) s1,
       k < 3
       ∧ Witness.retried navigated_env 0 "form" true k (page 0) s1
       ∧ Witness.attempt_succeeds navigated_env 0 "form" true 3 s1 form_visible).
Proof.
  split; [|split].
  - assert (H : Witness.retried closed_env 0 "form" true 3 (page 0) given_up).
    { eapply Witness.retried_S;
        [eapply Witness.seek_fails; vm_compute; reflexivity|].
      eapply Witness.retried_S;
        [eapply Witness.seek_fails; vm_compute; reflexivity|].
      eapply Witness.retried_S;
        [eapply Witness.seek_fails; vm_compute; reflexivity|].
      apply Witness.retried_O. }
    split; [exact H|].
    apply (proj1 (C7_Expect_panics_on_deadline closed_env 0 "form" true (page 0))).
    exact H.
  - assert (H : Witness.attempt_succeeds navigated_env 0 "form" true 3
                  (page 0) form_visible).
    { eexists. split; [vm_compute; reflexivity|]. vm_compute. reflexivity. }
    split; [exact H|].
    apply (proj1 (proj2 (C7_Expect_panics_on_deadline navigated_env 0 "form"
                           true (page 0)))) with (k := 0) (s1 := page 0).
    + vm_compute. lia.
    + apply Witness.retried_O.
    + exact H.
  - apply (proj2 (proj2 (C7_Expect_panics_on_deadline navigated_env 0 "form"
                           true (page 0))) 3 form_visible).
    vm_compute. reflexivity.
Defined.

(** C9, as the code has it. [findElements] tests the query-all result
    against nil and, when it is nil, reads its object identifier to release
    it; [IsChecked] and [Select] call [Bool] on the result of a call whose
    error they have not looked at, and [call] returns a nil result with
    every error.  Each ends in a nil dereference instead of an error. *)
Theorem C9_nil_results_are_dereferenced :
  (∃ s', Witness.SeekAll silent_env 0 "option" (page 0)
         = Witness.Panicked Witness.NilDereference s')
  ∧ (∃ s', Witness.IsChecked unresolvable_env 0 (page 1)
           = Witness.Panicked Witness.NilDereference s')
  ∧ (∃ s', Witness.Select unresolvable_env 0 ["red"] (page 1)
           = Witness.Panicked Witness.NilDereference s')
  ∧ Witness.call unresolvable_env 0 (Witness.FnAtom Witness.IsChecked_) [] (page 1)
    = Witness.Normal (None, Some ErrStaleElementReference)
        (Witness.after_request (page 1)
           (Witness.document_request unresolvable_env (page 1))).
Proof.
  repeat split; try (eexists; vm_compute; reflexivity).
Qed.

(** ** The click races stay inside [Click] *)

Section SimFacts.

Import Witness.
Local Open Scope go_scope.
Context (env : Env).

Implicit Types (p : ptr) (s : State).

Lemma sim_ret {A} (f : A → A) (a a' : A) : a' = f a → sim f (ret a') (ret a).
Proof. by intros -> s. Qed.

Lemma sim_throw {A} (f : A → A) (x : panic) :
  demote_panic x = x → sim f (throw x) (throw x).
Proof. intros Hx s. unfold throw. simpl. by rewrite Hx. Qed.

Lemma sim_bind {A C} (f : A → A) (g : C → C) (m' m : M A) (k' k : A → M C) :
  sim f m' m → (∀ a, sim g (k' (f a)) (k a)) → sim g (bind m' k') (bind m k).
Proof.
  intros Hm Hk s. unfold bind. rewrite Hm.
  destruct (m s); simpl; [apply Hk|done|done].
Qed.

Lemma sim_load p : sim id (load p) (load p).
Proof. intros s. unfold load. by destruct (heap s !! p). Qed.

Lemma sim_store p (e : element) : sim id (store p e) (store p e).
Proof. by intros s. Qed.

Lemma sim_alloc (e : element) : sim id (alloc e) (alloc e).
Proof. by intros s. Qed.

Lemma sim_emit (ev : event) : sim id (emit ev) (emit ev).
Proof. by intros s. Qed.

Lemma sim_deref {A} (r : option A) : sim id (deref r) (deref r).
Proof. destruct r; [by apply sim_ret|by apply sim_throw]. Qed.

Lemma sim_request {A} (answer : Env → list event → event → A) (ev : event) :
  (∀ t, answer (demote_env env) t ev = answer env t ev) →
  sim on_err (request (demote_env env) answer ev) (request env answer ev).
Proof. intros H s. unfold request. simpl. by rewrite H. Qed.

End SimFacts.

Section SimMethods.

Import Witness.
Local Open Scope go_scope.
Context (env : Env).

Implicit Types (p : ptr) (s : State).

Create HintDb sim discriminated.

#[local] Hint Resolve sim_load sim_store sim_alloc sim_emit sim_deref : sim.
#[local] Hint Extern 1 (sim _ (request _ _ _) (request _ _ _)) =>
  apply sim_request; reflexivity : sim.

Ltac sim_case :=
  repeat match goal with
  | x : (_ * _)%type |- _ => destruct x
  | x : unit |- _ => destruct x
  end;
  cbn [id on_err fst snd fmap option_fmap option_map];
  repeat match goal with
  | x : option error |- _ => destruct x; cbn [fmap option_fmap option_map]
  end.

Ltac sim_step :=
  lazymatch goal with
  | |- sim _ (ret _) (ret _) => apply sim_ret; reflexivity
  | |- sim _ (throw _) (throw _) => apply sim_throw; reflexivity
  | |- sim _ (bind _ _) (bind _ _) =>
      first
        [ eapply sim_bind; [solve [eauto with sim]|intros ?; sim_case]
        | eapply (sim_bind id); [solve [sim_auto]|intros ?; sim_case] ]
  | |- sim _ (if ?b then _ else _) (if ?b then _ else _) => destruct b
  | |- sim _ (match ?x with _ => _ end) (match ?x with _ => _ end) =>
      destruct x
  | |- sim _ _ _ => solve [eauto with sim]
  end
with sim_auto := repeat sim_step.

Lemma sim_Logging_Printf (level : LogLevel) (format : string) :
  sim id (Logging_Printf level format) (Logging_Printf level format).
Proof. apply sim_emit. Qed.

Lemma sim_isDetached p : sim id (isDetached p) (isDetached p).
Proof. unfold isDetached. sim_auto. Qed.

#[local] Hint Resolve sim_Logging_Printf sim_isDetached : sim.

Lemma sim_getContextID :
  sim id (session_getContextID (demote_env env)) (session_getContextID env).
Proof. by intros s. Qed.
#[local] Hint Resolve sim_getContextID : sim.

Lemma sim_evaluate (expression : string) (ctx : Z) (async : bool) :
  sim on_err (evaluate (demote_env env) expression ctx async)
    (evaluate env expression ctx async).
Proof. unfold evaluate. by apply sim_request. Qed.
#[local] Hint Resolve sim_evaluate : sim.

Ltac sim_method := intros; sim_auto.

Lemma sim_renew p : sim (fmap demote) (renew (demote_env env) p) (renew env p).
Proof. unfold renew. sim_method. Qed.
#[local] Hint Resolve sim_renew : sim.

Lemma sim_callFunctionOn (id : string) (fn : fndecl) (args : list arg) :
  sim on_err (callFunctionOn (demote_env env) id fn args)
    (callFunctionOn env id fn args).
Proof. unfold callFunctionOn. by apply sim_request. Qed.
#[local] Hint Resolve sim_callFunctionOn : sim.

Lemma sim_releaseObject (id : string) :
  sim (fmap demote) (releaseObject (demote_env env) id) (releaseObject env id).
Proof. unfold releaseObject. sim_method. Qed.

Lemma sim_getProperties (id : string) :
  sim on_err (getProperties (demote_env env) id) (getProperties env id).
Proof. unfold getProperties. by apply sim_request. Qed.

Lemma sim_getContentQuads (n : Z) (id : string) (b : bool) :
  sim on_err (getContentQuads (demote_env env) n id b)
    (getContentQuads env n id b).
Proof. unfold getContentQuads. by apply sim_request. Qed.

Lemma sim_blockingSend (method : string) (params : list (string * arg)) :
  sim on_err (blockingSend (demote_env env) method params)
    (blockingSend env method params).
Proof. unfold blockingSend. by apply sim_request. Qed.

Lemma sim_dispatchMouseEvent (x y : float64) (t : MouseEventType)
    (button : string) :
  sim (fmap demote) (dispatchMouseEvent (demote_env env) x y t button)
    (dispatchMouseEvent env x y t button).
Proof. unfold dispatchMouseEvent. sim_method. Qed.

Lemma sim_MouseMove (x y : float64) :
  sim (fmap demote) (MouseMove (demote_env env) x y) (MouseMove env x y).
Proof. unfold MouseMove. sim_method. Qed.

Lemma sim_insertText (text : string) :
  sim (fmap demote) (insertText (demote_env env) text) (insertText env text).
Proof. unfold insertText. sim_method. Qed.

Lemma sim_SendKeys (key : list Z) :
  sim (fmap demote) (SendKeys (demote_env env) key) (SendKeys env key).
Proof. unfold SendKeys. sim_method. Qed.

Lemma sim_createIsolatedWorld (frameID : string) :
  sim (fmap demote) (createIsolatedWorld (demote_env env) frameID)
    (createIsolatedWorld env frameID).
Proof. unfold createIsolatedWorld. sim_method. Qed.

Lemma sim_time_Sleep (ms : Z) : sim id (time_Sleep ms) (time_Sleep ms).
Proof. apply sim_emit. Qed.

Lemma sim_Bool (r : option RemoteObject) :
  sim id (Bool (demote_env env) r) (Bool env r).
Proof. unfold Bool. sim_method. Qed.

#[local] Hint Resolve sim_releaseObject sim_getProperties sim_getContentQuads
  sim_blockingSend sim_dispatchMouseEvent sim_MouseMove sim_insertText
  sim_SendKeys sim_createIsolatedWorld sim_time_Sleep sim_Bool : sim.

Lemma sim_newElement (par : option ptr) (oid descr : string) :
  sim id (newElement par oid descr) (newElement par oid descr).
Proof. unfold newElement. sim_method. Qed.
#[local] Hint Resolve sim_newElement : sim.

Lemma sim_for_each {A} (body : A → M unit) (l : list A) :
  (∀ a, sim id (body a) (body a)) → sim id (for_each body l) (for_each body l).
Proof.
  intros Hbody. induction l as [|a l IH]; simpl; [by apply sim_ret|].
  eapply sim_bind; [apply Hbody|]. intros _. exact IH.
Qed.

Lemma sim_detach_rec (fuel : nat) p :
  sim id (detach_rec fuel p) (detach_rec fuel p).
Proof.
  revert p. induction fuel as [|fuel IH]; intros p; simpl; [by intros s|].
  sim_auto. by apply sim_for_each.
Qed.

Lemma sim_detach p : sim id (detach p) (detach p).
Proof. intros s. unfold detach. apply sim_detach_rec. Qed.
#[local] Hint Resolve sim_detach : sim.

Lemma sim_call p (fn : fndecl) (args : list arg) :
  sim on_err (call (demote_env env) p fn args) (call env p fn args).
Proof. unfold call. sim_method. Qed.
#[local] Hint Resolve sim_call : sim.

Lemma sim_Release p :
  sim (fmap demote) (Release (demote_env env) p) (Release env p).
Proof. unfold Release. sim_method. Qed.

Lemma sim_findElement p (selector : string) :
  sim on_err (findElement (demote_env env) p selector)
    (findElement env p selector).
Proof. unfold findElement. sim_method. Qed.

Lemma sim_Seek p (selector : string) :
  sim on_err (Seek (demote_env env) p selector) (Seek env p selector).
Proof. apply sim_findElement. Qed.

Lemma sim_findElements_loop p (descriptor : list PropertyDescriptor)
    (els : list ptr) :
  sim id (findElements_loop p descriptor els) (findElements_loop p descriptor els).
Proof.
  revert els. induction descriptor as [|d rest IH]; intros els; simpl.
  - by apply sim_ret.
  - sim_auto; apply IH.
Qed.
#[local] Hint Resolve sim_Release sim_findElement sim_Seek
  sim_findElements_loop : sim.

Lemma sim_findElements p (selector : string) :
  sim on_err (findElements (demote_env env) p selector)
    (findElements env p selector).
Proof. unfold findElements. sim_method. Qed.
#[local] Hint Resolve sim_findElements : sim.

Lemma sim_SeekAll p (selector : string) :
  sim id (SeekAll (demote_env env) p selector) (SeekAll env p selector).
Proof. unfold SeekAll. sim_method. Qed.

Lemma sim_getNode p : sim on_err (getNode (demote_env env) p) (getNode env p).
Proof.
  unfold getNode. sim_auto.
  cbn [Unmarshal_DescribeNode demote_env].
  destruct (Unmarshal_DescribeNode env m) as [node [err|]]; cbn; sim_auto.
Qed.

Lemma sim_Focus p : sim (fmap demote) (Focus (demote_env env) p) (Focus env p).
Proof. unfold Focus. sim_method. Qed.

Lemma sim_Call p (fn : string) (args : list arg) :
  sim on_err (Call (demote_env env) p fn args) (Call env p fn args).
Proof. unfold Call. sim_method. Qed.

Lemma sim_Upload p (files : list string) :
  sim (fmap demote) (Upload (demote_env env) p files) (Upload env p files).
Proof. unfold Upload. sim_method. Qed.

Lemma sim_clickablePoint p :
  sim on_err (clickablePoint (demote_env env) p) (clickablePoint env p).
Proof.
  unfold clickablePoint. sim_auto.
  cbn [Quad_Middle demote_env]. destruct (Quad_Middle env q). sim_auto.
Qed.
#[local] Hint Resolve sim_SeekAll sim_getNode sim_Focus sim_Call sim_Upload
  sim_clickablePoint : sim.

Lemma err_is_demote (err : option error) (sentinel : error) :
  demote sentinel = sentinel →
  sentinel ≠ ErrOther "Cannot find context with specified id" →
  sentinel ≠ ErrOther "session closed" →
  err_is (demote <$> err) sentinel = err_is err sentinel.
Proof.
  intros Hfix H1 H2. destruct err as [e|]; [|done]. simpl.
  destruct e; simpl; try done.
  - rewrite !bool_decide_eq_false_2; [done| |by intros <-].
    intros <-. discriminate Hfix.
  - rewrite !bool_decide_eq_false_2; [done| |by intros <-].
    intros <-. discriminate Hfix.
Qed.

Lemma sim_SwitchToFrame p :
  sim (fmap demote) (SwitchToFrame (demote_env env) p) (SwitchToFrame env p).
Proof. unfold SwitchToFrame. sim_method. Qed.

Lemma sim_IsVisible p :
  sim on_err (IsVisible (demote_env env) p) (IsVisible env p).
Proof.
  unfold IsVisible. sim_auto.
  change (Some (demote e)) with (demote <$> Some e).
  rewrite err_is_demote by done. sim_auto.
Qed.

Lemma sim_Hover p : sim (fmap demote) (Hover (demote_env env) p) (Hover env p).
Proof. unfold Hover. sim_method. Qed.

Lemma sim_Clear p : sim (fmap demote) (Clear (demote_env env) p) (Clear env p).
Proof. unfold Clear. sim_method. Qed.
#[local] Hint Resolve sim_SwitchToFrame sim_IsVisible sim_Hover sim_Clear : sim.

Lemma sim_Type p (text : string) (key : option (list Z)) :
  sim (fmap demote) (Type' (demote_env env) p text key) (Type' env p text key).
Proof. unfold Type'. sim_method. Qed.

Lemma sim_string p (fn : fndecl) (args : list arg) :
  sim on_err (string_ (demote_env env) p fn args) (string_ env p fn args).
Proof. unfold string_. sim_method. Qed.
#[local] Hint Resolve sim_Type sim_string : sim.

Lemma sim_GetText p : sim on_err (GetText (demote_env env) p) (GetText env p).
Proof. unfold GetText. sim_method. Qed.

Lemma sim_SetAttr p (attr value : string) :
  sim (fmap demote) (SetAttr (demote_env env) p attr value)
    (SetAttr env p attr value).
Proof. unfold SetAttr. sim_method. Qed.

Lemma sim_GetAttr p (attr : string) :
  sim on_err (GetAttr (demote_env env) p attr) (GetAttr env p attr).
Proof. unfold GetAttr. sim_method. Qed.

Lemma sim_index (q : Quad) (i : nat) : sim id (index q i) (index q i).
Proof. unfold index. sim_method. Qed.
#[local] Hint Resolve sim_index : sim.

Lemma sim_GetRectangle p :
  sim on_err (GetRectangle (demote_env env) p) (GetRectangle env p).
Proof. unfold GetRectangle. sim_method. Qed.

Lemma sim_GetComputedStyle p (style : string) :
  sim on_err (GetComputedStyle (demote_env env) p style)
    (GetComputedStyle env p style).
Proof. unfold GetComputedStyle. sim_method. Qed.

Lemma sim_GetSelected_loop (descriptor : list PropertyDescriptor)
    (options : list string) :
  sim id (GetSelected_loop descriptor options)
    (GetSelected_loop descriptor options).
Proof.
  revert options. induction descriptor as [|d rest IH]; intros options; simpl.
  - by apply sim_ret.
  - sim_auto; apply IH.
Qed.
#[local] Hint Resolve sim_GetSelected_loop : sim.

Lemma sim_GetSelected p (selectedText : bool) :
  sim on_err (GetSelected (demote_env env) p selectedText)
    (GetSelected env p selectedText).
Proof. unfold GetSelected. sim_method. Qed.

Lemma sim_Select p (values : list string) :
  sim (fmap demote) (Select (demote_env env) p values) (Select env p values).
Proof. unfold Select. sim_method. Qed.

Lemma sim_Checkbox p (check : bool) :
  sim (fmap demote) (Checkbox (demote_env env) p check) (Checkbox env p check).
Proof. unfold Checkbox. sim_method. Qed.

Lemma sim_IsChecked p :
  sim on_err (IsChecked (demote_env env) p) (IsChecked env p).
Proof. unfold IsChecked. sim_method. Qed.

Lemma sim_GetEventListeners p :
  sim on_err (GetEventListeners (demote_env env) p) (GetEventListeners env p).
Proof.
  unfold GetEventListeners. sim_auto.
  cbn [Unmarshal_EventListeners demote_env].
  destruct (Unmarshal_EventListeners env m) as [l [err|]]; cbn; sim_auto.
Qed.

Lemma sim_Expect_attempt p (selector : string) (visible : bool) :
  sim on_err (Expect_attempt (demote_env env) p selector visible)
    (Expect_attempt env p selector visible).
Proof. unfold Expect_attempt. sim_method. Qed.

Lemma sim_Ticker {A} (n : nat) (call' call : M (option A * option error)) :
  sim on_err call' call → sim on_err (Ticker n call') (Ticker n call).
Proof.
  intros Hcall. induction n as [|n IH]; simpl; [by apply sim_ret|].
  eapply sim_bind; [exact Hcall|]. intros [r [err|]]; simpl; [exact IH|].
  by apply sim_ret.
Qed.

Lemma sim_Expect p (selector : string) (visible : bool) :
  sim id (Expect (demote_env env) p selector visible)
    (Expect env p selector visible).
Proof.
  unfold Expect. cbn [Ticker_attempts demote_env].
  eapply sim_bind; [apply sim_Ticker, sim_Expect_attempt|].
  intros [el [err|]]; simpl.
  - by intros s.
  - destruct el; [by apply sim_ret|by apply sim_throw].
Qed.

#[local] Hint Resolve sim_GetText sim_SetAttr sim_GetAttr sim_GetRectangle
  sim_GetComputedStyle sim_GetSelected sim_Select sim_Checkbox sim_IsChecked
  sim_GetEventListeners sim_Expect : sim.


End SimMethods.

Section ClickFacts.

Import Witness.
Local Open Scope go_scope.
Context (env : Env).

Implicit Types (p : ptr) (s : State).



End ClickFacts.



(** ** Invariants of the element tree *)

Section TreeInvariants.

Import Witness.
Local Open Scope go_scope.

Implicit Types (h : list element) (p q c : ptr) (e : element) (s : State).

Lemma evolved_refl h : evolved h h.
Proof.
  split; [done|]. intros q e He. exists e. repeat split; try done.
Qed.

Lemma evolved_trans h1 h2 h3 : evolved h1 h2 → evolved h2 h3 → evolved h1 h3.
Proof.
  intros [Hlen1 H1] [Hlen2 H2]. split; [lia|]. intros q e He.
  destruct (H1 q e He) as (e2 & He2 & Hp2 & Hd2 & Hc2 & Hn2).
  destruct (H2 q e2 He2) as (e3 & He3 & Hp3 & Hd3 & Hc3 & Hn3).
  exists e3. split; [done|]. split; [congruence|]. split; [congruence|].
  split; [by etrans|]. intros Hpar.
  destruct (Hn2 Hpar) as [Hid2 Hfl2].
  destruct Hn3 as [Hid3 Hfl3]; [by rewrite Hp2|].
  split; [congruence|]. auto.
Qed.

(** Overwriting an element by one with the same links keeps the shape. *)
Lemma children_after_insert h p e e' :
  h !! p = Some e → childs e' = childs e →
  children_after h → children_after (<[p := e']> h).
Proof.
  intros He Hc Hwf q x c Hq Hin. rewrite length_insert.
  destruct (decide (q = p)) as [->|Hne].
  - rewrite list_lookup_insert_eq in Hq by (by eapply lookup_lt_Some).
    simplify_eq. rewrite Hc in Hin. by apply (Hwf p e c).
  - rewrite list_lookup_insert_ne in Hq by done. by apply (Hwf q x c).
Qed.

Lemma lookup_insert_same_links h p e e' q x :
  h !! p = Some e → parent e' = parent e → childs e' = childs e →
  <[p := e']> h !! q = Some x →
  ∃ y, h !! q = Some y ∧ parent x = parent y ∧ childs x = childs y.
Proof.
  intros He Hp Hc Hq. destruct (decide (q = p)) as [->|Hne].
  - rewrite list_lookup_insert_eq in Hq by (by eapply lookup_lt_Some).
    simplify_eq. by exists e.
  - rewrite list_lookup_insert_ne in Hq by done. by exists x.
Qed.

Lemma lookup_insert_same_links_2 h p e e' q y :
  h !! p = Some e → parent e' = parent e → childs e' = childs e →
  h !! q = Some y →
  ∃ x, <[p := e']> h !! q = Some x ∧ parent x = parent y ∧ childs x = childs y.
Proof.
  intros He Hp Hc Hq. destruct (decide (q = p)) as [->|Hne].
  - rewrite list_lookup_insert_eq by (by eapply lookup_lt_Some).
    exists e'. by simplify_eq.
  - rewrite list_lookup_insert_ne by done. by exists y.
Qed.

Lemma linked_insert h p e e' :
  h !! p = Some e → parent e' = parent e → childs e' = childs e →
  linked h → linked (<[p := e']> h).
Proof.
  intros He Hp Hc [Hdown Hup]. split.
  - intros q x c Hq Hin.
    destruct (lookup_insert_same_links _ _ _ _ _ _ He Hp Hc Hq)
      as (y & Hy & _ & Hcy).
    rewrite Hcy in Hin. destruct (Hdown q y c Hy Hin) as (z & Hz & Hpz).
    destruct (lookup_insert_same_links_2 _ _ _ _ _ _ He Hp Hc Hz)
      as (z' & Hz' & Hpz' & _).
    exists z'. split; [done|congruence].
  - intros c x q Hx Hpar.
    destruct (lookup_insert_same_links _ _ _ _ _ _ He Hp Hc Hx)
      as (y & Hy & Hpy & _).
    rewrite Hpy in Hpar. destruct (Hup c y q Hy Hpar) as (z & Hz & Hin).
    destruct (lookup_insert_same_links_2 _ _ _ _ _ _ He Hp Hc Hz)
      as (z' & Hz' & _ & Hcz').
    exists z'. split; [done|]. by rewrite Hcz'.
Qed.

Lemma evolved_insert h p e e' :
  h !! p = Some e →
  parent e' = parent e → description e' = description e →
  childs e `prefix_of` childs e' →
  (is_Some (parent e) →
     ID e' = ID e ∧ (detached e = 1%Z → detached e' = 1%Z)) →
  evolved h (<[p := e']> h).
Proof.
  intros He Hp Hd Hc Hn. split; [by rewrite length_insert|].
  intros q x Hx. destruct (decide (q = p)) as [->|Hne].
  - rewrite list_lookup_insert_eq by (by eapply lookup_lt_Some).
    exists e'. by simplify_eq.
  - rewrite list_lookup_insert_ne by done. exists x.
    repeat split; try done.
Qed.

Lemma flags_raised_evolved h h' : flags_raised h h' → evolved h h'.
Proof.
  intros H. split; [by rewrite (flags_raised_length _ _ H)|].
  intros q e He.
  destruct (flags_raised_lookup _ _ _ _ H He) as (e' & He' & [->| ->]);
    eexists; (split; [exact He'|]); repeat split; done.
Qed.

Lemma flags_raised_linked h h' : flags_raised h h' → linked h → linked h'.
Proof.
  intros H [Hdown Hup]. split.
  - intros q x c Hq Hin.
    destruct (flags_raised_lookup_r _ _ _ _ H Hq) as (y & Hy & Hxy).
    assert (Hin' : c ∈ childs y) by (by destruct Hxy as [->| ->]).
    destruct (Hdown q y c Hy Hin') as (z & Hz & Hpz).
    destruct (flags_raised_lookup _ _ _ _ H Hz) as (z' & Hz' & Hzz).
    exists z'. split; [done|]. by destruct Hzz as [->| ->].
  - intros c x q Hx Hpar.
    destruct (flags_raised_lookup_r _ _ _ _ H Hx) as (y & Hy & Hxy).
    assert (Hpar' : parent y = Some q) by (by destruct Hxy as [->| ->]).
    destruct (Hup c y q Hy Hpar') as (z & Hz & Hin).
    destruct (flags_raised_lookup _ _ _ _ H Hz) as (z' & Hz' & Hzz).
    exists z'. split; [done|]. by destruct Hzz as [->| ->].
Qed.

Lemma grown_from_flags_raised h0 h h' :
  flags_raised h h' → grown_from h0 h → grown_from h0 h'.
Proof.
  intros H (Hwf & Hl & He). split; [by eapply flags_raised_children_after|].
  split; [by eapply flags_raised_linked|].
  eapply evolved_trans; [exact He|by apply flags_raised_evolved].
Qed.

(** The heap [newElement] leaves: the new element at the end of the arena
    and, in the child list of its parent, its pointer at the end. *)
Lemma newElement_heap q pe (oid descr : string) s :
  heap s !! q = Some pe →
  let n := length (heap s) in
  let new := {| ID := oid; description := descr; parent := Some q;
                childs := []; detached := 0 |} in
  newElement (Some q) oid descr s
  = Normal n {| heap := <[q := set_childs pe (childs pe ++ [n])]>
                          (heap s ++ [new]);
                trace := trace s |}.
Proof.
  intros Hq n new. unfold newElement, bind, alloc, load, store, ret. simpl.
  pose proof (lookup_lt_Some _ _ _ Hq) as Hlt.
  by rewrite lookup_app_l, Hq by done.
Qed.

Lemma grown_from_newElement h0 h q pe (oid descr : string) :
  h !! q = Some pe → grown_from h0 h →
  grown_from h0
    (<[q := set_childs pe (childs pe ++ [length h])]>
       (h ++ [{| ID := oid; description := descr; parent := Some q;
                 childs := []; detached := 0 |}])).
Proof.
  intros Hq (Hwf & [Hdown Hup] & Hev).
  set (new := {| ID := oid; description := descr; parent := Some q;
                 childs := []; detached := 0 |}).
  set (pe' := set_childs pe (childs pe ++ [length h])).
  pose proof (lookup_lt_Some _ _ _ Hq) as Hlt.
  assert (Hlook : ∀ i x, <[q := pe']> (h ++ [new]) !! i = Some x →
            (i = q ∧ x = pe') ∨ (i ≠ q ∧ i < length h ∧ h !! i = Some x)
            ∨ (i = length h ∧ x = new)).
  { intros i x Hx. destruct (decide (i = q)) as [->|Hne].
    - rewrite list_lookup_insert_eq in Hx by (rewrite length_app; simpl; lia).
      left. by simplify_eq.
    - rewrite list_lookup_insert_ne in Hx by done.
      apply lookup_app_Some in Hx as [Hx|[Hge Hx]].
      + right. left. split; [done|]. split; [by eapply lookup_lt_Some|done].
      + apply list_lookup_singleton_Some in Hx as [Hi <-].
        right. right. split; [lia|done]. }
  assert (Hold : ∀ i x, h !! i = Some x → i ≠ q →
            <[q := pe']> (h ++ [new]) !! i = Some x).
  { intros i x Hx Hne. rewrite list_lookup_insert_ne by done.
    by rewrite lookup_app_l by (by eapply lookup_lt_Some). }
  assert (Hq' : <[q := pe']> (h ++ [new]) !! q = Some pe').
  { apply list_lookup_insert_eq. rewrite length_app. simpl. lia. }
  assert (Hn' : <[q := pe']> (h ++ [new]) !! length h = Some new).
  { rewrite list_lookup_insert_ne by lia.
    rewrite lookup_app_r by lia. by rewrite Nat.sub_diag. }
  split; [|split; [split|]].
  - intros i x c Hx Hin. rewrite length_insert, length_app. simpl.
    destruct (Hlook i x Hx) as [[-> ->]|[(Hne & Hi & Hx')|[-> ->]]].
    + simpl in Hin. apply elem_of_app in Hin as [Hin|Hin].
      * pose proof (Hwf q pe c Hq Hin). lia.
      * apply list_elem_of_singleton in Hin as ->. lia.
    + pose proof (Hwf i x c Hx' Hin). lia.
    + simpl in Hin. by apply elem_of_nil in Hin.
  - intros i x c Hx Hin.
    destruct (Hlook i x Hx) as [[-> ->]|[(Hne & Hi & Hx')|[-> ->]]].
    + simpl in Hin. apply elem_of_app in Hin as [Hin|Hin].
      * destruct (Hdown q pe c Hq Hin) as (y & Hy & Hpy).
        destruct (decide (c = q)) as [->|Hcq].
        -- exists pe'. split; [done|]. simpl. by simplify_eq.
        -- exists y. split; [by apply Hold|done].
      * apply list_elem_of_singleton in Hin as ->. by exists new.
    + destruct (Hdown i x c Hx' Hin) as (y & Hy & Hpy).
      destruct (decide (c = q)) as [->|Hcq].
      * exists pe'. split; [done|]. simpl. by simplify_eq.
      * exists y. split; [by apply Hold|done].
    + simpl in Hin. by apply elem_of_nil in Hin.
  - intros c x i Hx Hpar.
    destruct (Hlook c x Hx) as [[-> ->]|[(Hne & Hi & Hx')|[-> ->]]].
    + simpl in Hpar. destruct (Hup q pe i Hq Hpar) as (y & Hy & Hin).
      destruct (decide (i = q)) as [->|Hiq].
      * exists pe'. split; [done|]. simpl. simplify_eq.
        apply elem_of_app. by left.
      * exists y. split; [by apply Hold|done].
    + destruct (Hup c x i Hx' Hpar) as (y & Hy & Hin).
      destruct (decide (i = q)) as [->|Hiq].
      * exists pe'. split; [done|]. simpl. simplify_eq.
        apply elem_of_app. by left.
      * exists y. split; [by apply Hold|done].
    + simpl in Hpar. injection Hpar as <-. exists pe'. split; [done|].
      simpl. apply elem_of_app. right. left.
  - eapply evolved_trans; [exact Hev|]. split.
    + rewrite length_insert, length_app. simpl. lia.
    + intros i x Hx. destruct (decide (i = q)) as [->|Hiq].
      * exists pe'. split; [done|]. simplify_eq. simpl.
        repeat split; try done. by apply prefix_app_r.
      * exists x. split; [by apply Hold|]. repeat split; done.
Qed.

End TreeInvariants.

Section Keeps.

Import Witness.
Local Open Scope go_scope.
Context (env : Env).

Implicit Types (h : list element) (p q c : ptr) (e : element) (s : State)
  (I : State → Prop).

Lemma keeps_ret {A} I (a : A) : keeps I (ret a).
Proof. by intros s. Qed.

Lemma keeps_throw {A} I (x : panic) : keeps I (@throw A x).
Proof. by intros s. Qed.

Lemma keeps_bind {A C} I (m : M A) (k : A → M C) :
  keeps I m → (∀ a, keeps I (k a)) → keeps I (bind m k).
Proof.
  intros Hm Hk s HI. unfold bind. specialize (Hm s HI).
  destruct (m s) as [a s'|x s'|]; [|done|done]. by apply Hk.
Qed.

Lemma keeps_load I p : keeps I (load p).
Proof. intros s HI. unfold load. by destruct (heap s !! p). Qed.

Lemma keeps_deref {A} I (r : option A) : keeps I (deref r).
Proof. destruct r; [apply keeps_ret|apply keeps_throw]. Qed.

Lemma keeps_getContextID I : keeps I (session_getContextID env).
Proof. by intros s. Qed.

Lemma keeps_index I (q : Quad) (i : nat) : keeps I (index q i).
Proof. unfold index. destruct (q !! i); [apply keeps_ret|apply keeps_throw]. Qed.

Lemma keeps_Ticker {A} I (n : nat) (call : M (option A * option error)) :
  keeps I call → keeps I (Ticker n call).
Proof.
  intros Hcall. induction n as [|n IH]; simpl; [apply keeps_ret|].
  apply keeps_bind; [done|]. intros [r [err|]]; [done|apply keeps_ret].
Qed.

End Keeps.

(** The methods other than [Release], for any property of the state that
    survives a request, the re-validation of a handle and the allocation
    of a child under a handle that is [allowed]. *)
Section KeepsMethods.

Import Witness.
Local Open Scope go_scope.
Context (env : Env) (I : State → Prop) (allowed : ptr → Prop).

Hypothesis H_request :
  ∀ s ev, is_reresolution ev = false → I s → I (after_request s ev).
Hypothesis H_renew : ∀ p, keeps I (renew env p).
Hypothesis H_new :
  ∀ q, allowed q → ∀ oid descr, keeps I (newElement (Some q) oid descr).

Implicit Types (p q : ptr) (s : State).

Lemma keeps_emit (ev : event) : is_reresolution ev = false → keeps I (emit ev).
Proof. intros Hev s HI. by apply H_request. Qed.

Lemma keeps_request {A} (answer : Env → list event → event → A) (ev : event) :
  is_reresolution ev = false → keeps I (request env answer ev).
Proof. intros Hev s HI. by apply H_request. Qed.

Create HintDb keeps discriminated.

#[local] Hint Resolve keeps_load keeps_deref keeps_getContextID keeps_index
  H_renew : keeps.
#[local] Hint Extern 1 (keeps _ (request _ _ _)) =>
  apply keeps_request; reflexivity : keeps.
#[local] Hint Extern 1 (keeps _ (emit _)) =>
  apply keeps_emit; reflexivity : keeps.

Ltac keeps_case :=
  repeat match goal with
  | x : (_ * _)%type |- _ => destruct x
  | x : unit |- _ => destruct x
  end;
  cbv beta iota.

Ltac keeps_step :=
  lazymatch goal with
  | |- keeps _ (ret _) => apply keeps_ret
  | |- keeps _ (throw _) => apply keeps_throw
  | |- keeps _ (bind _ _) =>
      apply keeps_bind; [first [solve [eauto with keeps]|solve [keeps_auto]]
                        |intros ?; keeps_case]
  | |- keeps _ (if ?b then _ else _) => destruct b
  | |- keeps _ (match ?x with _ => _ end) => destruct x
  | |- keeps _ _ => solve [eauto with keeps]
  end
with keeps_auto := repeat keeps_step.

Lemma keeps_isDetached p : keeps I (isDetached p).
Proof. unfold isDetached. keeps_auto. Qed.

Lemma keeps_call p (fn : fndecl) (args : list arg) :
  keeps I (call env p fn args).
Proof. unfold call, callFunctionOn. keeps_auto. Qed.
#[local] Hint Resolve keeps_call : keeps.

Lemma keeps_findElement p (selector : string) :
  allowed p → keeps I (findElement env p selector).
Proof.
  intros Hp. pose proof (H_new p Hp) as Hnew.
  unfold findElement. keeps_auto.
Qed.

Lemma keeps_findElements_loop p (descriptor : list PropertyDescriptor)
    (els : list ptr) :
  allowed p → keeps I (findElements_loop p descriptor els).
Proof.
  intros Hp. pose proof (H_new p Hp) as Hnew.
  revert els. induction descriptor as [|d rest IH]; intros els; simpl.
  - apply keeps_ret.
  - keeps_auto.
Qed.

Lemma keeps_findElements p (selector : string) :
  allowed p → keeps I (findElements env p selector).
Proof.
  intros Hp. pose proof (keeps_findElements_loop p) as Hloop.
  unfold findElements, releaseObject, getProperties. keeps_auto.
Qed.

Lemma keeps_SeekAll p (selector : string) :
  allowed p → keeps I (SeekAll env p selector).
Proof.
  intros Hp. pose proof (keeps_findElements p selector Hp).
  unfold SeekAll. keeps_auto.
Qed.

Lemma keeps_getNode p : keeps I (getNode env p).
Proof. unfold getNode, blockingSend. keeps_auto. Qed.

Lemma keeps_Focus p : keeps I (Focus env p).
Proof. unfold Focus, blockingSend. keeps_auto. Qed.

Lemma keeps_Call p (fn : string) (args : list arg) :
  keeps I (Call env p fn args).
Proof. unfold Call, callFunctionOn. keeps_auto. Qed.

Lemma keeps_Upload p (files : list string) : keeps I (Upload env p files).
Proof. unfold Upload, blockingSend. keeps_auto. Qed.

Lemma keeps_clickablePoint p : keeps I (clickablePoint env p).
Proof. unfold clickablePoint, getContentQuads. keeps_auto. Qed.

Lemma keeps_Bool (r : option RemoteObject) : keeps I (Bool env r).
Proof. unfold Bool. keeps_auto. Qed.

Lemma keeps_dispatchMouseEvent (x y : float64) (t : MouseEventType)
    (button : string) :
  keeps I (dispatchMouseEvent env x y t button).
Proof. unfold dispatchMouseEvent. keeps_auto. Qed.

#[local] Hint Resolve keeps_getNode keeps_Focus keeps_clickablePoint
  keeps_Bool keeps_dispatchMouseEvent : keeps.

Lemma keeps_Click p : keeps I (Click env p).
Proof. unfold Click. keeps_auto. Qed.

Lemma keeps_SwitchToFrame p : keeps I (SwitchToFrame env p).
Proof. unfold SwitchToFrame, createIsolatedWorld. keeps_auto. Qed.

Lemma keeps_IsVisible p : keeps I (IsVisible env p).
Proof. unfold IsVisible. keeps_auto. Qed.

Lemma keeps_Hover p : keeps I (Hover env p).
Proof. unfold Hover, MouseMove. keeps_auto. Qed.

Lemma keeps_Clear p : keeps I (Clear env p).
Proof. unfold Clear. keeps_auto. Qed.
#[local] Hint Resolve keeps_Clear keeps_IsVisible : keeps.

Lemma keeps_Type p (text : string) (key : option (list Z)) :
  keeps I (Type' env p text key).
Proof. unfold Type', time_Sleep, insertText, SendKeys. keeps_auto. Qed.

Lemma keeps_string p (fn : fndecl) (args : list arg) :
  keeps I (string_ env p fn args).
Proof. unfold string_. keeps_auto. Qed.

Lemma keeps_SetAttr p (attr value : string) : keeps I (SetAttr env p attr value).
Proof. unfold SetAttr. keeps_auto. Qed.

Lemma keeps_GetRectangle p : keeps I (GetRectangle env p).
Proof. unfold GetRectangle, getContentQuads. keeps_auto. Qed.

Lemma keeps_GetSelected_loop (descriptor : list PropertyDescriptor)
    (options : list string) :
  keeps I (GetSelected_loop descriptor options).
Proof.
  revert options. induction descriptor as [|d rest IH]; intros options; simpl.
  - apply keeps_ret.
  - keeps_auto.
Qed.
#[local] Hint Resolve keeps_GetSelected_loop keeps_string : keeps.

Lemma keeps_GetSelected p (selectedText : bool) :
  keeps I (GetSelected env p selectedText).
Proof. unfold GetSelected, getProperties. keeps_auto. Qed.

Lemma keeps_Select p (values : list string) : keeps I (Select env p values).
Proof. unfold Select. keeps_auto. Qed.

Lemma keeps_Checkbox p (check : bool) : keeps I (Checkbox env p check).
Proof. unfold Checkbox, time_Sleep. keeps_auto. Qed.

Lemma keeps_IsChecked p : keeps I (IsChecked env p).
Proof. unfold IsChecked. keeps_auto. Qed.

Lemma keeps_GetEventListeners p : keeps I (GetEventListeners env p).
Proof. unfold GetEventListeners, blockingSend. keeps_auto. Qed.

Lemma keeps_Expect_attempt p (selector : string) (visible : bool) :
  allowed p → keeps I (Expect_attempt env p selector visible).
Proof.
  intros Hp. pose proof (keeps_findElement p selector Hp).
  unfold Expect_attempt, Seek. keeps_auto.
Qed.

Lemma keeps_Expect p (selector : string) (visible : bool) :
  allowed p → keeps I (Expect env p selector visible).
Proof.
  intros Hp.
  pose proof (keeps_Ticker I (Ticker_attempts env) _
                (keeps_Expect_attempt p selector visible Hp)).
  unfold Expect. keeps_auto.
Qed.

Lemma keeps_perform_but_Release (o : operation) p :
  o ≠ DoRelease → allowed p → keeps I (perform env o p).
Proof.
  intros Ho Hp.
  pose proof (keeps_findElement p) as H1.
  pose proof (keeps_SeekAll p) as H2.
  pose proof (keeps_Expect p) as H3.
  pose proof keeps_Click. pose proof keeps_Hover. pose proof keeps_Type.
  pose proof keeps_Upload. pose proof keeps_Select. pose proof keeps_Checkbox.
  pose proof keeps_SetAttr. pose proof keeps_Call.
  pose proof keeps_SwitchToFrame. pose proof keeps_GetRectangle.
  pose proof keeps_GetSelected. pose proof keeps_IsChecked.
  pose proof keeps_GetEventListeners.
  destruct o; try done;
    unfold perform, Seek, GetText, GetAttr, GetComputedStyle; keeps_auto.
Qed.

End KeepsMethods.

(** *** The tree stays a tree *)

Section Grown.

Import Witness.
Local Open Scope go_scope.
Context (env : Env) (h0 : list element).

Implicit Types (h : list element) (p q c : ptr) (e : element) (s : State).



Lemma keeps_renew p : keeps (tree_grown_from h0) (renew env p).
Proof.
  intros s HI. destruct (heap s !! p) as [e|] eqn:He.
  2:{ unfold renew, isDetached, bind, load. by rewrite He. }
  destruct (decide (detached e = 1%Z)) as [Hd|Hd].
  2:{ by rewrite (renew_attached env p e s He Hd). }
  destruct (parent e) as [q|] eqn:Hpar.
  { by rewrite (renew_detached_child env p e q s He Hd Hpar). }
  destruct (reply_err env (trace s) (document_request env s)) as [err|] eqn:Herr.
  { by rewrite (renew_detached_root_failed env p e s err He Hd Hpar Herr). }
  destruct (reply_object env (trace s) (document_request env s))
    as [new|] eqn:Hobj.
  - rewrite (renew_detached_root_healed env p e s new He Hd Hpar Herr Hobj).
    simpl. destruct HI as (Hwf & Hl & Hev). split; [|split].
    + by apply (children_after_insert _ _ e).
    + by apply (linked_insert _ _ e).
    + eapply evolved_trans; [exact Hev|].
      apply (evolved_insert _ _ e); try done. rewrite Hpar. by intros [? [=]].
  - unfold renew, isDetached, session_getContextID, evaluate, request, deref,
      bind, load, ret, throw.
    rewrite He. simpl. rewrite bool_decide_eq_true_2 by done. simpl.
    rewrite He, Hpar. unfold document_request in Herr, Hobj.
    by rewrite Herr, Hobj.
Qed.

Lemma keeps_newElement q (oid descr : string) :
  q < length h0 → keeps (tree_grown_from h0) (newElement (Some q) oid descr).
Proof.
  intros Hq s HI.
  assert (Hlt : q < length (heap s)).
  { destruct HI as (_ & _ & [Hlen _]). lia. }
  destruct (lookup_lt_is_Some_2 _ _ Hlt) as [pe Hpe].
  rewrite (newElement_heap q pe oid descr s Hpe). simpl.
  by apply grown_from_newElement.
Qed.

Lemma keeps_Release p : keeps (tree_grown_from h0) (Release env p).
Proof.
  intros s HI. unfold Release.
  destruct (heap s !! p) as [e|] eqn:He.
  2:{ unfold bind, load. by rewrite He. }
  rewrite (bind_normal _ _ _ _ _ (load_normal _ _ _ He)).
  unfold releaseObject, request, bind at 1 2, ret at 1. simpl.
  set (s1 := {| heap := heap s; trace := _ |}).
  destruct (detach_detaches p s1) as (s' & Hrun & _ & Hfl & _).
  - by destruct HI.
  - simpl. by eapply lookup_lt_Some.
  - unfold bind. rewrite Hrun. simpl.
    by eapply grown_from_flags_raised.
Qed.


Lemma keeps_perform (o : operation) p :
  p < length h0 → keeps (tree_grown_from h0) (perform env o p).
Proof.
  intros Hp. destruct (decide (o = DoRelease)) as [->|Ho].
  - unfold perform. apply keeps_bind; [apply keeps_Release|].
    intros err. apply keeps_ret.
  - apply (keeps_perform_but_Release env (tree_grown_from h0)
             (λ q, q < length h0));
      [done|apply keeps_renew|intros q Hq oid descr; by apply keeps_newElement
      |done|done].
Qed.

End Grown.

Section TreeTheorems.

Import Witness.
Context (env : Env).

Implicit Types (p : ptr) (s : State).

(** X8. Started on a tree in which children are allocated after their
    parents and parent pointers agree with child lists, with a receiver
    that exists, every method of the interface ends (it returns or it
    panics; the recursion of [detach] does not run away) and leaves a
    tree of that kind. *)
Theorem perform_keeps_tree (o : operation) p s :
  children_after (heap s) → linked (heap s) → p < length (heap s) →
  match perform env o p s with
  | Normal _ s' | Panicked _ s' => children_after (heap s') ∧ linked (heap s')
  | OutOfFuel => False
  end.
Proof.
  intros Hwf Hl Hp.
  assert (HI : grown_from (heap s) (heap s))
    by (split; [done|split; [done|apply evolved_refl]]).
  pose proof (keeps_perform env (heap s) o p Hp s HI) as H.
  by destruct (perform env o p s) as [r s'|x s'|];
    [destruct H as (? & ? & _)|destruct H as (? & ? & _)|].
Qed.

(** X9. Under the same conditions no method removes a handle from the
    tree or changes the parent or the description of one; child lists
    only grow at the end; and for every handle with a parent the object
    identifier is never replaced and a detached flag that is set is never
    cleared: only the document root is ever re-resolved. *)
Theorem perform_evolves (o : operation) p s :
  children_after (heap s) → linked (heap s) → p < length (heap s) →
  match perform env o p s with
  | Normal _ s' | Panicked _ s' => evolved (heap s) (heap s')
  | OutOfFuel => False
  end.
Proof.
  intros Hwf Hl Hp.
  assert (HI : grown_from (heap s) (heap s))
    by (split; [done|split; [done|apply evolved_refl]]).
  pose proof (keeps_perform env (heap s) o p Hp s HI) as H.
  by destruct (perform env o p s) as [r s'|x s'|];
    [destruct H as (_ & _ & ?)|destruct H as (_ & _ & ?)|].
Qed.

End TreeTheorems.

Lemma page_heap_linked (flag : Z) : Witness.linked (page_heap flag).
Proof.
  split.
  - intros q pe c Hq Hc.
    destruct q as [|[|[|q]]]; simpl in Hq; simplify_eq; simpl in Hc;
      repeat (apply elem_of_cons in Hc as [->|Hc]);
      try (by apply elem_of_nil in Hc); by eexists.
  - intros c e q He Hpar.
    destruct c as [|[|[|c]]]; simpl in He; simplify_eq; simpl in Hpar;
      simplify_eq; eexists; (split; [reflexivity|]); left.
Qed.

Lemma perform_keeps_tree_witness :
  Witness.children_after (Witness.heap (page 1))
  ∧ Witness.linked (Witness.heap (page 1))
  ∧ match Witness.perform navigated_env (Witness.DoSeekAll "input") 0 (page 1) with
    | Witness.Normal _ s' | Witness.Panicked _ s' =>
        Witness.children_after (Witness.heap s') ∧ Witness.linked (Witness.heap s')
    | Witness.OutOfFuel => False
    end.
Proof.
  split; [apply page_heap_children_after|]. split; [apply page_heap_linked|].
  apply (perform_keeps_tree navigated_env (Witness.DoSeekAll "input") 0 (page 1)).
  - apply page_heap_children_after.
  - apply page_heap_linked.
  - simpl. lia.
Defined.

Lemma perform_evolves_witness :
  Witness.children_after (Witness.heap (page 1))
  ∧ Witness.linked (Witness.heap (page 1))
  ∧ match Witness.perform navigated_env (Witness.DoSeek "input") 0 (page 1) with
    | Witness.Normal _ s' | Witness.Panicked _ s' =>
        Witness.evolved (Witness.heap (page 1)) (Witness.heap s')
    | Witness.OutOfFuel => False
    end.
Proof.
  split; [apply page_heap_children_after|]. split; [apply page_heap_linked|].
  apply (perform_evolves navigated_env (Witness.DoSeek "input") 0 (page 1)).
  - apply page_heap_children_after.
  - apply page_heap_linked.
  - simpl. lia.
Defined.

(** ** Detaching twice *)

Section DetachTwice.

Import Witness.

Implicit Types (h : list element) (p q : ptr) (e : element) (s : State).

Lemma set_detached_flagged e : detached e = 1%Z → set_detached e 1 = e.
Proof. destruct e; simpl. by intros ->. Qed.

(** The heap after [detach] is determined: the subtree is flagged,
    nothing else is touched. *)
Lemma detaches_heap (m : M unit) p s s' q :
  detaches m p s → m s = Normal tt s' →
  (descendant (heap s) p q → heap s' !! q = (λ e, set_detached e 1) <$> heap s !! q)
  ∧ (¬ descendant (heap s) p q → heap s' !! q = heap s !! q).
Proof.
  intros (s1 & Hrun & _ & Hfl & Hdesc & Hrest) Hs'.
  rewrite Hrun in Hs'. injection Hs' as ->. split; [|apply Hrest].
  intros Hq. destruct (Hdesc q Hq) as (e' & He' & Hd').
  destruct (flags_raised_lookup_r _ _ _ _ Hfl He') as (e & He & Hee).
  rewrite He, He'. simpl. f_equal. destruct Hee as [->| ->]; [|done].
  by rewrite set_detached_flagged.
Qed.

(** X10. On a tree in which children are allocated after their parents,
    [detach] of an existing handle is idempotent: detaching the handle a
    second time returns and leaves the state exactly as the first
    detachment left it. *)
Theorem detach_idempotent p s :
  children_after (heap s) → p < length (heap s) →
  ∃ s', detach p s = Normal tt s' ∧ detach p s' = Normal tt s'.
Proof.
  intros Hwf Hp.
  destruct (detach_detaches p s Hwf Hp)
    as (s1 & Hrun1 & Htr1 & Hfl1 & Hdesc1 & Hrest1).
  assert (Hwf1 : children_after (heap s1))
    by (by eapply flags_raised_children_after).
  assert (Hp1 : p < length (heap s1))
    by (by rewrite (flags_raised_length _ _ Hfl1)).
  destruct (detach_detaches p s1 Hwf1 Hp1)
    as (s2 & Hrun2 & Htr2 & Hfl2 & Hdesc2 & Hrest2).
  exists s1. split; [done|]. rewrite Hrun2. f_equal.
  destruct s1 as [h1 t1], s2 as [h2 t2]; simpl in *. f_equal; [|done].
  apply list_eq. intros q.
  destruct (h1 !! q) as [e1|] eqn:He1.
  - destruct (flags_raised_lookup _ _ _ _ Hfl2 He1) as (e2 & He2 & Hee).
    rewrite He2. f_equal. destruct Hee as [->|Hee]; [done|].
    destruct (decide (e2 = e1)) as [->|Hne]; [done|]. exfalso.
    assert (Hnot : ¬ descendant h1 p q).
    { intros Hq. apply Hne. rewrite Hee. apply set_detached_flagged.
      destruct (Hdesc1 q (flags_raised_descendant_inv _ _ _ _ Hfl1 Hq))
        as (e' & He' & Hd'). congruence. }
    specialize (Hrest2 q Hnot). congruence.
  - apply lookup_ge_None in He1. apply lookup_ge_None.
    by rewrite (flags_raised_length _ _ Hfl2).
Qed.

End DetachTwice.

Lemma detach_idempotent_witness :
  Witness.children_after (Witness.heap (page 0))
  ∧ ∃ s', Witness.detach 0 (page 0) = Witness.Normal tt s'
        ∧ Witness.detach 0 s' = Witness.Normal tt s'.
Proof.
  split; [apply page_heap_children_after|].
  apply (detach_idempotent 0 (page 0)).
  - apply page_heap_children_after.
  - simpl. lia.
Defined.

(** ** Finding elements through a live handle *)

Section SeekFacts.

Import Witness.
Local Open Scope go_scope.
Context (env : Env).

Implicit Types (h : list element) (p q a : ptr) (e : element) (s : State).

Lemma evolved_descendant h h' p q :
  evolved h h' → descendant h p q → descendant h' p q.
Proof.
  intros [_ H]. induction 1 as [p|p e c q Hp Hc _ IH]; [constructor|].
  destruct (H p e Hp) as (e' & He' & _ & _ & Hpre & _).
  eapply descendant_child; [exact He'| |exact IH].
  destruct Hpre as [l ->]. apply elem_of_app. by left.
Qed.

Lemma descendant_trans h a p q :
  descendant h a p → descendant h p q → descendant h a q.
Proof.
  induction 1 as [|a e c p Ha Hc _ IH]; [done|]. intros Hq.
  eapply descendant_child; [exact Ha|exact Hc|by apply IH].
Qed.

Lemma descendant_valid h a p :
  descendant h a p → p < length h → a < length h.
Proof.
  intros [|? e c ? Ha _ _] Hp; [done|]. by eapply lookup_lt_Some.
Qed.

Lemma newElement_found p e (r : RemoteObject) s :
  heap s !! p = Some e →
  newElement (Some p) (ObjectID r) (Description r) s
  = Normal (length (heap s))
      {| heap := adopted (heap s) p e r; trace := trace s |}.
Proof. intros He. by rewrite (newElement_heap p e _ _ s He). Qed.

(** X11. [Seek] on a handle that is not detached sends one query, with
    the quotes of the selector escaped, on the handle's object.  An error
    of the query is returned as it is and a result of subtype null is the
    no-such-element error; in both cases no handle is allocated.  Any
    other result becomes a fresh handle at the end of the arena: attached,
    carrying the identifier and description of the remote object, with
    the receiver as parent and appended to the receiver's child list. *)
Theorem Seek_live p e s (selector : string) :
  heap s !! p = Some e → detached e ≠ 1%Z →
  let ev := EvCallFunctionOn (ID e) (FnAtom Query)
              [AString (escape_quotes selector)] in
  match reply_err env (trace s) ev, reply_object env (trace s) ev with
  | Some err, _ =>
      Seek env p selector s = Normal (None, Some err) (after_request s ev)
  | None, None =>
      Seek env p selector s = Panicked NilDereference (after_request s ev)
  | None, Some r =>
      if bool_decide (Subtype r = "null") then
        Seek env p selector s
        = Normal (None, Some ErrNoSuchElement) (after_request s ev)
      else
        Seek env p selector s
        = Normal (Some (length (heap s)), None)
            {| heap := adopted (heap s) p e r; trace := trace s ++ [ev] |}
  end.
Proof.
  intros He Hd ev.
  assert (Hcall : call env p (FnAtom Query) [AString (escape_quotes selector)] s
                  = Normal (reply_object env (trace s) ev,
                            reply_err env (trace s) ev) (after_request s ev)).
  { by rewrite (call_attached env _ _ _ _ _ He Hd). }
  assert (Hseek : ∀ k : option RemoteObject * option error
                       → M (option ptr * option error),
                    bind (renew env p) (λ err,
                         if err is Some _ then ret (None, err) else
                         bind (call env p (FnAtom Query)
                                 [AString (escape_quotes selector)]) k) s
                       = k (reply_object env (trace s) ev,
                            reply_err env (trace s) ev) (after_request s ev)).
  { intros k. rewrite (bind_normal _ _ _ _ _ (renew_attached env _ _ _ He Hd)).
    by rewrite (bind_normal _ _ _ _ _ Hcall). }
  unfold Seek, findElement.
  destruct (reply_err env (trace s) ev) as [err|] eqn:Herr.
  { by rewrite Hseek. }
  destruct (reply_object env (trace s) ev) as [r|] eqn:Hobj.
  2:{ by rewrite Hseek. }
  case_bool_decide as Hnull.
  - rewrite Hseek. unfold bind, deref, ret. simpl.
    by rewrite bool_decide_eq_true_2.
  - rewrite Hseek. unfold bind at 1. simpl.
    unfold ret at 1. rewrite bool_decide_eq_false_2 by done.
    unfold bind.
    by rewrite (newElement_found p e r (after_request s ev) He).
Qed.

(** What [Release] does on a well-formed tree (the statement of C10, for
    use in other proofs). *)
Lemma Release_run p e s :
  children_after (heap s) → heap s !! p = Some e →
  ∃ s', Release env p s
        = Normal (reply_err env (trace s) (EvReleaseObject (ID e))) s'
      ∧ trace s' = trace s ++ [EvReleaseObject (ID e)]
      ∧ flags_raised (heap s) (heap s')
      ∧ (∀ q, descendant (heap s) p q → flagged (heap s') q).
Proof.
  intros Hwf He.
  set (s1 := {| heap := heap s;
                trace := trace s ++ [EvReleaseObject (ID e)] |}).
  destruct (detach_detaches p s1) as (s' & Hrun & Htr & Hfl & Hdesc & _).
  - done.
  - simpl. by eapply lookup_lt_Some.
  - exists s'. split; [|done].
    unfold Release. rewrite (bind_normal _ _ _ _ _ (load_normal _ _ _ He)).
    unfold releaseObject, request, bind, ret at 1; simpl. fold s1.
    by rewrite Hrun.
Qed.

(** X12. An element found by [Seek] through a live handle is detached
    together with that handle: after a [Release] of the handle, or of any
    handle above it, the found element carries the detached flag. *)
Theorem found_element_detached_with_ancestor a p e s s1 (selector : string)
    (n : ptr) :
  children_after (heap s) → linked (heap s) →
  descendant (heap s) a p →
  heap s !! p = Some e → detached e ≠ 1%Z →
  Seek env p selector s = Normal (Some n, None) s1 →
  ∃ err s2, Release env a s1 = Normal err s2
          ∧ flagged (heap s2) n ∧ flagged (heap s2) p.
Proof.
  intros Hwf Hl Ha He Hd Hseek.
  pose proof (Seek_live p e s selector He Hd) as Hlive. simpl in Hlive.
  destruct (reply_err env (trace s) _) as [err|]; [congruence|].
  destruct (reply_object env (trace s) _) as [r|]; [|congruence].
  case_bool_decide; [congruence|].
  rewrite Hlive in Hseek. injection Hseek as <- <-.
  assert (Hgrown : grown_from (heap s) (adopted (heap s) p e r)).
  { apply grown_from_newElement; [done|].
    split; [done|]. split; [done|apply evolved_refl]. }
  destruct Hgrown as (Hwf1 & _ & Hev).
  pose proof (lookup_lt_Some _ _ _ He) as Hlt.
  assert (Hp1 : adopted (heap s) p e r !! p
                = Some (set_childs e (childs e ++ [length (heap s)]))).
  { apply list_lookup_insert_eq. rewrite length_app. simpl. lia. }
  assert (Hdesc : descendant (adopted (heap s) p e r) a (length (heap s))).
  { assert (Hpn : descendant (adopted (heap s) p e r) p (length (heap s))).
    { eapply descendant_child; [exact Hp1| |constructor].
      simpl. apply elem_of_app. right. left. }
    eapply descendant_trans; [|exact Hpn].
    by apply (evolved_descendant _ _ _ _ Hev). }
  pose proof (descendant_valid _ _ _ Ha Hlt) as Halt.
  destruct (lookup_lt_is_Some_2 (adopted (heap s) p e r) a) as [ea Hea].
  { destruct Hev as [Hlen _]. lia. }
  destruct (Release_run a ea
              {| heap := adopted (heap s) p e r;
                 trace := trace s ++ [EvCallFunctionOn (ID e) (FnAtom Query)
                                        [AString (escape_quotes selector)]] |}
              Hwf1 Hea) as (s2 & Hrun & _ & _ & Hflag).
  eexists _, s2. split; [exact Hrun|]. split; [by apply Hflag|].
  apply Hflag. by apply (evolved_descendant _ _ _ _ Hev).
Qed.

End SeekFacts.

Lemma Seek_live_witness :
  Witness.heap (page 0) !! 1
  = Some {| Witness.ID := "form-1"; Witness.description := "form";
            Witness.parent := Some 0; Witness.childs := [2];
            Witness.detached := 0 |}
  ∧ Witness.Seek finding_env 1 "input" (page 0)
    = Witness.Normal (Some 3, None) page_with_input.
Proof.
  split; [reflexivity|].
  exact (Seek_live finding_env 1 _ (page 0) "input" eq_refl
           ltac:(discriminate)).
Defined.

Lemma found_element_detached_with_ancestor_witness :
  Witness.descendant (Witness.heap (page 0)) 0 1
  ∧ ∃ err s2, Witness.Release finding_env 0 page_with_input
              = Witness.Normal err s2
            ∧ Witness.flagged (Witness.heap s2) 3
            ∧ Witness.flagged (Witness.heap s2) 1.
Proof.
  assert (Hd : Witness.descendant (Witness.heap (page 0)) 0 1).
  { eapply Witness.descendant_child; [reflexivity| |constructor]. left. }
  split; [exact Hd|].
  apply (found_element_detached_with_ancestor finding_env 0 1 _ (page 0)
           page_with_input "input" 3
           (page_heap_children_after 0) (page_heap_linked 0) Hd eq_refl).
  - discriminate.
  - reflexivity.
Defined.

(** ** Finding all elements through a live handle *)

Section SeekAllFacts.

Import Witness.
Local Open Scope go_scope.
Context (env : Env).

Implicit Types (h : list element) (p q : ptr) (e : element) (s : State)
  (r : RemoteObject) (rs : list RemoteObject).

Lemma adopt_adopted h p e r :
  h !! p = Some e → adopt p h r = adopted h p e r.
Proof.
  intros He. unfold adopt, adopted.
  pose proof (lookup_lt_Some _ _ _ He) as Hlt.
  apply list_eq. intros i. destruct (decide (i = p)) as [->|Hne].
  - rewrite list_lookup_alter_eq, lookup_app_l, He by done. simpl.
    rewrite list_lookup_insert_eq; [done|]. rewrite length_app. simpl. lia.
  - by rewrite list_lookup_alter_ne, list_lookup_insert_ne.
Qed.

Lemma adopt_length h p r : length (adopt p h r) = S (length h).
Proof. unfold adopt. rewrite length_alter, length_app. simpl. lia. Qed.

Lemma adopt_lookup_new h p r :
  p < length h → adopt p h r !! length h = Some (found p r).
Proof.
  intros Hp. unfold adopt. rewrite list_lookup_alter_ne by lia.
  rewrite lookup_app_r by lia. by rewrite Nat.sub_diag.
Qed.

Lemma adopt_lookup_other h p r i :
  i ≠ p → i < length h → adopt p h r !! i = h !! i.
Proof.
  intros Hne Hi. unfold adopt. rewrite list_lookup_alter_ne by done.
  by rewrite lookup_app_l.
Qed.

Lemma adopt_lookup_parent h p e r :
  h !! p = Some e →
  adopt p h r !! p = Some (set_childs e (childs e ++ [length h])).
Proof.
  intros He. pose proof (lookup_lt_Some _ _ _ He) as Hlt.
  unfold adopt. by rewrite list_lookup_alter_eq, lookup_app_l, He.
Qed.

(** The arena after the objects [rs] were adopted one after the other. *)
Lemma foldl_adopt h p e rs :
  h !! p = Some e →
  length (foldl (adopt p) h rs) = length h + length rs
  ∧ foldl (adopt p) h rs !! p
    = Some (set_childs e (childs e ++ seq (length h) (length rs)))
  ∧ (∀ i r, rs !! i = Some r →
       foldl (adopt p) h rs !! (length h + i) = Some (found p r))
  ∧ (∀ i, i ≠ p → i < length h → foldl (adopt p) h rs !! i = h !! i).
Proof.
  revert h e. induction rs as [|r rs IH]; intros h e He; simpl.
  - split; [lia|]. split; [|split; [done|done]].
    rewrite app_nil_r. rewrite He. f_equal. by destruct e.
  - pose proof (lookup_lt_Some _ _ _ He) as Hlt.
    destruct (IH (adopt p h r) _ (adopt_lookup_parent h p e r He))
      as (Hlen & Hp & Hnew & Hold).
    rewrite adopt_length in *. split; [lia|]. split; [|split].
    + rewrite Hp. f_equal. simpl. by rewrite <- app_assoc.
    + intros [|i] r' Hr'; simpl in Hr'.
      * simplify_eq. rewrite Nat.add_0_r. rewrite Hold by lia.
        by apply adopt_lookup_new.
      * replace (length h + S i) with (S (length h) + i) by lia.
        by apply Hnew.
    + intros i Hne Hi. rewrite Hold by lia. by apply adopt_lookup_other.
Qed.

Lemma findElements_loop_adopts p e (descriptor : list PropertyDescriptor)
    rs (els : list ptr) s :
  heap s !! p = Some e → enumerated descriptor = Some rs →
  findElements_loop p descriptor els s
  = Normal (els ++ seq (length (heap s)) (length rs))
      {| heap := foldl (adopt p) (heap s) rs; trace := trace s |}.
Proof.
  revert rs els e s.
  induction descriptor as [|d rest IH]; intros rs els e s He Hrs; simpl in *.
  - injection Hrs as <-. simpl. rewrite app_nil_r. by destruct s.
  - destruct (Enumerable d); simpl in *; [|by eapply IH].
    destruct (prop_Value d) as [r|]; [|done].
    destruct (enumerated rest) as [rs'|] eqn:Hrest; [|done].
    injection Hrs as <-. simpl.
    unfold bind at 1. simpl. unfold bind at 1.
    rewrite (newElement_found p e r s He).
    rewrite <- (adopt_adopted _ _ _ r He).
    erewrite IH; [|by apply adopt_lookup_parent|done]. simpl.
    rewrite adopt_length. by rewrite <- app_assoc.
Qed.

(** X13. [SeekAll] on a handle that is not detached, when the query
    returns a list other than the empty node list: it asks for the
    properties of the list (whose error it does not look at) and returns
    one fresh handle for every enumerable property, in the order of the
    properties and with consecutive pointers; properties that are not
    enumerable give no handle.  Each handle carries the identifier and
    description of its property value and has the receiver as parent; the
    receiver's child list grows by exactly these handles, and every other
    element is as it was.  The list object itself is not released. *)
Theorem SeekAll_live p e s (selector : string) r rs :
  heap s !! p = Some e → detached e ≠ 1%Z →
  let query := EvCallFunctionOn (ID e) (FnAtom QueryAll)
                 [AString (escape_quotes selector)] in
  let properties := EvGetProperties (ObjectID r) in
  reply_err env (trace s) query = None →
  reply_object env (trace s) query = Some r →
  Description r ≠ "NodeList(0)" →
  enumerated (reply_properties env (trace s ++ [query]) properties) = Some rs →
  ∃ s', SeekAll env p selector s
        = Normal (seq (length (heap s)) (length rs)) s'
      ∧ trace s' = trace s ++ [query; properties]
      ∧ length (heap s') = length (heap s) + length rs
      ∧ heap s' !! p
        = Some (set_childs e
                  (childs e ++ seq (length (heap s)) (length rs)))
      ∧ (∀ i r', rs !! i = Some r' →
           heap s' !! (length (heap s) + i) = Some (found p r'))
      ∧ (∀ i, i ≠ p → i < length (heap s) → heap s' !! i = heap s !! i).
Proof.
  intros He Hd query properties Herr Hobj Hdescr Hrs.
  assert (Hcall : call env p (FnAtom QueryAll)
                    [AString (escape_quotes selector)] s
                  = Normal (Some r, None) (after_request s query)).
  { rewrite (call_attached env _ _ _ _ _ He Hd).
    unfold callFunctionOn, request. fold query. by rewrite Herr, Hobj. }
  assert (Hfind : findElements env p selector s
                  = Normal (seq (length (heap s)) (length rs), None)
                      {| heap := foldl (adopt p) (heap s) rs;
                         trace := trace s ++ [query; properties] |}).
  { unfold findElements.
    rewrite (bind_normal _ _ _ _ _ (renew_attached env _ _ _ He Hd)).
    rewrite (bind_normal _ _ _ _ _ Hcall).
    unfold bind at 1. simpl. unfold ret at 1.
    rewrite bool_decide_eq_false_2 by done.
    unfold bind at 1. simpl.
    unfold bind at 1. unfold getProperties, request at 1. simpl.
    fold properties. unfold bind at 1.
    erewrite findElements_loop_adopts; [|exact He|exact Hrs].
    simpl. by rewrite <- app_assoc. }
  eexists. split.
  - unfold SeekAll. by rewrite (bind_normal _ _ _ _ _ Hfind).
  - simpl. split; [done|].
    destruct (foldl_adopt (heap s) p e rs He) as (H1 & H2 & H3 & H4).
    by repeat split.
Qed.

(** X14. [SeekAll] on a handle that is not detached returns no handle and
    allocates none when the query fails, and when the query returns the
    empty node list; in the second case it releases the list object. *)
Theorem SeekAll_nothing p e s (selector : string) :
  heap s !! p = Some e → detached e ≠ 1%Z →
  let query := EvCallFunctionOn (ID e) (FnAtom QueryAll)
                 [AString (escape_quotes selector)] in
  (is_Some (reply_err env (trace s) query) →
     SeekAll env p selector s = Normal [] (after_request s query))
  ∧ (∀ r, reply_err env (trace s) query = None →
       reply_object env (trace s) query = Some r →
       Description r = "NodeList(0)" →
       SeekAll env p selector s
       = Normal [] {| heap := heap s;
                      trace := trace s ++ [query; EvReleaseObject (ObjectID r)] |}).
Proof.
  intros He Hd query.
  assert (Hcall : call env p (FnAtom QueryAll)
                    [AString (escape_quotes selector)] s
                  = Normal (reply_object env (trace s) query,
                            reply_err env (trace s) query)
                      (after_request s query)).
  { by rewrite (call_attached env _ _ _ _ _ He Hd). }
  split.
  - intros [err Herr]. rewrite Herr in Hcall.
    unfold SeekAll, findElements. unfold bind at 1.
    rewrite (bind_normal _ _ _ _ _ (renew_attached env _ _ _ He Hd)).
    by rewrite (bind_normal _ _ _ _ _ Hcall).
  - intros r Herr Hobj Hdescr. rewrite Herr, Hobj in Hcall.
    unfold SeekAll, findElements. unfold bind at 1.
    rewrite (bind_normal _ _ _ _ _ (renew_attached env _ _ _ He Hd)).
    rewrite (bind_normal _ _ _ _ _ Hcall).
    unfold bind at 1. simpl. unfold ret at 1.
    rewrite bool_decide_eq_true_2 by done.
    unfold bind, releaseObject, request, ret. simpl.
    by rewrite <- app_assoc.
Qed.

End SeekAllFacts.

Lemma SeekAll_live_witness :
  Witness.enumerated
    (Witness.reply_properties listing_env [] (Witness.EvGetProperties "list-1"))
  = Some [remote_node "input-1"; remote_node "input-2"]
  ∧ ∃ s', Witness.SeekAll listing_env 1 "input" (page 0)
          = Witness.Normal [3; 4] s'
        ∧ Witness.heap s' !! 4 = Some (Witness.found 1 (remote_node "input-2")).
Proof.
  split; [reflexivity|].
  destruct (SeekAll_live listing_env 1 _ (page 0) "input" (node_list "2")
              [remote_node "input-1"; remote_node "input-2"]
              eq_refl ltac:(discriminate) eq_refl eq_refl
              ltac:(discriminate) eq_refl)
    as (s' & Hrun & _ & _ & _ & Hnew & _).
  exists s'. split; [exact Hrun|]. exact (Hnew 1 _ eq_refl).
Defined.

Lemma SeekAll_nothing_witness :
  Witness.SeekAll empty_list_env 1 "input" (page 0)
  = Witness.Normal []
      {| Witness.heap := page_heap 0;
         Witness.trace :=
           [ Witness.EvCallFunctionOn "form-1" (Witness.FnAtom Witness.QueryAll)
               [Witness.AString "input"];
             Witness.EvReleaseObject "list-1" ] |}.
Proof.
  destruct (SeekAll_nothing empty_list_env 1 _ (page 0) "input"
              eq_refl ltac:(discriminate)) as [_ H].
  exact (H (node_list "0") eq_refl eq_refl eq_refl).
Defined.

(** ** What the methods return *)

Section Returns.

Import Witness.
Local Open Scope go_scope.
Context (env : Env).

Implicit Types (p : ptr) (s : State).

Lemma returns_ret {A} (a : A) (Q : A → Prop) : Q a → returns (ret a) Q.
Proof. intros HQ s a' s' [= <- _]. done. Qed.

Lemma returns_throw {A} (x : panic) (Q : A → Prop) : returns (throw x) Q.
Proof. by intros s a s'. Qed.

Lemma returns_bind {A C} (m : M A) (k : A → M C) (Q : C → Prop) :
  (∀ a, returns (k a) Q) → returns (bind m k) Q.
Proof.
  intros Hk s c s'. unfold bind.
  destruct (m s) as [a s1|x s1|]; [|done|done]. apply Hk.
Qed.

Lemma returns_bind_dep {A C} (m : M A) (k : A → M C) (R : A → Prop)
    (Q : C → Prop) :
  returns m R → (∀ a, R a → returns (k a) Q) → returns (bind m k) Q.
Proof.
  intros Hm Hk s c s'. unfold bind.
  destruct (m s) as [a s1|x s1|] eqn:Hrun; [|done|done].
  apply Hk. by eapply Hm.
Qed.

Ltac returns_case :=
  repeat match goal with
  | x : (_ * _)%type |- _ => destruct x
  | x : unit |- _ => destruct x
  end;
  cbv beta iota.

Ltac returns_leaf :=
  unfold zero_with_error; simpl;
  first [done | by intros [? [=]] | by intros _].

Ltac returns_step :=
  lazymatch goal with
  | |- returns (ret _) _ => apply returns_ret; returns_leaf
  | |- returns (throw _) _ => apply returns_throw
  | |- returns (bind _ _) _ => apply returns_bind; intros ?; returns_case
  | |- returns (if ?b then _ else _) _ => destruct b
  | |- returns (match ?x with _ => _ end) _ => destruct x
  end.

Ltac returns_auto := repeat returns_step.

Lemma findElement_zero p (selector : string) :
  returns (findElement env p selector) (zero_with_error None).
Proof. unfold findElement. returns_auto. Qed.

Lemma Call_zero p (fn : string) (args : list arg) :
  returns (Call env p fn args) (zero_with_error VNil).
Proof. unfold Call. returns_auto. Qed.

Lemma IsVisible_zero p : returns (IsVisible env p) (zero_with_error false).
Proof. unfold IsVisible. returns_auto. Qed.

Lemma string_zero p (fn : fndecl) (args : list arg) :
  returns (string_ env p fn args) (zero_with_error "").
Proof. unfold string_. returns_auto. Qed.

Lemma GetRectangle_zero p : returns (GetRectangle env p) (zero_with_error None).
Proof. unfold GetRectangle. returns_auto. Qed.

Lemma GetSelected_zero p (selectedText : bool) :
  returns (GetSelected env p selectedText) (zero_with_error []).
Proof. unfold GetSelected. returns_auto. Qed.

Lemma GetEventListeners_zero p :
  returns (GetEventListeners env p) (zero_with_error []).
Proof. unfold GetEventListeners. returns_auto. Qed.

(** X15. Every method of the interface except [IsChecked] keeps to the
    convention that a result returned together with an error is the zero
    value of its type: no handle, [false], the empty string, no list, no
    rectangle, no value. *)
Theorem results_zero_on_error (o : operation) p :
  o ≠ DoIsChecked → returns (perform env o p) zero_on_error.
Proof.
  intros Ho.
  assert (Hwrap : ∀ {A} (m : M (A * option error)) (zero : A)
                    (wrap : A → option error → result),
            returns m (zero_with_error zero) →
            (∀ v err, zero_with_error zero (v, err) →
                      zero_on_error (wrap v err)) →
            returns (bind m (λ '(v, err), ret (wrap v err))) zero_on_error).
  { intros A m zero wrap Hm Hw. eapply returns_bind_dep; [exact Hm|].
    intros [v err] Hz. apply returns_ret. by apply Hw. }
  destruct o; try done; unfold perform;
    try (apply returns_bind; intros ?; apply returns_ret; exact I).
  - apply (Hwrap _ _ None); [apply findElement_zero|done].
  - apply (Hwrap _ _ VNil); [apply Call_zero|done].
  - apply (Hwrap _ _ false); [apply IsVisible_zero|done].
  - apply (Hwrap _ _ ""); [apply string_zero|done].
  - apply (Hwrap _ _ ""); [apply string_zero|done].
  - apply (Hwrap _ _ None); [apply GetRectangle_zero|done].
  - apply (Hwrap _ _ ""); [apply string_zero|done].
  - apply (Hwrap _ _ []); [apply GetSelected_zero|done].
  - apply (Hwrap _ _ []); [apply GetEventListeners_zero|done].
Qed.

(** X16. [IsVisible] never returns the element-invisible error, and never
    returns [true] together with an error.  An element without a clickable
    point is not visible, with no error when the point is missing for the
    element-invisible error and with the error of the quad request
    otherwise, and no visibility script is run.  With a clickable point,
    a visibility script that fails is reported as not visible with no
    error, and one that returns a result gives the verdict of that
    result. *)
Theorem IsVisible_verdict p s :
  returns (IsVisible env p)
    (λ r, r.2 ≠ Some ErrElementInvisible ∧ (r.1 = true → r.2 = None))
  ∧ (∀ x y (err : error) s1,
       clickablePoint env p s = Normal (x, y, Some err) s1 →
       IsVisible env p s
       = Normal (false, if bool_decide (err = ErrElementInvisible)
                        then None else Some err) s1)
  ∧ (∀ x y s1 (vis : option RemoteObject) (e : error) s2,
       clickablePoint env p s = Normal (x, y, None) s1 →
       call env p (FnAtom IsVisible_) [] s1 = Normal (vis, Some e) s2 →
       IsVisible env p s = Normal (false, None) s2)
  ∧ (∀ x y s1 (r : RemoteObject) s2,
       clickablePoint env p s = Normal (x, y, None) s1 →
       call env p (FnAtom IsVisible_) [] s1 = Normal (Some r, None) s2 →
       IsVisible env p s = Normal (RemoteObject_Bool env r, None) s2).
Proof.
  split; [|split; [|split]].
  - unfold IsVisible. apply returns_bind. intros [[x y] [e|]].
    + destruct (err_is (Some e) ErrElementInvisible) eqn:Hinv.
      * by apply returns_ret.
      * apply returns_ret. simpl in *. split; [|done].
        intros [= ->]. by rewrite bool_decide_eq_true_2 in Hinv.
    + apply returns_bind. intros [vis err]. apply returns_bind. intros hidden.
      destruct hidden; by apply returns_ret.
  - intros x y err s1 Hpoint. unfold IsVisible.
    rewrite (bind_normal _ _ _ _ _ Hpoint). simpl.
    by case_bool_decide.
  - intros x y s1 vis e s2 Hpoint Hscript. unfold IsVisible.
    rewrite (bind_normal _ _ _ _ _ Hpoint). simpl.
    by rewrite (bind_normal _ _ _ _ _ Hscript).
  - intros x y s1 r s2 Hpoint Hscript. unfold IsVisible.
    rewrite (bind_normal _ _ _ _ _ Hpoint). simpl.
    rewrite (bind_normal _ _ _ _ _ Hscript). simpl.
    unfold bind, Bool, deref, ret. simpl.
    by destruct (RemoteObject_Bool env r).
Qed.

End Returns.

Lemma results_zero_on_error_witness :
  Witness.DoGetText ≠ Witness.DoIsChecked
  ∧ Witness.returns (Witness.perform closed_env Witness.DoGetText 1)
      Witness.zero_on_error.
Proof.
  split; [discriminate|].
  apply (results_zero_on_error closed_env Witness.DoGetText 1). discriminate.
Defined.

(** With the session closed the quad request fails and that error is
    returned; on a detached root that cannot be re-resolved the visibility
    script fails and the element is reported as not visible; after a
    navigation the script answers. *)
Lemma IsVisible_verdict_witness :
  Witness.IsVisible closed_env 2 (page 0)
  = Witness.Normal (false, Some ErrSessionClosed)
      (Witness.after_request (page 0)
         (Witness.EvGetContentQuads 0 "button-1" true))
  ∧ (∃ s2, Witness.IsVisible unresolvable_env 0 (page 1)
           = Witness.Normal (false, None) s2)
  ∧ (∃ s2, Witness.IsVisible navigated_env 2 (page 0)
           = Witness.Normal (true, None) s2).
Proof.
  split; [|split].
  - apply (proj1 (proj2 (IsVisible_verdict closed_env 2 (page 0)))
             Witness.minus_one Witness.minus_one ErrSessionClosed).
    vm_compute. reflexivity.
  - eexists.
    eapply (proj1 (proj2 (proj2 (IsVisible_verdict unresolvable_env 0 (page 1)))));
      vm_compute; reflexivity.
  - eexists.
    eapply (proj2 (proj2 (proj2 (IsVisible_verdict navigated_env 2 (page 0))))
              _ _ _ (remote_bool true));
      vm_compute; reflexivity.
Defined.

(** ** When the document is re-resolved *)

Section Calm.

Import Witness.
Local Open Scope go_scope.
Context (env : Env).

Implicit Types (h : list element) (p q : ptr) (e : element) (s : State)
  (t l : list event).

Lemma reresolutions_app l l' :
  reresolutions (l ++ l') = reresolutions l + reresolutions l'.
Proof. unfold reresolutions. by rewrite filter_app, length_app. Qed.

Lemma calm_request t0 s (ev : event) :
  is_reresolution ev = false → calm t0 s → calm t0 (after_request s ev).
Proof.
  intros Hev [Hroots (l & Htr & Hl)]. split; [done|].
  exists (l ++ [ev]). simpl. rewrite Htr, <- app_assoc. split; [done|].
  rewrite reresolutions_app, Hl. unfold reresolutions. simpl.
  rewrite filter_cons, Hev. by rewrite decide_False.
Qed.

Lemma calm_renew t0 p : keeps (calm t0) (renew env p).
Proof.
  intros s HI. destruct (heap s !! p) as [e|] eqn:He.
  2:{ unfold renew, isDetached, bind, load. by rewrite He. }
  destruct (decide (detached e = 1%Z)) as [Hd|Hd].
  2:{ by rewrite (renew_attached env p e s He Hd). }
  destruct (parent e) as [q|] eqn:Hpar.
  - rewrite (renew_detached_child env p e q s He Hd Hpar).
    by apply calm_request.
  - destruct HI as [Hroots _]. by destruct (Hroots p e He Hpar).
Qed.

Lemma roots_attached_newElement h q (oid descr : string) pe :
  roots_attached h →
  (h ++ [{| ID := oid; description := descr; parent := Some q;
            childs := []; detached := 0 |}]) !! q = Some pe →
  ∀ cs,
  roots_attached
    (<[q := set_childs pe cs]>
       (h ++ [{| ID := oid; description := descr; parent := Some q;
                 childs := []; detached := 0 |}])).
Proof.
  intros Hroots Hq cs i x Hx Hpar.
  set (new := {| ID := oid; description := descr; parent := Some q;
                 childs := []; detached := 0 |}) in *.
  assert (Hall : ∀ j y, (h ++ [new]) !! j = Some y → parent y = None →
                        detached y ≠ 1%Z).
  { intros j y Hy Hp. apply lookup_app_Some in Hy as [Hy|[_ Hy]].
    - by apply (Hroots j y).
    - apply list_lookup_singleton_Some in Hy as [_ <-]. done. }
  destruct (decide (i = q)) as [->|Hne].
  - rewrite list_lookup_insert_eq in Hx by (by eapply lookup_lt_Some).
    simplify_eq. simpl in *. by apply (Hall q pe).
  - rewrite list_lookup_insert_ne in Hx by done. by apply (Hall i x).
Qed.

Lemma calm_newElement t0 q (oid descr : string) :
  keeps (calm t0) (newElement (Some q) oid descr).
Proof.
  intros s [Hroots Htr]. unfold newElement, bind, alloc, load, store, ret.
  simpl.
  set (new := {| ID := oid; description := descr; parent := Some q;
                 childs := []; detached := 0 |}).
  destruct ((heap s ++ [new]) !! q) as [pe|] eqn:Hq; simpl.
  - split; [|done]. simpl. by apply roots_attached_newElement.
  - split; [|done]. simpl. intros j y Hy Hp.
    apply lookup_app_Some in Hy as [Hy|[_ Hy]].
    + by apply (Hroots j y).
    + apply list_lookup_singleton_Some in Hy as [_ <-]. done.
Qed.

Lemma for_each_trace (f : ptr → M unit) (cs : list ptr) s :
  (∀ c s1, match f c s1 with
           | Normal _ s' | Panicked _ s' => trace s' = trace s1
           | OutOfFuel => True
           end) →
  match for_each f cs s with
  | Normal _ s' | Panicked _ s' => trace s' = trace s
  | OutOfFuel => True
  end.
Proof.
  intros Hf. revert s. induction cs as [|c cs IH]; intros s; simpl; [done|].
  unfold bind. specialize (Hf c s).
  destruct (f c s) as [[] s1|x s1|]; [|done|done].
  specialize (IH s1). destruct (for_each f cs s1); congruence.
Qed.

Lemma detach_rec_trace (fuel : nat) p s :
  match detach_rec fuel p s with
  | Normal _ s' | Panicked _ s' => trace s' = trace s
  | OutOfFuel => True
  end.
Proof.
  revert p s. induction fuel as [|fuel IH]; intros p s; simpl; [done|].
  unfold bind, load, store.
  destruct (heap s !! p) as [e|]; [|done]. simpl.
  destruct (<[p:=set_detached e 1]> (heap s) !! p) as [e'|]; [|done].
  apply (for_each_trace (detach_rec fuel) (childs e')
           {| heap := <[p:=set_detached e 1]> (heap s); trace := trace s |}).
  intros c s1. apply IH.
Qed.

Lemma Release_issued p s :
  reresolutions (issued (Release env p) s) = 0.
Proof.
  unfold issued, Release, bind at 1, load.
  destruct (heap s !! p) as [e|]; simpl; [|by rewrite drop_all].
  unfold releaseObject, request, bind, ret. simpl. unfold detach. simpl.
  set (s1 := {| heap := heap s; trace := _ |}).
  pose proof (detach_rec_trace (length (heap s)) p s1) as H.
  destruct (detach_rec (length (heap s)) p s1) as [[] s2|x s2|]; simpl.
  - rewrite H. simpl. by rewrite drop_app_length.
  - rewrite H. simpl. by rewrite drop_app_length.
  - by rewrite drop_nil.
Qed.

(** X17. A method sends a re-resolution of the document only when a
    document root is detached: started in a state in which no root handle
    carries the detached flag, no method of the interface sends one. *)
Theorem no_reresolution_without_detached_root (o : operation) p s :
  roots_attached (heap s) →
  reresolutions (issued (perform env o p) s) = 0.
Proof.
  intros Hroots. destruct (decide (o = DoRelease)) as [->|Ho].
  { pose proof (Release_issued p s) as H. unfold issued, perform in *.
    unfold bind at 1. by destruct (Release env p s). }
  assert (HI : calm (trace s) s).
  { split; [done|]. exists []. by rewrite app_nil_r. }
  pose proof (keeps_perform_but_Release env (calm (trace s)) (λ _, True)
                (calm_request (trace s)) (calm_renew (trace s))
                (λ q _, calm_newElement (trace s) q) o p Ho I s HI) as H.
  unfold issued.
  destruct (perform env o p s) as [r s'|x s'|]; simpl; [| |done];
    destruct H as [_ (l & -> & Hl)]; by rewrite drop_app_length.
Qed.

End Calm.

Lemma page_roots_attached : Witness.roots_attached (Witness.heap (page 0)).
Proof.
  intros q e Hq Hpar.
  destruct q as [|[|[|q]]]; simpl in Hq; simplify_eq; done.
Qed.

Lemma no_reresolution_without_detached_root_witness :
  Witness.roots_attached (Witness.heap (page 0))
  ∧ Witness.reresolutions
      (Witness.issued (Witness.perform navigated_env Witness.DoClick 2) (page 0))
    = 0.
Proof.
  split; [apply page_roots_attached|].
  apply (no_reresolution_without_detached_root navigated_env Witness.DoClick 2
           (page 0) page_roots_attached).
Defined.

(** ** Methods that do not re-validate, and guards on the node *)

Section Unvalidated.

Import Witness.
Local Open Scope go_scope.
Context (env : Env).

Implicit Types (p : ptr) (e : element) (s : State).

(** Case analysis on the innermost scrutinee first. *)
Ltac run_all :=
  repeat match goal with
  | |- context [match ?x with _ => _ end] =>
      lazymatch x with
      | context [match _ with _ => _ end] => fail
      | _ => destruct x; simpl
      end
  end.

(** X18. [Call], [Focus], [Upload], [SwitchToFrame], [GetRectangle] and
    [GetEventListeners] do not re-validate their handle: whatever its
    detached flag says, they send their requests on the identifier the
    handle has, never re-resolve the document and leave every handle as
    it is. *)
Theorem unvalidated_methods (o : operation) p s :
  skips_revalidation o = true →
  match perform env o p s with
  | Normal _ s' | Panicked _ s' =>
      heap s' = heap s
      ∧ reresolutions (issued (perform env o p) s) = 0
  | OutOfFuel => False
  end.
Proof.
  intros Ho. unfold issued.
  destruct o; try discriminate Ho; clear Ho;
    unfold perform, Call, Focus, Upload, SwitchToFrame, GetRectangle,
      GetEventListeners, getNode, callFunctionOn, blockingSend,
      getContentQuads, createIsolatedWorld, request, deref, index, bind,
      load, ret, throw; simpl;
    run_all;
    rewrite <- ?app_assoc, ?drop_all, ?drop_app_length; done.
Qed.

End Unvalidated.

Lemma unvalidated_methods_witness :
  Witness.skips_revalidation Witness.DoFocus = true
  ∧ match Witness.perform navigated_env Witness.DoFocus 0 (page 1) with
    | Witness.Normal _ s' | Witness.Panicked _ s' =>
        Witness.heap s' = Witness.heap (page 1)
        ∧ Witness.reresolutions
            (Witness.issued (Witness.perform navigated_env Witness.DoFocus 0)
               (page 1)) = 0
    | Witness.OutOfFuel => False
    end.
Proof.
  split; [reflexivity|].
  apply (unvalidated_methods navigated_env Witness.DoFocus 0 (page 1)).
  reflexivity.
Defined.

Section Guards.

Import Witness.
Local Open Scope go_scope.
Context (env : Env).

Implicit Types (p : ptr) (e : element) (s : State).


(** X20. [Select] on a node that is not a SELECT returns the
    invalid-select error, and [SwitchToFrame] on a node that is not an
    IFRAME returns the invalid-frame error; each has sent the node
    description request and nothing else: no option is touched and no
    isolated world is created. *)
Theorem wrong_node_refused p e s (node : Node) (values : list string) :
  heap s !! p = Some e →
  let describe := EvBlockingSend "DOM.describeNode"
                    [("objectId", AString (ID e)); ("depth", AInt 1)] in
  reply_err env (trace s) describe = None →
  Unmarshal_DescribeNode env (reply_message env (trace s) describe)
  = (Some node, None) →
  (NodeName node ≠ "SELECT" →
     Select env p values s
     = Normal (Some ErrInvalidElementSelect) (after_request s describe))
  ∧ (NodeName node ≠ "IFRAME" →
       SwitchToFrame env p s
       = Normal (Some ErrInvalidElementFrame) (after_request s describe)).
Proof.
  intros He describe Herr Hnode.
  assert (Hget : getNode env p s = Normal (Some node, None)
                                     (after_request s describe)).
  { unfold getNode. rewrite (bind_normal _ _ _ _ _ (load_normal _ _ _ He)).
    unfold blockingSend, request, bind. fold describe.
    by rewrite Herr, Hnode. }
  split; intros Hname.
  - unfold Select. rewrite (bind_normal _ _ _ _ _ Hget).
    unfold bind, deref, ret. simpl.
    by rewrite bool_decide_eq_false_2.
  - unfold SwitchToFrame. rewrite (bind_normal _ _ _ _ _ Hget).
    unfold bind, deref, ret. simpl.
    by rewrite bool_decide_eq_false_2.
Qed.

(** X21. [GetRectangle] reads the points 0, 1 and 3 of the quad the
    session returns without looking at its length: on a quad of fewer
    than four points it panics with an index out of range; on any longer
    one it returns the rectangle from point 0 with the width up to point 1
    and the height up to point 3. *)
Theorem GetRectangle_bounds p e s :
  heap s !! p = Some e →
  let ask := EvGetContentQuads 0 (ID e) false in
  let q := reply_quad env (trace s) ask in
  reply_err env (trace s) ask = None →
  (length q < 4 →
     GetRectangle env p s = Panicked IndexOutOfRange (after_request s ask))
  ∧ (∀ q0 q1 q3, q !! 0 = Some q0 → q !! 1 = Some q1 → q !! 3 = Some q3 →
       GetRectangle env p s
       = Normal (Some {| rect_X := X q0; rect_Y := Y q0;
                         Width := float_sub env (X q1) (X q0);
                         Height := float_sub env (Y q3) (Y q0) |}, None)
           (after_request s ask)).
Proof.
  intros He ask q Herr.
  assert (Hrun : GetRectangle env p s
                 = (let* q0 := index q 0 in
                    let* q1 := index q 1 in
                    let* q3 := index q 3 in
                    ret (Some {| rect_X := X q0; rect_Y := Y q0;
                                 Width := float_sub env (X q1) (X q0);
                                 Height := float_sub env (Y q3) (Y q0) |},
                         None)) (after_request s ask)).
  { unfold GetRectangle. rewrite (bind_normal _ _ _ _ _ (load_normal _ _ _ He)).
    unfold getContentQuads, request, bind at 1. fold ask. by rewrite Herr. }
  rewrite Hrun. split.
  - intros Hlen. unfold bind, index, ret, throw.
    destruct q as [|x0 [|x1 [|x2 [|x3 q']]]]; simpl in *; try done. lia.
  - intros q0 q1 q3 H0 H1 H3. unfold bind, index, ret.
    by rewrite H0, H1, H3.
Qed.

End Guards.

Section Quotes.

Import Witness.

(** X22. Escaping a selector puts one backslash in front of every double
    quote and changes nothing else: the result is longer by the number of
    quotes, a selector without quotes is passed on as it is, and escaping
    distributes over concatenation. *)
Theorem escape_quotes_spec (a b : string) :
  String.length (escape_quotes a) = String.length a + count_quotes a
  ∧ (count_quotes a = 0 → escape_quotes a = a)
  ∧ escape_quotes (a +:+ b) = escape_quotes a +:+ escape_quotes b.
Proof.
  split; [|split].
  - induction a as [|c a IH]; simpl; [done|].
    case_bool_decide; simpl; rewrite IH; lia.
  - induction a as [|c a IH]; simpl; [done|].
    case_bool_decide; simpl; [done|]. intros Hz. by rewrite IH.
  - induction a as [|c a IH]; simpl; [done|].
    case_bool_decide; simpl; by rewrite IH.
Qed.

End Quotes.

Section ClickSequence.

Import Witness.
Local Open Scope go_scope.
Context (env : Env).

Implicit Types (p : ptr) (e : element) (s : State).

Lemma clickablePoint_run p e s :
  heap s !! p = Some e →
  let ask := EvGetContentQuads 0 (ID e) true in
  clickablePoint env p s
  = Normal (if reply_err env (trace s) ask is Some err
            then (minus_one, minus_one, Some err)
            else (Quad_Middle env (reply_quad env (trace s) ask), None))
      (after_request s ask).
Proof.
  intros He ask. unfold clickablePoint.
  rewrite (bind_normal _ _ _ _ _ (load_normal _ _ _ He)).
  unfold getContentQuads, request, bind. fold ask.
  destruct (reply_err env (trace s) ask); [done|].
  by destruct (Quad_Middle env _).
Qed.

Lemma dispatchMouseEvent_run (x y : float64) (type : MouseEventType)
    (button : string) s :
  let ev := EvDispatchMouseEvent x y type button in
  dispatchMouseEvent env x y type button s
  = Normal (reply_err env (trace s) ev) (after_request s ev).
Proof. done. Qed.

(** X23. [Click] on a handle that is not detached ends and leaves every
    handle as it is.  It sends the scroll into view, the request for the
    content quads and the installation of the click guard, and returns the
    error of the first of the three that fails, having sent nothing after
    it: no mouse event.  When all three succeed it sends the mouse moved,
    pressed and released at the middle of the quad and then the guard
    query, whatever the session answered to the three mouse events, and
    ends with success, with the missed-click error, or in a panic on the
    guard query's nil result. *)
Theorem Click_sequence p e s :
  heap s !! p = Some e → detached e ≠ 1%Z →
  let scroll := EvCallFunctionOn (ID e) (FnAtom ScrollIntoView) [] in
  let quads := EvGetContentQuads 0 (ID e) true in
  let prevent := EvCallFunctionOn (ID e) (FnAtom PreventMissClick) [] in
  let xy := Quad_Middle env (reply_quad env (trace s ++ [scroll]) quads) in
  let guard := EvCallFunctionOn (ID e) (FnAtom IsClickHit) [] in
  let sent := issued (Click env p) s in
  let s' := {| heap := heap s; trace := trace s ++ sent |} in
  (∃ err, Click env p s = Normal (Some err) s'
        ∧ ((sent = [scroll]
            ∧ reply_err env (trace s) scroll = Some err)
           ∨ (sent = [scroll; quads]
              ∧ reply_err env (trace s) scroll = None
              ∧ reply_err env (trace s ++ [scroll]) quads = Some err)
           ∨ (sent = [scroll; quads; prevent]
              ∧ reply_err env (trace s) scroll = None
              ∧ reply_err env (trace s ++ [scroll]) quads = None
              ∧ reply_err env (trace s ++ [scroll; quads]) prevent = Some err)))
  ∨ (reply_err env (trace s) scroll = None
     ∧ reply_err env (trace s ++ [scroll]) quads = None
     ∧ reply_err env (trace s ++ [scroll; quads]) prevent = None
     ∧ sent
       = [ scroll; quads; prevent;
           EvDispatchMouseEvent xy.1 xy.2 dispatchMouseEventMoved "none";
           EvDispatchMouseEvent xy.1 xy.2 dispatchMouseEventPressed "left";
           EvDispatchMouseEvent xy.1 xy.2 dispatchMouseEventReleased "left";
           guard ]
     ∧ (Click env p s = Normal None s'
        ∨ Click env p s = Normal (Some ErrElementMissClick) s'
        ∨ Click env p s = Panicked NilDereference s')).
Proof.
  intros He Hd scroll quads prevent xy guard.
  set (s1 := after_request s scroll).
  set (s2 := after_request s1 quads).
  set (s3 := after_request s2 prevent).
  assert (Hcall1 : call env p (FnAtom ScrollIntoView) [] s
                   = Normal (reply_object env (trace s) scroll,
                             reply_err env (trace s) scroll) s1).
  { by rewrite (call_attached env _ _ _ _ _ He Hd). }
  assert (Hpoint : clickablePoint env p s1 = _)
    by exact (clickablePoint_run p e s1 He).
  assert (Hcall3 : call env p (FnAtom PreventMissClick) [] s2
                   = Normal (reply_object env (trace s2) prevent,
                             reply_err env (trace s2) prevent) s3).
  { by rewrite (call_attached env p e s2 _ _ He Hd). }
  unfold issued, Click.
  rewrite (bind_normal _ _ _ _ _ Hcall1).
  destruct (reply_err env (trace s) scroll) as [err1|].
  { left. exists err1. simpl. rewrite drop_app_length.
    split; [done|]. by left. }
  rewrite (bind_normal _ _ _ _ _ Hpoint). fold quads. fold s2.
  change (trace s1) with (trace s ++ [scroll]).
  destruct (reply_err env (trace s ++ [scroll]) quads) as [err2|].
  { left. exists err2. unfold s2, s1, after_request. simpl.
    rewrite <- !app_assoc, drop_app_length. simpl.
    split; [done|]. right. by left. }
  fold xy. destruct xy as [x y] eqn:Hxy. simpl.
  rewrite (bind_normal _ _ _ _ _ Hcall3).
  change (trace s2) with ((trace s ++ [scroll]) ++ [quads]).
  rewrite <- (app_assoc (trace s) [scroll] [quads]). simpl.
  destruct (reply_err env (trace s ++ [scroll; quads]) prevent) as [err3|].
  { left. exists err3. unfold s3, s2, s1, after_request. simpl.
    rewrite <- !app_assoc, drop_app_length. simpl.
    split; [done|]. right. by right. }
  right. split; [done|]. split; [done|]. split; [done|].
  rewrite (bind_normal _ _ _ _ _ (dispatchMouseEvent_run _ _ _ _ _)).
  rewrite (bind_normal _ _ _ _ _ (dispatchMouseEvent_run _ _ _ _ _)).
  rewrite (bind_normal _ _ _ _ _ (dispatchMouseEvent_run _ _ _ _ _)).
  set (s6 := after_request (after_request (after_request s3 _) _) _).
  assert (Hcall7 : call env p (FnAtom IsClickHit) [] s6
                   = Normal (reply_object env (trace s6) guard,
                             reply_err env (trace s6) guard)
                       (after_request s6 guard)).
  { by rewrite (call_attached env p e s6 _ _ He Hd). }
  rewrite (bind_normal _ _ _ _ _ Hcall7).
  destruct (reply_err env (trace s6) guard) as [err|];
    [|destruct (reply_object env (trace s6) guard) as [hit|]].
  - unfold bind, ret. simpl.
    destruct (_ || _); unfold s6, s3, s2, s1, after_request; simpl;
      rewrite <- !app_assoc, drop_app_length; simpl; split; auto.
  - unfold bind, Bool, deref, ret. simpl.
    destruct (RemoteObject_Bool env hit);
      unfold s6, s3, s2, s1, after_request; simpl;
      rewrite <- !app_assoc, drop_app_length; simpl; split; auto.
  - unfold bind, Bool, deref, throw. simpl.
    unfold s6, s3, s2, s1, after_request; simpl.
    rewrite <- !app_assoc, drop_app_length; simpl. split; auto.
Qed.

End ClickSequence.


Lemma wrong_node_refused_witness :
  Witness.Select div_env 2 ["red"] (page 0)
  = Witness.Normal (Some ErrInvalidElementSelect)
      (Witness.after_request (page 0)
         (Witness.EvBlockingSend "DOM.describeNode"
            [("objectId", Witness.AString "button-1");
             ("depth", Witness.AInt 1)])).
Proof.
  destruct (wrong_node_refused div_env 2 _ (page 0)
              {| Witness.NodeName := "DIV"; Witness.FrameID := "" |} ["red"]
              eq_refl eq_refl eq_refl) as [H _].
  apply H. discriminate.
Defined.

Lemma GetRectangle_bounds_witness :
  Witness.GetRectangle silent_env 2 (page 0)
  = Witness.Panicked Witness.IndexOutOfRange
      (Witness.after_request (page 0)
         (Witness.EvGetContentQuads 0 "button-1" false)).
Proof.
  destruct (GetRectangle_bounds silent_env 2 _ (page 0) eq_refl eq_refl)
    as [H _].
  apply H. simpl. lia.
Defined.

(** After a navigation every request is answered and the guard reports a
    hit: the click goes through with seven requests.  With the session
    closed the scroll fails and nothing else is sent. *)
Lemma Click_sequence_witness :
  (Witness.Click navigated_env 2 (page 0)
   = Witness.Normal None
       {| Witness.heap := page_heap 0;
          Witness.trace := Witness.issued (Witness.Click navigated_env 2) (page 0) |}
   ∧ length (Witness.issued (Witness.Click navigated_env 2) (page 0)) = 7)
  ∧ (Witness.Click closed_env 2 (page 0)
     = Witness.Normal (Some ErrSessionClosed)
         {| Witness.heap := page_heap 0;
            Witness.trace := Witness.issued (Witness.Click closed_env 2) (page 0) |}
     ∧ length (Witness.issued (Witness.Click closed_env 2) (page 0)) = 1).
Proof.
  split.
  - destruct (Click_sequence navigated_env 2 _ (page 0) eq_refl
                ltac:(discriminate))
      as [(err & Hrun & _)|(_ & _ & _ & Hsent & Hend)].
    + vm_compute in Hrun. discriminate Hrun.
    + split; [|by rewrite Hsent].
      destruct Hend as [Hrun|[Hrun|Hrun]];
        [exact Hrun|vm_compute in Hrun; discriminate Hrun..].
  - destruct (Click_sequence closed_env 2 _ (page 0) eq_refl
                ltac:(discriminate))
      as [(err & Hrun & [[Hsent Herr]|[(_ & Hok & _)|(_ & Hok & _)]])
         |(Hok & _)];
      try (vm_compute in Hok; discriminate Hok).
    vm_compute in Herr. injection Herr as <-.
    split; [exact Hrun|by rewrite Hsent].
Defined.

Section TypeSequence.

Import Witness.
Local Open Scope go_scope.
Context (env : Env).

Implicit Types (p : ptr) (e : element) (s : State).

(** X24. [Type] on a handle that is not detached, with a session that
    answers every request without error and reports the element visible,
    returns no error, leaves every handle as it is and has sent, in this
    order: the visibility question, the focus, the clearing of the input,
    a pause of 200 ms, the key-down event, the text inserted in one piece,
    the key-press, input, key-up and change events and, only when trailing
    keys were given, a second pause of 200 ms and these keys. *)
Theorem Type_sequence p e s (text : string) (key : option (list Z))
    (r : RemoteObject) :
  heap s !! p = Some e → detached e ≠ 1%Z →
  (∀ t ev, reply_err env t ev = None) →
  reply_object env (trace s) (EvCallFunctionOn (ID e) (FnAtom IsVisible_) [])
  = Some r →
  RemoteObject_Bool env r = true →
  Type' env p text key s
  = Normal None
      {| heap := heap s;
         trace :=
           trace s ++
           [ EvCallFunctionOn (ID e) (FnAtom IsVisible_) [];
             EvBlockingSend "DOM.focus" [("objectId", AString (ID e))];
             EvCallFunctionOn (ID e) (FnAtom ClearInput) [];
             EvSleep 200;
             EvCallFunctionOn (ID e) (FnAtom DispatchEvents)
               [AStrings ["keydown"]];
             EvInsertText text;
             EvCallFunctionOn (ID e) (FnAtom DispatchEvents)
               [AStrings ["keypress"; "input"; "keyup"; "change"]] ]
           ++ (if key is Some k then [EvSleep 200; EvSendKeys k] else []) |}.
Proof.
  intros He Hd Hok Hobj Hbool.
  unfold Type', Clear, Focus, call, renew, isDetached, callFunctionOn,
    blockingSend, insertText, SendKeys, time_Sleep, emit, request, Bool,
    deref, bind, load, ret; simpl.
  repeat (first [ rewrite He | rewrite Hok | rewrite Hobj | rewrite Hbool
                | rewrite (bool_decide_eq_false_2 _ Hd) ]; simpl).
  destruct key as [k|]; simpl;
    repeat (first [ rewrite He | rewrite Hok ]; simpl);
    by rewrite <- ?app_assoc.
Qed.

End TypeSequence.

Lemma Type_sequence_witness :
  (∀ t ev, Witness.reply_err navigated_env t ev = None)
  ∧ ∃ s', Witness.Type' navigated_env 2 "hello" (Some [13%Z]) (page 0)
          = Witness.Normal None s'
        ∧ length (Witness.trace s') = 9.
Proof.
  split; [done|]. eexists. split.
  - apply (Type_sequence navigated_env 2 _ (page 0) "hello" (Some [13%Z])
             (remote_bool true) eq_refl);
      [discriminate|done|reflexivity|reflexivity].
  - reflexivity.
Defined.
